(** * law.job.base and law.config: job managers, job file factories, job
    arguments, input files, and the configuration parser

    A shallow embedding of [law/job/base.py] and of the [Config] class of
    [law/config.py], and a verification of their documented behaviour.
    Python values are modelled by an inductive type, raised exceptions by an
    error result, instance attributes by records that are threaded
    explicitly, dictionaries by [gmap] (or by insertion-ordered association
    lists where the code iterates over them). *)

From Stdlib Require Import ZArith NArith Ascii String List Lia Bool.
From stdpp Require Import base tactics option list gmap strings pretty.

Set Warnings "-register-all".

Open Scope string_scope.
Open Scope list_scope.
Open Scope Z_scope.

(* ===================================================================== *)
(** * Python prelude *)
(* ===================================================================== *)

Module Py.

(** Exceptions, by class and message. *)
Inductive exn : Type :=
| Exception (msg : string)
| TypeError (msg : string)
| ValueError (msg : string)
| IOError (msg : string)
| KeyError (msg : string)
| IndexError (msg : string)
| UnboundLocalError (msg : string)
| UnicodeDecodeError (msg : string)
| UnicodeEncodeError (msg : string)
| AttributeError (msg : string)
| FileNotFoundError (msg : string)
| NotADirectoryError (msg : string)
| IsADirectoryError (msg : string).

(** The outcome of a call: a value or a raised exception. *)
Inductive res (A : Type) : Type :=
| Ok (a : A)
| Raise (e : exn).
Arguments Ok {A} a.
Arguments Raise {A} e.

Definition bind {A B} (r : res A) (k : A -> res B) : res B :=
  match r with
  | Ok a => k a
  | Raise e => Raise e
  end.

(** The call returns, it does not raise. *)
Definition returns {A} (r : res A) : Prop := exists a, r = Ok a.

(** Python objects as far as the job managers handle them: job ids and job
    files are strings, atomic operations return arbitrary objects.
    Dictionaries keep their insertion order and are keyed by strings. *)
Inductive value : Type :=
| VNone
| VBool (b : bool)
| VInt (z : Z)
| VStr (s : string)
| VExc (e : exn)
| VList (l : list value)
| VDict (d : list (string * value)).

(** [type(e).__name__] *)
Definition exn_name (e : exn) : string :=
  match e with
  | Exception _ => "Exception"
  | TypeError _ => "TypeError"
  | ValueError _ => "ValueError"
  | IOError _ => "OSError"
  | KeyError _ => "KeyError"
  | IndexError _ => "IndexError"
  | UnboundLocalError _ => "UnboundLocalError"
  | UnicodeDecodeError _ => "UnicodeDecodeError"
  | UnicodeEncodeError _ => "UnicodeEncodeError"
  | AttributeError _ => "AttributeError"
  | FileNotFoundError _ => "FileNotFoundError"
  | NotADirectoryError _ => "NotADirectoryError"
  | IsADirectoryError _ => "IsADirectoryError"
  end.

(** [type(v).__name__] *)
Definition type_name (v : value) : string :=
  match v with
  | VNone => "NoneType"
  | VBool _ => "bool"
  | VInt _ => "int"
  | VStr _ => "str"
  | VExc e => exn_name e
  | VList _ => "list"
  | VDict _ => "dict"
  end.

(** [isinstance(v, Exception)] *)
Definition is_exception (v : value) : bool :=
  match v with VExc _ => true | _ => false end.

(** [bool(v)] *)
Definition truthy (v : value) : bool :=
  match v with
  | VNone => false
  | VBool b => b
  | VInt z => negb (z =? 0)
  | VStr s => negb (String.eqb s "")
  | VExc _ => true
  | VList l => match l with [] => false | _ => true end
  | VDict d => match d with [] => false | _ => true end
  end.

(** The characters of a string, as one-character strings. *)
Fixpoint chars (s : string) : list string :=
  match s with
  | EmptyString => []
  | String c s' => String c EmptyString :: chars s'
  end.

(** [iter(v)] exhausted into a list; [None] where Python raises
    [TypeError: object is not iterable]. *)
Definition iterate (v : value) : option (list value) :=
  match v with
  | VList l => Some l
  | VDict d => Some (map (fun kv => VStr (fst kv)) d)
  | VStr s => Some (map VStr (chars s))
  | VNone | VBool _ | VInt _ | VExc _ => None
  end.

(** [s or "-"] on strings. *)
Definition or_dash (s : string) : string :=
  if String.eqb s "" then "-" else s.

(** ** Strings of Python 3

    A [str] is a sequence of code points, here a list of numbers.  A
    [string] of this development is a sequence of bytes; it also stands for
    the [str] with the same code points, all below 256, where the code
    handles text that it has read or produced itself. *)
Abbreviation text := (list N).

(** The [str] with the code points of a byte string. *)
Definition text_of (s : string) : text :=
  map N_of_ascii (list_ascii_of_string s).

(** [s.encode("latin-1")], which [six.b(s)] is on Python 3: one byte per
    code point, and [UnicodeEncodeError] for a code point above 255.  The
    message is the reason that the exception gives. *)
Definition latin1 (s : text) : res string :=
  if forallb (fun c => (c <? 256)%N) s
  then Ok (string_of_list_ascii (map ascii_of_N s))
  else Raise (UnicodeEncodeError "ordinal not in range(256)").

(** [s or "-"] on a [str]. *)
Definition text_or_dash (s : text) : text :=
  match s with
  | [] => text_of "-"
  | _ => s
  end.

(** [sep.join(l)] on [str]s. *)
Definition text_join (sep : text) (l : list text) : text :=
  match l with
  | [] => []
  | x :: l' => x ++ flat_map (fun y => sep ++ y) l'
  end.

(** [str(z)] for an integer. *)
Definition str_of_Z (z : Z) : string := pretty z.

Fixpoint spaces (n : nat) : string :=
  match n with
  | O => EmptyString
  | S n' => String " " (spaces n')
  end.

(** [%d] and [%+d] with an optional field width: a positive width pads on
    the left, a negative one (the [-] flag) on the right. *)
Definition format_d (plus : bool) (width : Z) (n : Z) : string :=
  let digits := (if plus && (0 <=? n) then "+" else "") +:+ str_of_Z n in
  if width =? 0 then digits
  else if 0 <? width
  then spaces (Z.to_nat width - String.length digits) +:+ digits
  else digits +:+ spaces (Z.to_nat (- width) - String.length digits).

(** [sep.join(l)] *)
Definition join (sep : string) (l : list string) : string :=
  String.concat sep l.

(** ** base64.b64encode

    The argument is a byte string, what [six.b] has made of a [str]; the
    output is over the standard alphabet, padded with [=] to a multiple of
    four characters. *)
Definition b64_alphabet : string :=
  "ABCDEFGHIJKLMNOPQRSTUVWXYZabcdefghijklmnopqrstuvwxyz0123456789+/".

Definition b64_char (n : N) : ascii :=
  match String.get (N.to_nat n) b64_alphabet with
  | Some c => c
  | None => "="%char
  end.

(** The characters of an encoded string. *)
Definition is_b64 (c : ascii) : bool :=
  existsb (Ascii.eqb c) (list_ascii_of_string (b64_alphabet +:+ "=")).

Definition sextet1 (a : N) : N := N.shiftr a 2.
Definition sextet2 (a b : N) : N := N.lor (N.shiftl (N.land a 3) 4) (N.shiftr b 4).
Definition sextet3 (b c : N) : N := N.lor (N.shiftl (N.land b 15) 2) (N.shiftr c 6).
Definition sextet4 (c : N) : N := N.land c 63.

Fixpoint b64encode (s : string) : string :=
  match s with
  | EmptyString => EmptyString
  | String a EmptyString =>
      let a := N_of_ascii a in
      String (b64_char (sextet1 a)) (String (b64_char (sextet2 a 0)) "==")
  | String a (String b EmptyString) =>
      let a := N_of_ascii a in
      let b := N_of_ascii b in
      String (b64_char (sextet1 a)) (String (b64_char (sextet2 a b))
        (String (b64_char (sextet3 b 0)) "="))
  | String a (String b (String c rest)) =>
      let a := N_of_ascii a in
      let b := N_of_ascii b in
      let c := N_of_ascii c in
      String (b64_char (sextet1 a)) (String (b64_char (sextet2 a b))
        (String (b64_char (sextet3 b c)) (String (b64_char (sextet4 c))
          (b64encode rest))))
  end.

(** ** Decoding, to state that the encoding loses nothing

    [b64_value] inverts [b64_char] on the alphabet; [b64decode] reads groups
    of four characters back into up to three bytes, as [base64.b64decode]
    does on the output of [b64encode]. *)
Fixpoint index_of (c : ascii) (s : string) : N :=
  match s with
  | EmptyString => 0
  | String c' s' => if Ascii.eqb c c' then 0 else N.succ (index_of c s')
  end.

Definition b64_value (c : ascii) : N := index_of c b64_alphabet.

Definition octet1 (s1 s2 : N) : N := N.lor (N.shiftl s1 2) (N.shiftr s2 4).
Definition octet2 (s2 s3 : N) : N := N.lor (N.shiftl (N.land s2 15) 4) (N.shiftr s3 2).
Definition octet3 (s3 s4 : N) : N := N.lor (N.shiftl (N.land s3 3) 6) s4.

Fixpoint b64decode (s : string) : string :=
  match s with
  | String c1 (String c2 (String c3 (String c4 rest))) =>
      let s1 := b64_value c1 in
      let s2 := b64_value c2 in
      let s3 := b64_value c3 in
      let s4 := b64_value c4 in
      if Ascii.eqb c3 "=" then String (ascii_of_N (octet1 s1 s2)) EmptyString
      else if Ascii.eqb c4 "="
      then String (ascii_of_N (octet1 s1 s2))
             (String (ascii_of_N (octet2 s2 s3)) EmptyString)
      else String (ascii_of_N (octet1 s1 s2))
             (String (ascii_of_N (octet2 s2 s3))
                (String (ascii_of_N (octet3 s3 s4)) (b64decode rest)))
  | _ => EmptyString
  end.

End Py.

Import Py.

(* ===================================================================== *)
(** * BaseJobFileFactory *)
(* ===================================================================== *)

Module BaseJobFileFactory.

(** ** Text: character classes, [str.replace], the pattern of render keys *)

Definition code (c : ascii) : N := N_of_ascii c.

Definition in_range (lo hi : N) (c : ascii) : bool :=
  ((lo <=? code c) && (code c <=? hi))%N.

(** [\w] of Python 3 on the code points below 256: letters, digits and the
    underscore of ASCII, and the alphanumeric characters of Latin-1. *)
Definition is_word (c : ascii) : bool :=
  in_range 48 57 c || in_range 65 90 c || in_range 97 122 c || (code c =? 95)%N
  || (code c =? 170)%N || in_range 178 179 c || (code c =? 181)%N
  || in_range 185 186 c || in_range 188 190 c || in_range 192 214 c
  || in_range 216 246 c || in_range 248 255 c.

(** [\s] of Python 3 on the code points below 256. *)
Definition is_space (c : ascii) : bool :=
  in_range 9 13 c || in_range 28 32 c || (code c =? 133)%N || (code c =? 160)%N.

(** [s.replace(old, new)] for a non-empty [old]: the occurrences of [old]
    are replaced from left to right, the search going on behind each
    occurrence; [skip] counts the characters of an occurrence still to pass. *)
Fixpoint replace_from (old new : string) (skip : nat) (s : string) : string :=
  match s with
  | EmptyString => EmptyString
  | String c s' =>
      match skip with
      | S k => replace_from old new k s'
      | O =>
          if String.prefix old s
          then new +:+ replace_from old new (String.length old - 1) s'
          else String c (replace_from old new 0 s')
      end
  end.

(** With an empty [old], [new] goes before every character and at the end. *)
Fixpoint intersperse (new : string) (s : string) : string :=
  match s with
  | EmptyString => new
  | String c s' => new +:+ String c (intersperse new s')
  end.

Definition replace (s old new : string) : string :=
  if String.eqb old "" then intersperse new s else replace_from old new 0 s.

(** [s[n:]] *)
Fixpoint string_drop (n : nat) (s : string) : string :=
  match n, s with
  | S n', String _ s' => string_drop n' s'
  | _, _ => s
  end.

(** All characters of [s] satisfy [p]; [s] is empty or starts with a
    character that does not. *)
Fixpoint string_forall (p : ascii -> bool) (s : string) : bool :=
  match s with
  | EmptyString => true
  | String c s' => p c && string_forall p s'
  end.

Definition stops (p : ascii -> bool) (s : string) : bool :=
  match s with
  | EmptyString => true
  | String c _ => negb (p c)
  end.

(** The longest prefix of characters that satisfy [p], and the rest. *)
Fixpoint span (p : ascii -> bool) (s : string) : string * string :=
  match s with
  | EmptyString => (EmptyString, EmptyString)
  | String c s' =>
      if p c then let '(w, rest) := span p s' in (String c w, rest)
      else (EmptyString, s)
  end.

(** [render_key_cre = re.compile(r"\{\{(\w+)\}\}")] matched at the start of
    [s]: the group, if it matches.  The greedy [\w+] takes all the word
    characters that follow the braces; giving some back cannot help, since
    the next character would be a word character and not a brace. *)
Definition match_key (s : string) : option string :=
  match s with
  | String "{" (String "{" s') =>
      let '(w, rest) := span is_word s' in
      if negb (String.eqb w "") && String.prefix "}}" rest then Some w else None
  | _ => None
  end.

(** [render_key_cre.search(s)]: the group of the leftmost match. *)
Fixpoint search_key (s : string) : option string :=
  match match_key s with
  | Some w => Some w
  | None =>
      match s with
      | EmptyString => None
      | String _ s' => search_key s'
      end
  end.

(** [render_key_cre.sub("", s)] *)
Fixpoint strip_keys_from (skip : nat) (s : string) : string :=
  match s with
  | EmptyString => EmptyString
  | String c s' =>
      match skip with
      | S k => strip_keys_from k s'
      | O =>
          match match_key s with
          | Some w => strip_keys_from (String.length w + 3) s'
          | None => String c (strip_keys_from 0 s')
          end
      end
  end.

Definition strip_keys (s : string) : string := strip_keys_from 0 s.

(** ** Dictionaries in insertion order *)

Definition dict : Type := list (string * value).

Fixpoint dict_get (d : dict) (k : string) : option value :=
  match d with
  | [] => None
  | (k', v) :: d' => if String.eqb k' k then Some v else dict_get d' k
  end.

(** [d[k] = v]: a present key keeps its place. *)
Fixpoint dict_set (d : dict) (k : string) (v : value) : dict :=
  match d with
  | [] => [(k, v)]
  | (k', v') :: d' =>
      if String.eqb k' k then (k, v) :: d' else (k', v') :: dict_set d' k v
  end.

(** ** json.dumps of a dictionary of strings *)

Definition dquote : ascii := ascii_of_N 34.
Definition backslash : ascii := ascii_of_N 92.

Definition hex_digit (n : N) : ascii :=
  if (n <? 10)%N then ascii_of_N (48 + n) else ascii_of_N (87 + n).

Definition json_escape_char (c : ascii) : string :=
  let n := code c in
  if (n =? 34)%N then String backslash (String dquote "")
  else if (n =? 92)%N then String backslash (String backslash "")
  else if (n =? 10)%N then String backslash "n"
  else if (n =? 13)%N then String backslash "r"
  else if (n =? 9)%N then String backslash "t"
  else if (n =? 8)%N then String backslash "b"
  else if (n =? 12)%N then String backslash "f"
  else if ((n <? 32) || (126 <? n))%N
  then String backslash ("u00" +:+ String (hex_digit (n / 16)) (String (hex_digit (n mod 16)) ""))
  else String c "".

Fixpoint json_escape (s : string) : string :=
  match s with
  | EmptyString => EmptyString
  | String c s' => json_escape_char c +:+ json_escape s'
  end.

Definition json_string (s : string) : string :=
  String dquote (json_escape s) +:+ String dquote "".

Definition json_value (v : value) : string :=
  match v with
  | VStr s => json_string s
  | _ => "null"
  end.

Definition json_dumps (d : dict) : string :=
  "{" +:+ join ", " (map (fun kv => json_string (fst kv) +:+ ": " +:+ json_value (snd kv)) d)
  +:+ "}".

(** ** Render variables *)

(** [render_string(s, key, value)] *)
Definition render_string (s key value : string) : string :=
  replace s ("{{" +:+ key +:+ "}}") value.

(** The [while True] loop of [linearize_render_variables] for one value.
    The loop has no bound of its own; [fuel] bounds the number of iterations
    and [None] says that it was used up before the loop was left. *)
Fixpoint linearize_value (fuel : nat) (render_variables : dict) (value : string)
    : option (res string) :=
  match fuel with
  | O => None
  | S fuel' =>
      match search_key value with
      | None => Some (Ok value)
      | Some sub_key =>
          match default (VStr "") (dict_get render_variables sub_key) with
          | VStr v =>
              linearize_value fuel' render_variables (render_string value sub_key v)
          | v =>
              Some (Raise (TypeError ("replace() argument 2 must be str, not "
                                      +:+ type_name v)))
          end
      end
  end.

Section Linearize.

(** [str(value)], with which [format] fills a value into the message of an
    exception, is the built-in conversion of an object to a string. *)
Variable str : value -> string.

(** The loop over [render_variables.items()]. *)
Fixpoint linearize_items (fuel : nat) (render_variables : dict) (items : dict)
    (linearized : dict) : option (res dict) :=
  match items with
  | [] => Some (Ok linearized)
  | (key, VStr value) :: rest =>
      match linearize_value fuel render_variables value with
      | None => None
      | Some (Raise e) => Some (Raise e)
      | Some (Ok value) =>
          linearize_items fuel render_variables rest (dict_set linearized key (VStr value))
      end
  | (key, value) :: rest =>
      Some (Raise (Exception ("render variables must be strings, found '" +:+ str value
                              +:+ "' for key '" +:+ key +:+ "'")))
  end.

Definition linearize_render_variables (fuel : nat) (render_variables : dict)
    : option (res dict) :=
  match linearize_items fuel render_variables render_variables [] with
  | Some (Ok linearized) =>
      (* add base64 encoded render variables themselves *)
      let vars_str := b64encode (or_dash (json_dumps linearized)) in
      Some (Ok (dict_set linearized "render_variables" (VStr vars_str)))
  | r => r
  end.

End Linearize.

(** [str] for examples, whose values are [None], booleans, integers and
    strings. *)
Definition example_str (v : value) : string :=
  match v with
  | VNone => "None"
  | VBool b => if b then "True" else "False"
  | VInt z => str_of_Z z
  | VStr s => s
  | _ => "..."
  end.

(** ** Values as texts with references, for stating when the loop ends *)

(** A piece of a value: a character, or a reference [{{name}}]. *)
Inductive piece : Type :=
| Lit (c : ascii)
| Ref (name : string).

(** A literal character of a plain text is not an opening brace (those
    belong to references); a name is a non-empty run of word characters. *)
Definition not_open (c : ascii) : bool := negb (Ascii.eqb c "{").

Definition name_ok (name : string) : bool :=
  negb (String.eqb name "") && string_forall is_word name.

Definition piece_ok (p : piece) : bool :=
  match p with
  | Lit c => not_open c
  | Ref name => name_ok name
  end.

(** The characters of a string as literal pieces. *)
Fixpoint lits (s : string) : list piece :=
  match s with
  | EmptyString => []
  | String c s' => Lit c :: lits s'
  end.

Definition render_piece (p : piece) : string :=
  match p with
  | Lit c => String c EmptyString
  | Ref name => "{{" +:+ name +:+ "}}"
  end.

Fixpoint render_pieces (ps : list piece) : string :=
  match ps with
  | [] => EmptyString
  | p :: ps' => render_piece p +:+ render_pieces ps'
  end.

(** The names referred to, from left to right. *)
Fixpoint refs (ps : list piece) : list string :=
  match ps with
  | [] => []
  | Lit _ :: ps' => refs ps'
  | Ref name :: ps' => name :: refs ps'
  end.

(** The pieces with every reference to [key] replaced by the pieces [qs]. *)
Fixpoint subst_refs (key : string) (qs : list piece) (ps : list piece) : list piece :=
  match ps with
  | [] => []
  | Lit c :: ps' => Lit c :: subst_refs key qs ps'
  | Ref name :: ps' =>
      (if String.eqb name key then qs else [Ref name]) ++ subst_refs key qs ps'
  end.

(** The literal characters with which the pieces begin, up to the first
    reference. *)
Fixpoint leading (ps : list piece) : string :=
  match ps with
  | Lit c :: ps' => String c (leading ps')
  | _ => EmptyString
  end.

(** The characters [u] behind an opening brace leave it open whether a
    reference starts at the brace: with what may follow them they can match
    the rest of the pattern, [\{(\w+)\}\}].  They do so when they are a
    beginning of such a match or contain one; they do not as soon as one of
    them differs from what the pattern asks for. *)
Definition may_open (u : string) : bool :=
  match u with
  | EmptyString => true
  | String c u' =>
      Ascii.eqb c "{"
      && let '(w, rest) := span is_word u' in
         match rest with
         | EmptyString => true
         | String d rest' =>
             Ascii.eqb d "}" && negb (String.eqb w "")
             && match rest' with
                | EmptyString => true
                | String d' _ => Ascii.eqb d' "}"
                end
         end
  end.

(** A text with references in which the literal opening braces are quiet:
    the literal characters that follow such a brace, up to the next
    reference or the end, rule out that a reference starts at the brace,
    whatever the references are replaced with.  The braces of [${HOME}/x],
    of [{a}] and of [{{ x }}] are quiet; an opening brace at the end of a
    text or before a reference is not. *)
Fixpoint quiet (ps : list piece) : bool :=
  match ps with
  | [] => true
  | Lit c :: ps' => (not_open c || negb (may_open (leading ps'))) && quiet ps'
  | Ref name :: ps' => name_ok name && quiet ps'
  end.

(** The total rank of the references. *)
Definition weight (rank : string -> nat) (ps : list piece) : nat :=
  foldr Nat.add 0%nat (map rank (refs ps)).

(** What [render_variables.get(name, "")] yields when it is a string. *)
Definition text_of (render_variables : dict) (name : string) : option string :=
  match dict_get render_variables name with
  | None => Some EmptyString
  | Some (VStr s) => Some s
  | Some _ => None
  end.

(** Every value is a string. *)
Definition all_strings (render_variables : dict) : Prop :=
  forall key v, (key, v) ∈ render_variables -> exists s, v = VStr s.

(** The render variables are stratified by [rank]: every value that is a
    string is a text with references whose literal opening braces are
    quiet, and the ranks of the names it refers to add up to less than the
    rank of its own name.  In particular no chain of references leads back
    to where it started. *)
Definition stratified (render_variables : dict) (rank : string -> nat) : Prop :=
  forall name s,
    text_of render_variables name = Some s ->
    exists ps, quiet ps = true
               /\ s = render_pieces ps
               /\ (weight rank ps < rank name)%nat.

(** Two variables that refer to each other, and the documented example. *)
Definition cyclic_variables : dict :=
  [("a", VStr "{{b}}"); ("b", VStr "{{a}}")].

Definition greeting_variables : dict :=
  [("variable_a", VStr "Tom"); ("variable_b", VStr "Hello, {{variable_a}}!")].

Definition greeting_rank (name : string) : nat :=
  if String.eqb name "variable_b" then 2%nat else 1%nat.

(** Render variables of a shell script, with braces of the shell. *)
Definition shell_variables : dict :=
  [("home", VStr "${HOME}/x"); ("list", VStr "ls {{home}}/{a,b} | awk '{print $1}'")].

Definition shell_rank (name : string) : nat :=
  if String.eqb name "list" then 2%nat else 1%nat.

(** ** What rendering aims at *)

(** The value of a variable as [render_file] uses it: its string, and
    nothing for a name that is not a variable. *)
Definition value_of (render_variables : dict) (name : string) : string :=
  match dict_get render_variables name with
  | Some (VStr s) => s
  | _ => EmptyString
  end.

(** A text with every reference replaced by the value of its variable. *)
Fixpoint expand (render_variables : dict) (ps : list piece) : string :=
  match ps with
  | [] => EmptyString
  | Lit c :: ps' => String c (expand render_variables ps')
  | Ref name :: ps' => value_of render_variables name +:+ expand render_variables ps'
  end.


(** No render key is left in the values of a dictionary, which are strings. *)
Definition no_key_left (d : dict) : Prop :=
  forall key v, (key, v) ∈ d -> exists s, v = VStr s /\ search_key s = None.

(** ** Paths *)

Definition slash : ascii := "/".

Fixpoint all_slashes (s : string) : bool :=
  match s with
  | EmptyString => true
  | String c s' => Ascii.eqb c slash && all_slashes s'
  end.

(** [s.rstrip("/")] *)
Fixpoint rstrip_slashes (s : string) : string :=
  match s with
  | EmptyString => EmptyString
  | String c s' =>
      let r := rstrip_slashes s' in
      if Ascii.eqb c slash && String.eqb r "" then EmptyString else String c r
  end.

(** [p[:i], p[i:]] for [i = p.rfind("/") + 1] *)
Fixpoint split_last_slash (p : string) : string * string :=
  match p with
  | EmptyString => (EmptyString, EmptyString)
  | String c p' =>
      let '(head, tail) := split_last_slash p' in
      if negb (String.eqb head "") then (String c head, tail)
      else if Ascii.eqb c slash then (String c EmptyString, p')
      else (EmptyString, p)
  end.

(** [os.path.split(p)] of [posixpath] *)
Definition path_split (p : string) : string * string :=
  let '(head, tail) := split_last_slash p in
  if negb (String.eqb head "") && negb (all_slashes head)
  then (rstrip_slashes head, tail)
  else (head, tail).

Definition ends_with_slash (s : string) : bool :=
  match String.get (String.length s - 1) s with
  | Some c => Ascii.eqb c slash
  | None => false
  end.

(** [os.path.join(a, b)] of [posixpath] *)
Definition path_join (a b : string) : string :=
  if String.prefix "/" b then b
  else if String.eqb a "" || ends_with_slash a then a +:+ b
  else a +:+ "/" +:+ b.

(** [s.split(".", 1)]: the part before the first dot, and the part behind it
    if there is a dot. *)
Fixpoint split_first_dot (s : string) : string * option string :=
  match s with
  | EmptyString => (EmptyString, None)
  | String c s' =>
      if Ascii.eqb c "." then (EmptyString, Some s')
      else let '(a, b) := split_first_dot s' in (String c a, b)
  end.

(** The [postfix] argument: [None], a string, or a dictionary that maps
    patterns to postfixes. *)
Inductive postfix_arg : Type :=
| PostfixNone
| PostfixStr (s : string)
| PostfixDict (d : list (string * string)).

(** [bool(postfix)] *)
Definition postfix_given (postfix : postfix_arg) : bool :=
  match postfix with
  | PostfixNone => false
  | PostfixStr s => negb (String.eqb s "")
  | PostfixDict d => match d with [] => false | _ => true end
  end.

(** ** The file system *)

(** What [open(src, "r").read()] finds: text, or bytes that do not decode. *)
Inductive file_content : Type :=
| Text (s : string)
| Undecodable.

Inductive node : Type :=
| File (content : file_content)
| Directory.

Section Environment.

(** [law.util.create_hash] is not among the sources; the resolution of a
    path by [os.path.realpath(os.path.expandvars(os.path.expanduser(path)))]
    depends on the environment and the file system, and [fnmatch.fnmatch] is
    the matching of shell patterns.  [open_w dst fs] is the exception that
    [open(dst, "w")] raises in the file system [fs], if it raises one: for a
    missing directory, a directory in the place of the file, a missing
    permission.  The factory is modelled relative to them. *)
Variable create_hash : string -> string.
Variable full_path : string -> string.
Variable fnmatch : string -> string -> bool.
Variable open_w : string -> gmap string node -> option exn.

(** The loop of [postfix_file] over the items of a dictionary: the postfix
    of the first pattern that matches, else the empty string. *)
Fixpoint first_match (basename : string) (d : list (string * string)) : string :=
  match d with
  | [] => EmptyString
  | (pattern, postfix) :: d' =>
      if fnmatch basename pattern then postfix else first_match basename d'
  end.

Definition postfix_file (path : string) (postfix : postfix_arg) (add_hash : bool) : string :=
  let '(dirname, basename) := path_split path in
  (* get the actual postfix *)
  let postfix_ :=
    match postfix with
    | PostfixNone => EmptyString
    | PostfixStr s => s
    | PostfixDict d => first_match basename d
    end in
  (* optionally add a hash of the full path *)
  let postfix_ :=
    if add_hash then "_" +:+ create_hash (full_path path) +:+ postfix_ else postfix_ in
  (* add the postfix *)
  if negb (String.eqb postfix_ "") then
    let '(stem, extension) := split_first_dot basename in
    path_join dirname
      (match extension with
       | Some ext => (stem +:+ postfix_) +:+ "." +:+ ext
       | None => stem +:+ postfix_
       end)
  else path.

Definition postfix_input_file (path : string) (postfix : postfix_arg) : string :=
  postfix_file path postfix true.

Definition postfix_output_file (path : string) (postfix : postfix_arg) : string :=
  postfix_file path postfix false.

(** The marker of paths to be postfixed within the values of render
    variables. *)
Definition postfix_marker : string := "__law_job_postfix__:".

(** [r"\_\_law\_job\_postfix\_\_:([^\s]+)"] matched at the start of [s]:
    the group, if it matches. *)
Definition match_marker (s : string) : option string :=
  if String.prefix postfix_marker s then
    let '(path, _) :=
      span (fun c => negb (is_space c)) (string_drop (String.length postfix_marker) s) in
    if String.eqb path "" then None else Some path
  else None.

(** [re.sub(r"\_\_law\_job\_postfix\_\_:([^\s]+)", postfix_fn, value)] *)
Fixpoint sub_postfix_from (postfix : postfix_arg) (skip : nat) (value : string) : string :=
  match value with
  | EmptyString => EmptyString
  | String c value' =>
      match skip with
      | S k => sub_postfix_from postfix k value'
      | O =>
          match match_marker value with
          | Some path =>
              postfix_input_file path postfix
              +:+ sub_postfix_from postfix
                    (String.length postfix_marker + String.length path - 1) value'
          | None => String c (sub_postfix_from postfix 0 value')
          end
      end
  end.

Definition sub_postfix (postfix : postfix_arg) (value : string) : string :=
  sub_postfix_from postfix 0 value.

(** The pattern matches nowhere within [pre] when [tail] follows. *)
Fixpoint no_marker_within (pre tail : string) : bool :=
  match pre with
  | EmptyString => true
  | String _ pre' =>
      match match_marker (pre +:+ tail) with
      | None => no_marker_within pre' tail
      | Some _ => false
      end
  end.

(** The loop of [render_file] over the items of [render_variables]. *)
Fixpoint render_items (postfix : postfix_arg) (items : dict) (content : string)
    : res string :=
  match items with
  | [] => Ok content
  | (key, VStr value) :: rest =>
      (* value might contain paths to be postfixed *)
      let value := if postfix_given postfix then sub_postfix postfix value else value in
      render_items postfix rest (render_string content key value)
  | (key, value) :: rest =>
      (* [re.sub] and [str.replace] refuse an object that is not a string *)
      Raise (TypeError (if postfix_given postfix
                        then "expected string or bytes-like object"
                        else "replace() argument 2 must be str, not " +:+ type_name value))
  end.

(** [render_file], as a transition of the file system. *)
Definition render_file (src dst : string) (render_variables : dict)
    (postfix : postfix_arg) (silent : bool) (fs : gmap string node)
    : res unit * gmap string node :=
  match fs !! src with
  | Some (File content) =>
      match content with
      | Undecodable =>
          if silent then (Ok tt, fs)
          else (Raise (UnicodeDecodeError "codec can't decode byte"), fs)
      | Text content =>
          match render_items postfix render_variables content with
          | Raise e => (Raise e, fs)
          | Ok content =>
              (* finally, replace all non-rendered keys with empty strings *)
              let content := strip_keys content in
              match open_w dst fs with
              | Some e => (Raise e, fs)
              | None => (Ok tt, <[dst := File (Text content)]> fs)
              end
          end
      end
  | _ =>
      (Raise (IOError ("source file for rendering does not exist: " +:+ src)), fs)
  end.

End Environment.

(** An environment for examples: a constant hash, paths that are resolved
    already, patterns that match literally or are [*]. *)
Definition example_hash (full_path : string) : string := "dacc4374d3".
Definition example_full_path (path : string) : string := path.
Definition example_fnmatch (name pattern : string) : bool :=
  String.eqb pattern "*" || String.eqb pattern name.

(** [os.path.dirname(p)] of [posixpath] *)
Definition dirname (p : string) : string := fst (path_split p).

(** [open(dst, "w")] in a file system without links, all of whose files and
    directories may be written: the call raises for the empty path, for a
    directory, and for a path whose directory is missing or is a file.  The
    current directory, which is the directory of a path without a slash,
    exists. *)
Definition example_open_w (dst : string) (fs : gmap string node) : option exn :=
  if String.eqb dst "" then
    Some (FileNotFoundError "[Errno 2] No such file or directory: ''")
  else
    match fs !! dst with
    | Some Directory => Some (IsADirectoryError ("[Errno 21] Is a directory: '" +:+ dst +:+ "'"))
    | _ =>
        if String.eqb (dirname dst) "" then None
        else
          match fs !! dirname dst with
          | Some Directory => None
          | Some (File _) =>
              Some (NotADirectoryError ("[Errno 20] Not a directory: '" +:+ dst +:+ "'"))
          | None =>
              Some (FileNotFoundError
                      ("[Errno 2] No such file or directory: '" +:+ dst +:+ "'"))
          end
    end.

(** ** Providing input files, merging the configuration *)

Section Providing.

(** As above; [os.path.realpath] resolves links of the file system, and
    [shutil.copy2] is the copy of a file with its metadata: both belong to
    the standard library and the factory is modelled relative to them.  The
    resolution of a path is that of the file system in which the call is
    made. *)
Variable create_hash : string -> string.
Variable full_path : gmap string node -> string -> string.
Variable fnmatch : string -> string -> bool.
Variable open_w : string -> gmap string node -> option exn.
Variable realpath : gmap string node -> string -> string.
Variable copy2 : string -> string -> gmap string node -> res unit * gmap string node.

(** [os.path.basename(p)] of [posixpath] *)
Definition basename (p : string) : string := snd (split_last_slash p).

(** [os.path.exists(p)] *)
Definition path_exists (fs : gmap string node) (p : string) : bool :=
  bool_decide (is_Some (fs !! p)).

(** [provide_input] of a factory whose directory is [self_dir], as a
    transition of the file system.  [dir] and [render_variables] are the
    empty string and the empty dictionary where the caller passes [None]:
    the code tests them for truth only. *)
Definition provide_input (self_dir : string) (src : string) (postfix : postfix_arg)
    (dir : string) (render_variables : dict) (skip_existing : bool)
    (fs : gmap string node) : res string * gmap string node :=
  (* create the destination path *)
  let postfixed_src := postfix_input_file create_hash (full_path fs) fnmatch src postfix in
  let dst :=
    path_join (realpath fs (if String.eqb dir "" then self_dir else dir))
      (basename postfixed_src) in
  (* create if not existing or if overwriting *)
  if negb skip_existing || negb (path_exists fs dst) then
    let '(r, fs') :=
      match render_variables with
      | _ :: _ =>
          render_file create_hash (full_path fs) fnmatch open_w src dst render_variables
            postfix true fs
      | [] => copy2 src dst fs
      end in
    (bind r (fun _ => Ok dst), fs')
  else (Ok dst, fs).

(** The destination of [provide_input] in a file system. *)
Definition destination (fs : gmap string node) (self_dir src : string)
    (postfix : postfix_arg) (dir : string) : string :=
  path_join (realpath fs (if String.eqb dir "" then self_dir else dir))
    (basename (postfix_input_file create_hash (full_path fs) fnmatch src postfix)).

End Providing.

(** The outcome of [get_config]: the merged values, or the
    [AttributeError] of [getattr] for an attribute the instance lacks. *)
Inductive config_outcome : Type :=
| Config (cfg : gmap string value)
| AttributeError (attr : string).

(** The loop of [get_config] over [config_attrs].  The default
    [getattr(self, attr)] is an argument of [kwargs.get] and evaluated
    before the call, whether [kwargs] holds the attribute or not. *)
Fixpoint get_config_loop (attributes kwargs : gmap string value)
    (config_attrs : list string) (cfg : gmap string value) : config_outcome :=
  match config_attrs with
  | [] => Config cfg
  | attr :: rest =>
      match attributes !! attr with
      | None => AttributeError attr
      | Some dflt =>
          get_config_loop attributes kwargs rest
            (<[attr := default dflt (kwargs !! attr)]> cfg)
      end
  end.

Definition get_config (attributes : gmap string value) (config_attrs : list string)
    (kwargs : gmap string value) : config_outcome :=
  get_config_loop attributes kwargs config_attrs ∅.

End BaseJobFileFactory.

(* ===================================================================== *)
(** * JobArguments *)
(* ===================================================================== *)

Module JobArguments.

(** A task class, as far as [get_args] reads it. *)
Record task_class := {
  module__ : text;   (* task_cls.__module__ *)
  name__ : text      (* task_cls.__name__ *)
}.

(** Elements of [branches] and [dashboard_data]; [str(v)] is applied to
    each before joining. *)
Inductive item : Type :=
| IInt (z : Z)
| IStr (s : text).

Definition str (v : item) : text :=
  match v with
  | IInt z => text_of (str_of_Z z)
  | IStr s => s
  end.

(** What is passed as [task_params]: a string as the wrapper script
    expects it, but also [None] or a list, as the documentation of the
    attribute has it. *)
Inductive params : Type :=
| ParamsNone
| ParamsStr (s : text)
| ParamsList (l : list item).

Record t := {
  task_cls : task_class;
  task_params : params;
  branches : list item;
  auto_retry : bool;
  dashboard_data : list item
}.

(** [__init__]: [dashboard_data or []] *)
Definition init (task_cls : task_class) (task_params : params)
    (branches : list item) (auto_retry : bool)
    (dashboard_data : option (list item)) : t :=
  {| task_cls := task_cls;
     task_params := task_params;
     branches := branches;
     auto_retry := auto_retry;
     dashboard_data := match dashboard_data with
                       | Some (x :: l) => x :: l
                       | _ => []
                       end |}.


(** [encode_string]: [None], the empty string and the empty list are false
    and give way to ["-"]; a list that is not empty has no [encode]. *)
Definition encode_string (s : params) : res string :=
  match s with
  | ParamsList (_ :: _) => Raise (AttributeError "'list' object has no attribute 'encode'")
  | ParamsNone | ParamsList [] => Ok (b64encode "-")
  | ParamsStr s => bind (latin1 (text_or_dash s)) (fun b => Ok (b64encode b))
  end.

Definition encode_list (l : list item) : res string :=
  bind (latin1 (text_or_dash (text_join (text_of " ") (map str l))))
       (fun b => Ok (b64encode b)).



(** All code points are below 256. *)
Definition latin1_ok (s : text) : bool := forallb (fun c => (c <? 256)%N) s.




End JobArguments.

(* ===================================================================== *)
(** * JobInputFile *)
(* ===================================================================== *)

Module JobInputFile.

Record t := {
  path : string;
  copy : bool;
  share : bool;
  forward : bool;
  postfix : bool;
  render_local : bool;
  render_job : bool
}.

(** The [path] argument is a path or a [JobInputFile] instance. *)
Inductive path_arg : Type :=
| PathStr (s : string)
| PathFile (f : t).

(** Keyword arguments; [None] is Python's [None]. *)
Record flags := {
  f_copy : option bool;
  f_share : option bool;
  f_forward : option bool;
  f_postfix : option bool;
  f_render : option bool;
  f_render_local : option bool;
  f_render_job : option bool
}.

Definition no_flags : flags :=
  {| f_copy := None; f_share := None; f_forward := None; f_postfix := None;
     f_render := None; f_render_local := None; f_render_job := None |}.

(** [maybe_set = lambda current, default: default if current is None else current] *)
Definition maybe_set (current : option bool) (default : bool) : option bool :=
  match current with
  | None => Some default
  | Some _ => current
  end.

(** Truth value of a flag that may be [None]. *)
Definition is_set (o : option bool) : bool :=
  match o with Some true => true | _ => false end.

(** [default if x is None else bool(x)] *)
Definition resolve (o : option bool) (default : bool) : bool :=
  match o with None => default | Some b => b end.

(** The diagnostics [logger.warning] receives. *)
Definition warn_postfix (p : string) : string :=
  "input file at " +:+ p +:+ " is configured not to be copied into the submission directory, "
  +:+ "but postfixing is enabled which has no effect".
Definition warn_share (p : string) : string :=
  "input file at " +:+ p +:+ " is configured not to be copied into the submission directory, "
  +:+ "but sharing is enabled which has no effect".
Definition warn_forward (p : string) : string :=
  "input file at " +:+ p +:+ " is configured to be copied into the submission directory, but "
  +:+ "but forwarding is enabled which has no effect".
Definition warn_render (p : string) : string :=
  "input file at " +:+ p +:+ " is configured not to be copied into the submission directory, "
  +:+ "but rendering is enabled which has no effect".
Definition warn_share_render (p : string) : string :=
  "input file at " +:+ p +:+ " is configured to be shared across jobs but local rendering is "
  +:+ "active, potentially resulting in wrong file content".
Definition warn_render_twice (p : string) : string :=
  "input file at " +:+ p +:+ " is configured to be rendered locally and within the job, which "
  +:+ "is likely unnecessary".

Definition when (b : bool) (msg : string) : list string :=
  if b then [msg] else [].

(** [__init__], returning the instance and the warnings logged, in order.
    No statement of the constructor raises. *)
Definition init (p : path_arg) (fl : flags) : t * list string :=
  (* when path is a job file instance itself, use its values instead *)
  let '(p, copy_, share_, forward_, postfix_, render_local_, render_job_) :=
    match p with
    | PathFile f =>
        (path f, Some (copy f), Some (share f), Some (forward f), Some (postfix f),
         Some (render_local f), Some (render_job f))
    | PathStr s =>
        (s, f_copy fl, f_share fl, f_forward fl, f_postfix fl,
         f_render_local fl, f_render_job fl)
    end in
  (* convenience *)
  let '(render_local_, render_job_) :=
    match f_render fl, render_local_, render_job_ with
    | Some r, None, None => (Some r, Some false)
    | _, _, _ => (render_local_, render_job_)
    end in
  (* set some attributes if undefined, based on most common use cases *)
  let '(share_, postfix_, render_local_) :=
    match copy_ with
    | Some false =>
        (maybe_set share_ false, maybe_set postfix_ false, maybe_set render_local_ false)
    | _ => (share_, postfix_, render_local_)
    end in
  let '(copy_, forward_, render_local_, postfix_) :=
    if is_set share_ then
      (maybe_set copy_ true, maybe_set forward_ false, maybe_set render_local_ false,
       maybe_set postfix_ false)
    else (copy_, forward_, render_local_, postfix_) in
  let '(copy_, share_, render_local_, postfix_) :=
    if is_set forward_ then
      (maybe_set copy_ false, maybe_set share_ false, maybe_set render_local_ false,
       maybe_set postfix_ false)
    else (copy_, share_, render_local_, postfix_) in
  let '(copy_, share_, forward_) :=
    if is_set postfix_ then
      (maybe_set copy_ true, maybe_set share_ false, maybe_set forward_ false)
    else (copy_, share_, forward_) in
  let '(copy_, share_, forward_, render_job_) :=
    if is_set render_local_ then
      (maybe_set copy_ true, maybe_set share_ false, maybe_set forward_ false,
       maybe_set render_job_ false)
    else (copy_, share_, forward_, render_job_) in
  let '(forward_, render_local_) :=
    if is_set render_job_ then
      (maybe_set forward_ false, maybe_set render_local_ false)
    else (forward_, render_local_) in
  (* store attributes, apply residual defaults *)
  let self :=
    {| path := p;
       copy := resolve copy_ true;
       share := resolve share_ false;
       forward := resolve forward_ false;
       postfix := resolve postfix_ true;
       render_local := resolve render_local_ true;
       render_job := resolve render_job_ false |} in
  (* some residual attribute checks *)
  (self,
   (when (negb (copy self) && postfix self) (warn_postfix p)
    ++ when (negb (copy self) && share self) (warn_share p)
    ++ when (copy self && forward self) (warn_forward p)
    ++ when (negb (copy self) && render_local self) (warn_render p)
    ++ when (share self && render_local self) (warn_share_render p)
    ++ when (render_local self && render_job self) (warn_render_twice p))%list).

(** [copy=b], and [copy=c, postfix=pf], as the only keyword arguments. *)
Definition only_copy (b : bool) : flags :=
  {| f_copy := Some b; f_share := None; f_forward := None; f_postfix := None;
     f_render := None; f_render_local := None; f_render_job := None |}.

Definition copy_and_postfix (c pf : bool) : flags :=
  {| f_copy := Some c; f_share := None; f_forward := None; f_postfix := Some pf;
     f_render := None; f_render_local := None; f_render_job := None |}.

(** The keyword arguments of the constructor by name, and a call that
    passes exactly one of them. *)
Inductive flag : Type :=
| Copy | Share | Forward | Postfix | Render | RenderLocal | RenderJob.

Definition single (f : flag) (b : bool) : flags :=
  {| f_copy := if f is Copy then Some b else None;
     f_share := if f is Share then Some b else None;
     f_forward := if f is Forward then Some b else None;
     f_postfix := if f is Postfix then Some b else None;
     f_render := if f is Render then Some b else None;
     f_render_local := if f is RenderLocal then Some b else None;
     f_render_job := if f is RenderJob then Some b else None |}.

End JobInputFile.

(* ===================================================================== *)
(** * DeprecatedInputFiles *)
(* ===================================================================== *)

Module DeprecatedInputFiles.

(** The dictionary of input files, from keys to paths. *)
Abbreviation t := (gmap string string).

(** [os.path.basename(path).split(".", 1)[0]] *)
Definition stem (path : string) : string :=
  fst (BaseJobFileFactory.split_first_dot (snd (BaseJobFileFactory.split_last_slash path))).

(** The loop [while key in self: key += "_"].  It has no bound of its own;
    [fuel] bounds the number of tests and [None] says that it was used up. *)
Fixpoint free_key (fuel : nat) (self : t) (key : string) : option string :=
  match fuel with
  | O => None
  | S fuel' =>
      if bool_decide (is_Some (self !! key)) then free_key fuel' self (key +:+ "_")
      else Some key
  end.

Definition _append (fuel : nat) (path : string) (self : t) : option t :=
  match free_key fuel self (stem path) with
  | Some key => Some (<[key := path]> self)
  | None => None
  end.

(** The loop of [extend] over the paths. *)
Fixpoint extend (fuel : nat) (paths : list string) (self : t) : option t :=
  match paths with
  | [] => Some self
  | path :: rest =>
      match _append fuel path self with
      | Some self' => extend fuel rest self'
      | None => None
      end
  end.

(** [key] with [n] underscores appended. *)
Fixpoint underscored (key : string) (n : nat) : string :=
  match n with
  | O => key
  | S n' => underscored (key +:+ "_") n'
  end.

End DeprecatedInputFiles.

(* ===================================================================== *)
(** * Helpers of law.util *)
(* ===================================================================== *)

Module Util.

(** What a caller passes as a batch: one item or a list of items. *)
Inductive items : Type :=
| One (x : string)
| Many (l : list string).

(** Modelled from the spec: [law.util.make_list] is not among the sources.
    It normalizes the caller's items into a flat ordered list: a list is
    kept as it is, a single object becomes a one-element list. *)
Definition make_list (obj : items) : list string :=
  match obj with
  | One x => [x]
  | Many l => l
  end.

(** Modelled from the spec: [law.util.iter_chunks] is not among the
    sources.  For a positive [size] it partitions the list, in original
    order, into contiguous slices [l[i:i + size]] for
    [i = 0, size, 2 * size, ...]; the fuel is the length of the list, which
    bounds the number of slices. *)
Fixpoint iter_chunks_from {A} (fuel : nat) (l : list A) (size : nat) : list (list A) :=
  match fuel with
  | O => []
  | S fuel' =>
      match l with
      | [] => []
      | _ :: _ => take size l :: iter_chunks_from fuel' (drop size l) size
      end
  end.

Definition iter_chunks {A} (l : list A) (size : nat) : list (list A) :=
  iter_chunks_from (length l) l size.

(** Modelled from the spec: [law.util.flatten] is not among the sources.
    It turns a nested structure into one flat list: lists are flattened
    recursively, of a dictionary the values are flattened, any other object
    is an element of the result. *)
Fixpoint flatten (v : value) : list value :=
  match v with
  | VList l => flat_map flatten l
  | VDict d => flat_map (fun kv => flatten (snd kv)) d
  | _ => [v]
  end.

(** Objects that [flatten] leaves alone. *)
Definition scalar (v : value) : Prop :=
  match v with
  | VList _ | VDict _ => False
  | _ => True
  end.

End Util.

(* ===================================================================== *)
(** * BaseJobManager *)
(* ===================================================================== *)

Module BaseJobManager.

Import Util.

Definition PENDING : string := "pending".
Definition RUNNING : string := "running".
Definition FINISHED : string := "finished".
Definition RETRY : string := "retry".
Definition FAILED : string := "failed".

Definition default_status_names : list string :=
  [PENDING; RUNNING; FINISHED; RETRY; FAILED].

(** Keyword arguments of [colored]. *)
Definition style : Type := list (string * string).

(** color styles per status when job count decreases / stagnates / increases *)
Definition default_status_diff_styles : gmap string (style * style * style) :=
  list_to_map
    [ (PENDING, ([], [], [("color", "green")]));
      (RUNNING, ([], [], [("color", "green")]));
      (FINISHED, ([], [], [("color", "green")]));
      (RETRY, ([("color", "green")], [], [("color", "red")]));
      (FAILED, ([], [], [("color", "red"); ("style", "bright")])) ].

(** The instance attributes, and the chunk sizes, which are class
    attributes that backends override. *)
Record t := {
  status_names : list string;
  status_diff_styles : gmap string (style * style * style);
  threads : Z;
  last_counts : list Z;
  chunk_size_submit : Z;
  chunk_size_cancel : Z;
  chunk_size_cleanup : Z;
  chunk_size_query : Z
}.

Definition set_last_counts (self : t) (counts : list Z) : t :=
  {| status_names := status_names self;
     status_diff_styles := status_diff_styles self;
     threads := threads self;
     last_counts := counts;
     chunk_size_submit := chunk_size_submit self;
     chunk_size_cancel := chunk_size_cancel self;
     chunk_size_cleanup := chunk_size_cleanup self;
     chunk_size_query := chunk_size_query self |}.

(** [__init__]; chunking is disabled by default. *)
Definition init (status_names : option (list string))
    (status_diff_styles : option (gmap string (style * style * style)))
    (threads : Z) : t :=
  let names :=
    match status_names with
    | Some (x :: l) => x :: l
    | _ => default_status_names
    end in
  {| status_names := names;
     status_diff_styles :=
       match status_diff_styles with
       | Some s => if decide (s = ∅) then default_status_diff_styles else s
       | None => default_status_diff_styles
       end;
     threads := threads;
     last_counts := replicate (length names) 0;
     chunk_size_submit := 0;
     chunk_size_cancel := 0;
     chunk_size_cleanup := 0;
     chunk_size_query := 0 |}.

(** [job_status_dict]: the dictionary that describes the status of a job. *)
Definition job_status_dict (job_id status code error : value) : value :=
  VDict [("job_id", job_id); ("status", status); ("code", code); ("error", error)].

(** ** Batch operations

    The thread pool decides when the atomic operations run, not what
    [results] holds: the result of every unit of work, in the order of
    dispatch. *)

(** A unit of work handed to an atomic operation: in unchunked dispatch
    one item, in chunked dispatch a whole chunk. *)
Inductive work : Type :=
| Single (x : string)
| Chunk (xs : list string).

(** An atomic operation ([submit], [cancel], [cleanup], [query]) of a
    backend: it returns an object or raises. *)
Definition atomic : Type := work -> res value.

(** Exceptions raised by the call are returned instead of re-raised. *)
Definition get_async_result_silent (result : res value) : value :=
  match result with
  | Ok v => v
  | Raise e => VExc e
  end.

(** [threads = max(threads or self.threads or 1, 1)] *)
Definition pool_size (self : t) (threads : option Z) : Z :=
  let or_ (a b : Z) := if a =? 0 then b else a in
  Z.max (or_ (or_ (default 0 threads) (BaseJobManager.threads self)) 1) 1.

(** The chunk size in effect:
[[
    if self.chunk_size_submit:
        chunk_size = max(chunk_size or self.chunk_size_submit, 0)
    else:
        chunk_size = 0
]]
    where the argument [chunk_size] defaults to [None]. *)
Definition effective_chunk_size (configured : Z) (chunk_size : option Z) : Z :=
  if configured =? 0 then 0
  else
    Z.max (match chunk_size with
           | Some c => if c =? 0 then configured else c
           | None => configured
           end) 0.

(** The units of work, and the result of each: the pool applies the
    operation to every unit and [results] holds them in dispatch order
    once the pool is joined. *)
Definition dispatch (op : atomic) (chunking : bool) (items : list string)
    (chunk_size : Z) : list (work * value) :=
  let units :=
    if chunking then map Chunk (iter_chunks items (Z.to_nat chunk_size))
    else map Single items in
  map (fun u => (u, get_async_result_silent (op u))) units.

Definition work_items (u : work) : list string :=
  match u with
  | Single x => [x]
  | Chunk xs => xs
  end.

(** *** Callbacks

    [callback] is a function of the caller; what the wrappers of
    [cb_factory] do with it is modelled by the list of its invocations, as
    pairs of an index and an object, together with the exception of the
    wrapper itself that ends the invocations early, if there is one. *)
Definition calls : Type := list (nat * value).

(** [v[j]] for a position [j] *)
Definition subscript (v : value) (j : nat) : res value :=
  match v with
  | VList l =>
      match l !! j with
      | Some x => Ok x
      | None => Raise (IndexError "list index out of range")
      end
  | VStr s =>
      match chars s !! j with
      | Some c => Ok (VStr c)
      | None => Raise (IndexError "string index out of range")
      end
  | VDict _ => Raise (KeyError (pretty j))
  | VNone | VBool _ | VInt _ | VExc _ =>
      Raise (TypeError "object is not subscriptable")
  end.

(** [sum(len(chunk) for chunk in chunks[:i])] *)
Definition chunk_offset (chunks : list (list string)) (i : nat) : nat :=
  foldr Nat.add 0%nat (map length (take i chunks)).

(** The loop of the wrapper that [cb_factory(i)] returns for [submit_batch]
    and [query_batch] when chunking:
[[
    for j in range(len(chunks[i])):
        job_id = job_ids if isinstance(job_ids, Exception) else job_ids[j]
        callback(offset + j, job_id)
]] *)
Fixpoint indexed_wrapper_loop (offset : nat) (job_ids : value) (js : list nat)
    : calls * option exn :=
  match js with
  | [] => ([], None)
  | j :: js' =>
      match (if is_exception job_ids then Ok job_ids else subscript job_ids j) with
      | Raise e => ([], Some e)
      | Ok job_id =>
          let '(rest, err) := indexed_wrapper_loop offset job_ids js' in
          ((offset + j, job_id)%nat :: rest, err)
      end
  end.

Definition indexed_wrapper (chunks : list (list string)) (i : nat) (job_ids : value)
    : calls * option exn :=
  match chunks !! i with
  | Some chunk =>
      indexed_wrapper_loop (chunk_offset chunks i) job_ids (seq 0 (length chunk))
  | None => ([], Some (IndexError "list index out of range"))
  end.

(** The wrapper for [cancel_batch] and [cleanup_batch] when chunking passes
    the result of the chunk on for every job id. *)
Definition broadcast_wrapper (chunks : list (list string)) (i : nat) (err : value)
    : calls * option exn :=
  match chunks !! i with
  | Some chunk =>
      (map (fun j => ((chunk_offset chunks i + j)%nat, err)) (seq 0 (length chunk)), None)
  | None => ([], Some (IndexError "list index out of range"))
  end.

(** The invocations per unit of work, in the order of dispatch.  The pool
    calls the wrapper with the result of a unit once its operation has
    returned, and not at all when it has raised; the order in which the
    units finish is not determined. *)
Definition batch_callbacks
    (wrapper : list (list string) -> nat -> value -> calls * option exn)
    (op : atomic) (chunking : bool) (items : list string) (chunk_size : Z)
    : list (calls * option exn) :=
  if chunking then
    let chunks := iter_chunks items (Z.to_nat chunk_size) in
    imap (fun i chunk =>
            match op (Chunk chunk) with
            | Ok v => wrapper chunks i v
            | Raise _ => ([], None)
            end) chunks
  else
    imap (fun i x =>
            match op (Single x) with
            | Ok v => ([(i, v)], None)
            | Raise _ => ([], None)
            end) items.

(** The [callback] argument: an object that is not callable, as the default
    [None], or a function of the caller.  Of such a function the batch
    methods need to know whether a call with an index and an object returns
    or raises, and what. *)
Definition callback_arg : Type := option (nat -> value -> option exn).

(** The invocations of a wrapper made with the callback, in their order:
    the exception of the first invocation that raises, else the exception
    with which the wrapper itself ends, if there is one. *)
Fixpoint run_calls (callback : nat -> value -> option exn) (invocations : calls)
    (err : option exn) : option exn :=
  match invocations with
  | [] => err
  | (i, v) :: rest =>
      match callback i v with
      | Some e => Some e
      | None => run_calls callback rest err
      end
  end.

(** [pool.close()] and [pool.join()].  The result handler of the pool calls
    the wrapper of a unit of work with the result of its operation, once
    that has returned.  An exception that leaves a wrapper ends the result
    handler, and [pool.join()] then waits for it without end.  So the pool
    is joined when no callback is passed, or when no wrapper raises. *)
Definition joins (callback : callback_arg) (wrappers : list (calls * option exn)) : bool :=
  match callback with
  | None => true
  | Some callback =>
      forallb (fun w => match run_calls callback (fst w) (snd w) with
                        | None => true
                        | Some _ => false
                        end) wrappers
  end.

(** *** The four methods

    A call of a batch method returns or raises, [Some], or it does not come
    to an end, [None], when the pool is never joined. *)

(** [outputs.extend(job_ids)] *)
Definition extend (outputs : list value) (job_ids : value) : res (list value) :=
  match iterate job_ids with
  | Some l => Ok (outputs ++ l)%list
  | None => Raise (TypeError "object is not iterable")
  end.

(** The loop storing return values or errors of a chunked submission. *)
Fixpoint store_outputs (outputs : list value) (results : list (work * value))
    : res (list value) :=
  match results with
  | [] => Ok outputs
  | (chunk, job_ids) :: rest =>
      let job_ids :=
        if is_exception job_ids
        then VList (replicate (length (work_items chunk)) job_ids)
        else job_ids in
      bind (extend outputs job_ids) (fun outputs => store_outputs outputs rest)
  end.

Definition submit_batch (self : t) (submit : atomic) (job_files : items)
    (chunk_size : option Z) (callback : callback_arg) : option (res (list value)) :=
  (* is chunking allowed? *)
  let chunk_size := effective_chunk_size (chunk_size_submit self) chunk_size in
  let chunking := 0 <? chunk_size in
  (* build chunks (either job files one by one, or real chunks of job files) *)
  let job_files := make_list job_files in
  (* threaded processing *)
  if joins callback (batch_callbacks indexed_wrapper submit chunking job_files chunk_size)
  then
    let results := dispatch submit chunking job_files chunk_size in
    (* store return values or errors *)
    Some (if chunking then store_outputs [] results
          else Ok (flatten (VList (map snd results))))
  else None.

Definition cancel_batch (self : t) (cancel : atomic) (job_ids : items)
    (chunk_size : option Z) (callback : callback_arg) : option (list value) :=
  let chunk_size := effective_chunk_size (chunk_size_cancel self) chunk_size in
  let chunking := 0 <? chunk_size in
  let job_ids := make_list job_ids in
  (* threaded processing *)
  if joins callback (batch_callbacks broadcast_wrapper cancel chunking job_ids chunk_size)
  then
    let results := dispatch cancel chunking job_ids chunk_size in
    (* store errors *)
    Some (filter (fun v => truthy v = true) (flatten (VList (map snd results))))
  else None.

Definition cleanup_batch (self : t) (cleanup : atomic) (job_ids : items)
    (chunk_size : option Z) (callback : callback_arg) : option (list value) :=
  let chunk_size := effective_chunk_size (chunk_size_cleanup self) chunk_size in
  let chunking := 0 <? chunk_size in
  let job_ids := make_list job_ids in
  (* threaded processing *)
  if joins callback (batch_callbacks broadcast_wrapper cleanup chunking job_ids chunk_size)
  then
    let results := dispatch cleanup chunking job_ids chunk_size in
    (* store errors *)
    Some (filter (fun v => truthy v = true) (flatten (VList (map snd results))))
  else None.

(** [query_data.update(data)] for a sequence of key/value pairs.  The keys
    of the model's dictionaries are strings: a pair with another key lies
    outside the model and is reported as a [TypeError]. *)
Fixpoint update_pairs (query_data : gmap string value) (l : list value)
    : res (gmap string value) :=
  match l with
  | [] => Ok query_data
  | e :: l' =>
      match iterate e with
      | Some [VStr k; v] => update_pairs (<[k := v]> query_data) l'
      | Some [_; _] => Raise (TypeError "key is not a string")
      | Some _ =>
          Raise (ValueError "dictionary update sequence element has a length other than 2")
      | None =>
          Raise (TypeError "cannot convert dictionary update sequence element to a sequence")
      end
  end.

(** The entries of a dictionary inserted one after the other. *)
Definition insert_all (query_data : gmap string value) (d : list (string * value))
    : gmap string value :=
  foldl (fun m kv => <[fst kv := snd kv]> m) query_data d.

(** [query_data.update(data)] *)
Definition update (query_data : gmap string value) (data : value)
    : res (gmap string value) :=
  match data with
  | VDict d => Ok (insert_all query_data d)
  | _ =>
      match iterate data with
      | Some l => update_pairs query_data l
      | None => Raise (TypeError "object is not iterable")
      end
  end.

(** The loop storing status data of a chunked query. *)
Fixpoint store_query_data (query_data : gmap string value)
    (results : list (work * value)) : res (gmap string value) :=
  match results with
  | [] => Ok query_data
  | (chunk, data) :: rest =>
      let data :=
        if is_exception data
        then VDict (map (fun job_id => (job_id, data)) (work_items chunk))
        else data in
      bind (update query_data data) (fun query_data => store_query_data query_data rest)
  end.

Definition query_batch (self : t) (query : atomic) (job_ids : items)
    (chunk_size : option Z) (callback : callback_arg)
    : option (res (gmap string value)) :=
  let chunk_size := effective_chunk_size (chunk_size_query self) chunk_size in
  let chunking := 0 <? chunk_size in
  let job_ids := make_list job_ids in
  (* threaded processing *)
  if joins callback (batch_callbacks indexed_wrapper query chunking job_ids chunk_size)
  then
    let results := dispatch query chunking job_ids chunk_size in
    (* store status data per job id or an exception *)
    Some (if chunking then store_query_data ∅ results
          else
            Ok (foldl (fun query_data jr => <[fst jr := snd (snd jr)]> query_data) ∅
                  (zip job_ids results)))
  else None.

(** *** The parts of the methods

    The invocations of the callback that a batch method causes, per unit of
    work, and what the method returns once the pool is joined. *)

Definition submit_callbacks (self : t) (submit : atomic) (job_files : items)
    (chunk_size : option Z) : list (calls * option exn) :=
  let chunk_size := effective_chunk_size (chunk_size_submit self) chunk_size in
  batch_callbacks indexed_wrapper submit (0 <? chunk_size) (make_list job_files) chunk_size.








(** The callback, if one is passed, returns whenever it is called. *)
Definition returning (callback : callback_arg) : Prop :=
  forall cb i v, callback = Some cb -> cb i v = None.

(** No callback is passed, or it returns whenever it is called and no
    wrapper fails by itself. *)
Definition smooth (callback : callback_arg) (wrappers : list (calls * option exn))
    : Prop :=
  callback = None
  \/ (returning callback /\ Forall (fun w => snd w = None) wrappers).

(** The units of work for a chunk size in effect. *)
Definition units (chunk_size : Z) (items : list string) : list work :=
  if 0 <? chunk_size then map Chunk (iter_chunks items (Z.to_nat chunk_size))
  else map Single items.

(** ** Contracts of atomic operations, for stating what the batches return *)





(** The errors that a list of units of work contributes to the return
    value of [cancel_batch] and [cleanup_batch]. *)
Definition errors_of (op : atomic) (units : list work) : list value :=
  filter (fun v => truthy v = true)
    (flat_map (fun u => flatten (get_async_result_silent (op u))) units).

(** An operation that tells how it was called. *)
Definition tagging : atomic :=
  fun u =>
    match u with
    | Single x => Ok (VStr ("single:" +:+ x))
    | Chunk xs => Ok (VList (map (fun x => VStr ("chunk:" +:+ x)) xs))
    end.

(** The same for a query, which answers for a chunk with a dictionary. *)
Definition tagging_query : atomic :=
  fun u =>
    match u with
    | Single x => Ok (VStr ("single:" +:+ x))
    | Chunk xs => Ok (VDict (map (fun x => (x, VStr ("chunk:" +:+ x))) xs))
    end.

(** The tag of the results for a chunk size in effect. *)
Definition tag_of (chunk_size : Z) (x : string) : value :=
  VStr ((if 0 <? chunk_size then "chunk:" else "single:") +:+ x).


(** A backend with chunk sizes configured. *)
Definition with_chunk_sizes (self : t) (size : Z) : t :=
  {| status_names := status_names self;
     status_diff_styles := status_diff_styles self;
     threads := threads self;
     last_counts := last_counts self;
     chunk_size_submit := size;
     chunk_size_cancel := size;
     chunk_size_cleanup := size;
     chunk_size_query := size |}.

(** Operations for examples: one that succeeds without a result, one that
    raises for every chunk, one that answers a chunked query by the list of
    the status records, one that raises for chunks containing ["b"], one
    that returns a single job id for chunks containing ["a"] and raises for
    the others. *)
Definition succeeding : atomic :=
  fun u =>
    match u with
    | Single _ => Ok VNone
    | Chunk xs => Ok (VList (map (fun _ => VNone) xs))
    end.

Definition failing_chunks : atomic :=
  fun u =>
    match u with
    | Single _ => Ok VNone
    | Chunk _ => Raise (Exception "no connection")
    end.




(** An operation that assigns the job id [job:x] to the job file [x]. *)
Definition job_id_of (x : string) : value := VStr ("job:" +:+ x).

Definition numbering : atomic :=
  fun u =>
    match u with
    | Single x => Ok (job_id_of x)
    | Chunk xs => Ok (VList (map job_id_of xs))
    end.


(** An operation that returns: [f x] for the item [x] alone, and the list of
    these results for a chunk. *)
Definition answers (op : atomic) (f : string -> value) : Prop :=
  (forall x, op (Single x) = Ok (f x))
  /\ (forall xs, op (Chunk xs) = Ok (VList (map f xs))).

(** The styles with which [colored] is called for a status line of the
    instance. *)
Definition colors (self : t) (style : style) : Prop :=
  style = [("style", "bright")]
  ∨ ∃ status decreasing same increasing,
      status ∈ status_names self
      ∧ status_diff_styles self !! status = Some (decreasing, same, increasing)
      ∧ style ∈ [decreasing; same; increasing].

(** The stored counts match the status names. *)
Definition consistent (self : t) : Prop :=
  length (last_counts self) = length (status_names self).

(** ** Status lines *)

(** The [last_counts] argument: [None], a flag, or a list or tuple. *)
Inductive last_counts_arg : Type :=
| LastNone
| LastFlag (b : bool)
| LastList (l : list Z).

(** The [timestamp] argument: a flag or a [strftime] format. *)
Inductive timestamp_arg : Type :=
| TsFlag (b : bool)
| TsFormat (fmt : string).

(** The [align] argument: a flag or a width. *)
Inductive align_arg : Type :=
| AlignFlag (b : bool)
| AlignWidth (w : Z).

(** Methods that read and write the instance: a state and error monad
    over the instance record. *)
Definition M (A : Type) : Type := t -> res A * t.

Definition ret {A} (a : A) : M A := fun self => (Ok a, self).
Definition raise {A} (e : exn) : M A := fun self => (Raise e, self).
Definition sbind {A B} (c : M A) (k : A -> M B) : M B :=
  fun self =>
    match c self with
    | (Ok a, self') => k a self'
    | (Raise e, self') => (Raise e, self')
    end.
Definition get : M t := fun self => (Ok self, self).
Definition lift {A} (r : res A) : M A := fun self => (r, self).
(** [self.last_counts = counts] *)
Definition store_last_counts (counts : list Z) : M unit :=
  fun self => (Ok tt, set_last_counts self counts).

Notation "'do' x <- c ; k" := (sbind c (fun x => k))
  (at level 10, x name, c at level 100, k at level 200, only parsing).

Section StatusLine.

(** [law.util.colored(msg, **style)] and [time.strftime(format)] are not
    among the sources; the status line is formatted relative to them.  Both
    may raise: [strftime] for a format that it refuses, [colored] for a
    style that is not one. *)
Variable colored : string -> style -> res string.
Variable strftime : string -> res string.

Definition nonempty {A} (l : list A) : bool :=
  match l with [] => false | _ => true end.

(** [last_counts] after the first block of the method; the empty list
    stands for every value that is false in a condition. *)
Definition resolve_last_counts (last_counts : last_counts_arg) : M (list Z) :=
  match last_counts with
  | LastNone | LastFlag false => ret []
  | LastFlag true =>
      do self <- get;
      ret (if nonempty (BaseJobManager.last_counts self)
           then BaseJobManager.last_counts self
           else replicate (length (status_names self)) 0)
  | LastList l => ret l
  end.

(** The format that is passed to [strftime], if a timestamp is asked for. *)
Definition time_format (timestamp : timestamp_arg) : option string :=
  match timestamp with
  | TsFlag true => Some "%H:%M:%S"
  | TsFlag false => None
  | TsFormat fmt => if String.eqb fmt "" then None else Some fmt
  end.

Definition resolve_align (align : align_arg) : Z :=
  match align with
  | AlignFlag b => if b then 4 else 0
  | AlignWidth w => w
  end.

(** The body of the loop over [enumerate(zip(self.status_names, counts))].
    [diffs] is [None] as long as the local variable is unbound. *)
Fixpoint status_entries (styles : gmap string (style * style * style))
    (diffs : option (list Z)) (align : Z) (color : bool)
    (i : nat) (entries : list (string * Z)) (line : string) : res string :=
  match entries with
  | [] => Ok line
  | (status, count) :: rest =>
      let count := format_d false align count in
      bind (if color then colored count [("style", "bright")] else Ok count) (fun count =>
      let line := line +:+ ", " +:+ status +:+ ": " +:+ count in
      match diffs with
      | None => Raise (UnboundLocalError "local variable 'diffs' referenced before assignment")
      | Some ds =>
          if nonempty ds then
            match ds !! i with
            | None => Raise (IndexError "tuple index out of range")
            | Some d =>
                let diff := format_d true align d in
                let styled :=
                  if color then
                    match styles !! status with
                    | None => Raise (KeyError status)
                    | Some (decreasing, same, increasing) =>
                        (* 0 if negative, 1 if zero, 2 if positive *)
                        colored diff
                          (if 0 <? d then increasing
                           else if 0 <=? d then same
                           else decreasing)
                    end
                  else Ok diff in
                bind styled (fun diff =>
                  status_entries styles diffs align color (S i) rest
                    (line +:+ " (" +:+ diff +:+ ")"))
            end
          else status_entries styles diffs align color (S i) rest line
      end)
  end.

Definition status_line (counts : list Z) (last_counts : last_counts_arg)
    (sum_counts : option Z) (timestamp : timestamp_arg) (align : align_arg)
    (color : bool) : M string :=
  do self <- get;
  (* check and or set last counts *)
  do last_counts <- resolve_last_counts last_counts;
  do _ <- (if nonempty last_counts
              && negb (length last_counts =? length (status_names self))%nat
           then raise (Exception
                  (pretty (length (status_names self))
                   +:+ " last status counts expected, got "
                   +:+ pretty (length last_counts)))
           else ret tt);
  (* check current counts *)
  do _ <- (if negb (length counts =? length (status_names self))%nat
           then raise (Exception
                  (pretty (length (status_names self))
                   +:+ " status counts expected, got "
                   +:+ pretty (length counts)))
           else ret tt);
  (* calculate differences *)
  let diffs :=
    if nonempty last_counts then Some (zip_with Z.sub counts last_counts)
    else None in
  (* number formatting *)
  let align := resolve_align align in
  (* build the status line *)
  let line := "" in
  do line <- lift (match time_format timestamp with
                   | Some time_format =>
                       bind (strftime time_format) (fun now => Ok (line +:+ now +:+ ": "))
                   | None => Ok line
                   end);
  let sum_counts := default (foldr Z.add 0 counts) sum_counts in
  let line := line +:+ "all: " +:+ format_d false align sum_counts in
  do line <- lift (status_entries (status_diff_styles self) diffs align color 0
                     (zip (status_names self) counts) line);
  (* store current counts for next call *)
  do _ <- store_last_counts counts;
  ret line.

End StatusLine.

End BaseJobManager.

(* ===================================================================== *)
(** * Config *)
(* ===================================================================== *)

Module Config.

(** ** Option references *)

Definition newline : ascii := ascii_of_N 10.

(** [(?P<option>.+)$] matched against all of [t]: the dot matches no
    newline, and the end may be before a newline that ends the text. *)
Definition match_option (t : string) : option string :=
  let '(u, rest) := BaseJobFileFactory.span (fun c => negb (Ascii.eqb c newline)) t in
  if String.eqb u "" then None
  else if String.eqb rest "" || String.eqb rest (String newline "") then Some u
  else None.

(** [_option_ref_regex = re.compile(r"^\&(::(?P<section>[^\:]+))?::(?P<option>.+)$")]
    matched at the start of [value], and the pair that [_parse_option_ref]
    makes of the groups.  The optional group is tried first, with the
    longest run of characters that are no colons; a shorter run would be
    followed by such a character and not by the colons.  Where the rest
    does not match after the group, the match goes on without it. *)
Definition _parse_option_ref (value default_section : string)
    : option (string * string) :=
  match value with
  | String "&" (String ":" (String ":" rest)) =>
      let '(section, rest') :=
        BaseJobFileFactory.span (fun c => negb (Ascii.eqb c ":")) rest in
      let with_section :=
        if String.eqb section "" then None
        else
          match rest' with
          | String ":" (String ":" option_) =>
              match match_option option_ with
              | Some option_ => Some (section, option_)
              | None => None
              end
          | _ => None
          end in
      match with_section with
      | Some ref => Some ref
      | None =>
          match match_option rest with
          | Some option_ => Some (default_section, option_)
          | None => None
          end
      end
  | _ => None
  end.

(** ** Values and their conversion *)

(** [s.lower()] on the code points below 256. *)
Definition lower_char (c : ascii) : ascii :=
  let n := N_of_ascii c in
  if (((65 <=? n) && (n <=? 90)) || ((192 <=? n) && (n <=? 222) && negb (n =? 215)))%N
  then ascii_of_N (n + 32) else c.

Fixpoint lower (s : string) : string :=
  match s with
  | EmptyString => EmptyString
  | String c s' => String (lower_char c) (lower s')
  end.

(** [s.strip()] *)
Fixpoint rstrip (s : string) : string :=
  match s with
  | EmptyString => EmptyString
  | String c s' =>
      let r := rstrip s' in
      if BaseJobFileFactory.is_space c && String.eqb r "" then EmptyString else String c r
  end.

Definition strip (s : string) : string :=
  rstrip (snd (BaseJobFileFactory.span BaseJobFileFactory.is_space s)).

(** The [type] argument: a type or its name, or something else. *)
Inductive type_arg : Type :=
| TStr
| TInt
| TFloat
| TBool
| TUnknown.

(** The keyword arguments of [get_default]; [None] for [expand_vars] and
    [expand_user] says that the argument is not passed, and for [type] that
    it is [None] or false in a condition. *)
Record kwargs : Type := {
  type_ : option type_arg;
  expand_vars : option bool;
  expand_user : option bool;
  split_csv : bool;
  dereference : bool;
  default_when_none : bool;
}.

(** The keyword arguments that [get_default] passes on when it follows a
    reference: all but [split_csv], which is then [False]. *)
Definition without_csv (kw : kwargs) : kwargs :=
  {| type_ := type_ kw;
     expand_vars := expand_vars kw;
     expand_user := expand_user kw;
     split_csv := false;
     dereference := dereference kw;
     default_when_none := default_when_none kw |}.

(** What [get_default] returns: the [default] that was passed, which it
    never looks at, or a value. *)
Inductive outcome : Type :=
| Default
| Value (v : value).

(** [[f(x) for x in l]] where [f] may raise. *)
Fixpoint map_res {A B} (f : A -> res B) (l : list A) : res (list B) :=
  match l with
  | [] => Ok []
  | x :: l' => bind (f x) (fun y => bind (map_res f l') (fun ys => Ok (y :: ys)))
  end.

(** [ConfigParser._convert_to_boolean] *)
Definition _convert_to_boolean (value : string) : res Py.value :=
  let v := lower value in
  if String.eqb v "1" || String.eqb v "yes" || String.eqb v "true" || String.eqb v "on"
  then Ok (VBool true)
  else if String.eqb v "0" || String.eqb v "no" || String.eqb v "false"
          || String.eqb v "off"
  then Ok (VBool false)
  else Raise (ValueError ("Not a boolean: " +:+ value)).

Section Parser.

(** The parser is read through [has_section], [has_option] and [get] of the
    standard library's [ConfigParser], whose [get] interpolates and may
    raise; variables of the environment and of the user are expanded by
    [os.path]; [str_to_int] and [brace_expand] of [law.util] are not among
    the sources, and [float] and [str] are built in.  The methods are
    modelled relative to them. *)
Variable has_section : string -> bool.
Variable has_option : string -> string -> bool.
Variable get : string -> string -> res value.
Variable expandvars : string -> string.
Variable expanduser : string -> string.
Variable str_to_int : value -> res value.
Variable float : value -> res value.
Variable str : value -> string.
Variable brace_expand : value -> res (list string).

(** [_get_type_converter(type, value)(value)] *)
Definition convert (type : type_arg) (value : Py.value) : res Py.value :=
  match type with
  | TStr => Ok (VStr (str value))
  | TInt => str_to_int value
  | TFloat => float value
  | TBool =>
      match value with
      | VStr s => _convert_to_boolean s
      | _ => Ok (VBool (truthy value))
      end
  | TUnknown =>
      Raise (ValueError "unknown 'type' argument, must be 'str', 'int', 'float', or 'bool'")
  end.

(** [cast_type] *)
Definition cast_type (kw : kwargs) (value : Py.value) : res Py.value :=
  match type_ kw with
  | Some type => convert type value
  | None => Ok value
  end.

(** The end of [get_default], for a value that is not a reference. *)
Definition interpret (kw : kwargs) (value : Py.value) : res outcome :=
  (* interpret None and "None" as missing? *)
  let none :=
    match value with
    | VNone => true
    | VStr s => String.eqb (lower s) "none"
    | _ => false
    end in
  if default_when_none kw && none then Ok Default
  else if split_csv kw then
    (* do csv splitting if requested *)
    bind (brace_expand value) (fun vs =>
    bind (map_res (fun v => cast_type kw (VStr (strip v))) vs) (fun l =>
    Ok (Value (VList l))))
  else bind (cast_type kw value) (fun v => Ok (Value v)).

(** The value of an option after expansion, as far as it is a string. *)
Definition expand (kw : kwargs) (value : Py.value) : Py.value :=
  match value with
  | VStr s =>
      let s := if default false (expand_vars kw) then expandvars s else s in
      let s := if default false (expand_user kw) then expanduser s else s in
      VStr s
  | _ => value
  end.

(** [get_default]; the recursion follows references and has no bound that
    the code states, so [fuel] bounds its depth and [None] says that it was
    used up.  [_skip_refs] is the list of the references followed so far. *)
Fixpoint get_default (fuel : nat) (section option_ : string) (kw : kwargs)
    (_skip_refs : option (list (string * string))) : option (res outcome) :=
  match fuel with
  | O => None
  | S fuel' =>
      (* return the default when either the section or the option does not exist *)
      if negb (has_section section) || negb (has_option section option_)
      then Some (Ok Default)
      else
        match get section option_ with
        | Raise e => Some (Raise e)
        | Ok value =>
            let value := expand kw value in
            let ref :=
              match value with
              | VStr s => if dereference kw then _parse_option_ref s section else None
              | _ => None
              end in
            match ref with
            | Some ref =>
                (* to avoid circular references, keep track of already resolved ones *)
                (* return the referenced value *)
                match _skip_refs with
                | None =>
                    get_default fuel' (fst ref) (snd ref) (without_csv kw) (Some [ref])
                | Some refs =>
                    if bool_decide (ref ∈ refs) then Some (Ok Default)
                    else get_default fuel' (fst ref) (snd ref) (without_csv kw)
                           (Some (refs ++ [ref]))
                end
            | None => Some (interpret kw value)
            end
        end
  end.

(** The keyword arguments when none is passed. *)
Definition no_kwargs : kwargs :=
  {| type_ := None; expand_vars := None; expand_user := None; split_csv := false;
     dereference := true; default_when_none := true |}.

(** The option that a reference of the option [ref] leads to, if its value
    is one. *)
Definition target (kw : kwargs) (ref : string * string) : option (string * string) :=
  if has_section (fst ref) && has_option (fst ref) (snd ref) then
    match get (fst ref) (snd ref) with
    | Ok value =>
        match expand kw value with
        | VStr s => if dereference kw then _parse_option_ref s (fst ref) else None
        | _ => None
        end
    | Raise _ => None
    end
  else None.

End Parser.

(** ** The stored configuration and [update] *)

(** The state of a [ConfigParser] of Python 3: the options of the section
    [DEFAULT] and those of the other sections; an option may be without a
    value. *)
Record parser : Type := {
  _defaults : gmap string (option string);
  _sections : gmap string (gmap string (option string));
}.

Definition DEFAULTSECT : string := "DEFAULT".

Definition has_section (self : parser) (section : string) : bool :=
  bool_decide (is_Some (_sections self !! section)).

Definition has_option (self : parser) (section option_ : string) : bool :=
  if String.eqb section "" || String.eqb section DEFAULTSECT
  then bool_decide (is_Some (_defaults self !! option_))
  else
    match _sections self !! section with
    | None => false
    | Some options =>
        bool_decide (is_Some (options !! option_))
        || bool_decide (is_Some (_defaults self !! option_))
    end.

Definition add_section (section : string) (self : parser) : res unit * parser :=
  if String.eqb section DEFAULTSECT
  then (Raise (ValueError ("Invalid section name: " +:+ section)), self)
  else if has_section self section
  then (Raise (Exception ("Section " +:+ section +:+ " already exists")), self)
  else (Ok tt, {| _defaults := _defaults self;
                  _sections := <[section := ∅]> (_sections self) |}).

Section Update.

(** Before a value is stored, the interpolation of the standard library
    checks its percent signs; [str] is built in. *)
Variable valid_value : string -> bool.
Variable str : value -> string.

(** The values of the options pass the check, or are empty and not
    checked. *)
Definition storable (_data : list (string * value)) : Prop :=
  forall option_ value, (option_, value) ∈ _data ->
    str value = "" \/ valid_value (str value) = true.

Definition set (section option_ value : string) (self : parser) : res unit * parser :=
  if negb (String.eqb value "") && negb (valid_value value)
  then (Raise (ValueError ("invalid interpolation syntax in " +:+ value)), self)
  else if String.eqb section "" || String.eqb section DEFAULTSECT
  then (Ok tt, {| _defaults := <[option_ := Some value]> (_defaults self);
                  _sections := _sections self |})
  else
    match _sections self !! section with
    | None => (Raise (Exception ("No section: " +:+ section)), self)
    | Some options =>
        (Ok tt, {| _defaults := _defaults self;
                   _sections := <[section := <[option_ := Some value]> options]>
                                  (_sections self) |})
    end.

(** The inner loop of [update], over the options of a section. *)
Fixpoint update_options (overwrite_options : bool) (section : string)
    (_data : list (string * value)) (self : parser) : res unit * parser :=
  match _data with
  | [] => (Ok tt, self)
  | (option_, value) :: rest =>
      (* set the option when overwriting anyway, or when it does not exist *)
      if overwrite_options || negb (has_option self section option_) then
        match set section option_ (str value) self with
        | (Ok _, self') => update_options overwrite_options section rest self'
        | (Raise e, self') => (Raise e, self')
        end
      else update_options overwrite_options section rest self
  end.

(** The outer loop, over the sections. *)
Fixpoint update_sections (overwrite_sections overwrite_options : bool)
    (data : list (string * list (string * value))) (self : parser)
    : res unit * parser :=
  match data with
  | [] => (Ok tt, self)
  | (section, _data) :: rest =>
      (* add the section when it does not exist, and continue when it does
         but not overwriting *)
      if negb (has_section self section) then
        match add_section section self with
        | (Ok _, self') =>
            match update_options overwrite_options section _data self' with
            | (Ok _, self'') =>
                update_sections overwrite_sections overwrite_options rest self''
            | (Raise e, self'') => (Raise e, self'')
            end
        | (Raise e, self') => (Raise e, self')
        end
      else if negb overwrite_sections then
        update_sections overwrite_sections overwrite_options rest self
      else
        match update_options overwrite_options section _data self with
        | (Ok _, self') =>
            update_sections overwrite_sections overwrite_options rest self'
        | (Raise e, self') => (Raise e, self')
        end
  end.

Definition update (data : list (string * list (string * value))) (overwrite : bool)
    (overwrite_sections overwrite_options : option bool) (self : parser)
    : res unit * parser :=
  let overwrite_sections := default overwrite overwrite_sections in
  let overwrite_options := default overwrite overwrite_options in
  update_sections overwrite_sections overwrite_options data self.

End Update.

(** What a lookup in the stored configuration finds for an option: the
    entry of its section, else that of the defaults. *)
Definition stored (self : parser) (section option_ : string) : option (option string) :=
  if String.eqb section "" || String.eqb section DEFAULTSECT
  then _defaults self !! option_
  else
    match _sections self !! section with
    | None => None
    | Some options =>
        match options !! option_ with
        | Some v => Some v
        | None => _defaults self !! option_
        end
    end.

(** What is stored stays stored. *)
Definition keeps (self self' : parser) : Prop :=
  forall section option_ v,
    stored self section option_ = Some v -> stored self' section option_ = Some v.

(** The name of a section of its own, not of the defaults. *)
Definition proper (section : string) : Prop :=
  section <> "" /\ section <> DEFAULTSECT.

(** A parser for examples, with the options of the documentation and two
    that refer to each other; nothing is expanded or converted. *)
Definition example_options : list ((string * string) * string) :=
  [ (("my_section", "a"), "123");
    (("my_section", "b"), "&::a");
    (("my_section", "c"), "&::d");
    (("my_section", "d"), "&::c");
    (("bar_section", "a"), "&::my_section::a") ].

Definition example_has_section (section : string) : bool :=
  bool_decide (section ∈ map (fun kv => fst (fst kv)) example_options).

Definition example_has_option (section option_ : string) : bool :=
  bool_decide ((section, option_) ∈ map fst example_options).

Definition example_get (section option_ : string) : res value :=
  match list_find (fun kv => fst kv = (section, option_)) example_options with
  | Some (_, (_, v)) => Ok (VStr v)
  | None => Raise (Exception ("No option " +:+ option_ +:+ " in section: " +:+ section))
  end.

Definition example_universe : gset (string * string) :=
  list_to_set (map fst example_options).

Definition example_parser : parser :=
  {| _defaults := ∅;
     _sections := {[ "my_section" := {[ "a" := Some "123" ]} ]} |}.

End Config.

(* ===================================================================== *)
(** * Properties *)
(* ===================================================================== *)

Example b64encode_dash : b64encode "-" = "LQ==".
Proof. reflexivity. Qed.

Example b64encode_Man : b64encode "Man" = "TWFu".
Proof. reflexivity. Qed.

Example b64encode_Ma : b64encode "Ma" = "TWE=".
Proof. reflexivity. Qed.

Example b64encode_hello : b64encode "Hello, Tom!" = "SGVsbG8sIFRvbSE=".
Proof. reflexivity. Qed.

Example str_of_Z_neg : str_of_Z (-20) = "-20".
Proof. reflexivity. Qed.

(** ** JobInputFile *)

Module JobInputFileProps.
Import JobInputFile.

(** C8: [JobInputFile(path, copy=False)] has [share], [postfix] and
    [render_local] false (and logs nothing); with [copy=False] and
    [postfix=True] the constructor completes, stores [copy = False] and
    [postfix = True], and the one thing it does about the conflict is to log
    the warning about postfixing without copying. *)
Theorem copy_false_defaults (p : string) :
  (let '(f, warnings) := init (PathStr p) (only_copy false) in
   share f = false ∧ postfix f = false ∧ render_local f = false
   ∧ copy f = false ∧ warnings = [])
  ∧
  (let '(f, warnings) := init (PathStr p) (copy_and_postfix false true) in
   copy f = false ∧ postfix f = true ∧ warnings = [warn_postfix p]).
Proof. split; cbn; repeat split; reflexivity. Qed.

End JobInputFileProps.

(** ** JobArguments *)

Module JobArgumentsProps.
Import JobArguments.

Lemma or_dash_nonempty (s : string) : s ≠ "" → or_dash s = s.
Proof. destruct s; [congruence | reflexivity]. Qed.

Lemma join_cons (sep x : string) (l : list string) :
  l ≠ [] → join sep (x :: l) = x +:+ sep +:+ join sep l.
Proof. destruct l; [congruence | reflexivity]. Qed.

Lemma b64_char_safe (n : N) : is_b64 (b64_char n) = true.
Proof.
  unfold b64_char. generalize (N.to_nat n). intros m.
  do 64 (destruct m as [|m]; [reflexivity|]). reflexivity.
Qed.

(** An encoded token holds characters of the base64 alphabet only, so no
    space: the joined arguments split at the spaces into the six tokens. *)
Lemma b64encode_safe (s : string) :
  BaseJobFileFactory.string_forall is_b64 (b64encode s) = true.
Proof.
  assert (H : ∀ n s, (String.length s ≤ n)%nat →
              BaseJobFileFactory.string_forall is_b64 (b64encode s) = true).
  { induction n as [|n IH]; intros [|a [|b [|c rest]]] Hlen; cbn in Hlen;
      try reflexivity; try lia.
    all: cbn [b64encode BaseJobFileFactory.string_forall]; rewrite !b64_char_safe.
    all: try reflexivity.
    apply IH. lia. }
  by apply (H (String.length s)).
Qed.

(** *** The base64 encoding and its inverse *)

Lemma in_bytes (a : ascii) : In (N_of_ascii a) (map N.of_nat (seq 0 256)).
Proof.
  apply in_map_iff. exists (N.to_nat (N_of_ascii a)).
  split; [apply N2Nat.id|]. apply in_seq.
  pose proof (N_ascii_bounded a). lia.
Qed.

(** A check on all pairs of bytes, lifted to all pairs of characters. *)
Lemma for_all_bytes (P : N → N → bool) :
  forallb (λ a, forallb (P a) (map N.of_nat (seq 0 256))) (map N.of_nat (seq 0 256)) = true →
  ∀ a b : ascii, P (N_of_ascii a) (N_of_ascii b) = true.
Proof.
  intros H a b.
  eapply forallb_forall in H; [|apply (in_bytes a)].
  eapply forallb_forall in H; [exact H | apply in_bytes].
Qed.

Lemma sextets_invert (x y : ascii) :
  let a := N_of_ascii x in
  let b := N_of_ascii y in
  (b64_value (b64_char (sextet1 a)) = sextet1 a
   ∧ b64_value (b64_char (sextet2 a b)) = sextet2 a b
   ∧ b64_value (b64_char (sextet3 a b)) = sextet3 a b
   ∧ b64_value (b64_char (sextet4 a)) = sextet4 a)
  ∧ (Ascii.eqb (b64_char (sextet3 a b)) "=" = false
     ∧ Ascii.eqb (b64_char (sextet4 a)) "=" = false)
  ∧ (octet1 (sextet1 a) (sextet2 a b) = a
     ∧ N.land (sextet2 a b) 15 = N.shiftr b 4
     ∧ N.shiftr (sextet3 a b) 2 = N.land a 15
     ∧ N.lor (N.shiftl (N.shiftr a 4) 4) (N.land a 15) = a
     ∧ octet3 (sextet3 a b) (sextet4 b) = b).
Proof.
  cbn zeta.
  pose proof (for_all_bytes
    (λ a b, (b64_value (b64_char (sextet1 a)) =? sextet1 a)%N
            && (b64_value (b64_char (sextet2 a b)) =? sextet2 a b)%N
            && (b64_value (b64_char (sextet3 a b)) =? sextet3 a b)%N
            && (b64_value (b64_char (sextet4 a)) =? sextet4 a)%N
            && negb (Ascii.eqb (b64_char (sextet3 a b)) "=")
            && negb (Ascii.eqb (b64_char (sextet4 a)) "=")
            && (octet1 (sextet1 a) (sextet2 a b) =? a)%N
            && (N.land (sextet2 a b) 15 =? N.shiftr b 4)%N
            && (N.shiftr (sextet3 a b) 2 =? N.land a 15)%N
            && (N.lor (N.shiftl (N.shiftr a 4) 4) (N.land a 15) =? a)%N
            && (octet3 (sextet3 a b) (sextet4 b) =? b)%N)
    ltac:(vm_compute; reflexivity) x y) as H.
  cbn beta in H.
  repeat (apply andb_true_iff in H as [H ?]).
  repeat match goal with
         | H : (_ =? _)%N = true |- _ => apply N.eqb_eq in H
         | H : negb _ = true |- _ => apply negb_true_iff in H
         end.
  repeat split; assumption.
Qed.

Lemma octet2_inverts (x y z : ascii) :
  octet2 (sextet2 (N_of_ascii x) (N_of_ascii y)) (sextet3 (N_of_ascii y) (N_of_ascii z))
  = N_of_ascii y.
Proof.
  destruct (sextets_invert x y) as (_ & _ & _ & H2 & _).
  destruct (sextets_invert y z) as (_ & _ & _ & _ & H3 & H4 & _).
  unfold octet2. by rewrite H2, H3, H4.
Qed.

(** Decoding undoes encoding. *)
Lemma b64_round_trip (s : string) : b64decode (b64encode s) = s.
Proof.
  assert (H : ∀ n s, (String.length s ≤ n)%nat → b64decode (b64encode s) = s).
  { clear s. induction n as [|n IH]; intros [|x [|y [|z rest]]] Hlen; cbn in Hlen;
      try reflexivity; try lia.
    - (* one byte *)
      destruct (sextets_invert x "000") as ((V1 & V2 & _) & _ & O1 & _).
      cbn [b64encode b64decode]. change (N_of_ascii "000") with 0%N in *.
      change (Ascii.eqb "=" "=") with true. cbn match.
      by rewrite V1, V2, O1, ascii_N_embedding.
    - (* two bytes *)
      destruct (sextets_invert x y) as ((V1 & V2 & _) & _ & O1 & _).
      destruct (sextets_invert y "000") as ((_ & _ & V3 & _) & (P3 & _) & _).
      pose proof (octet2_inverts x y "000") as O2.
      change (N_of_ascii "000") with 0%N in *.
      cbn [b64encode b64decode]. rewrite P3.
      change (Ascii.eqb "=" "=") with true. cbn match.
      by rewrite V1, V2, V3, O1, O2, !ascii_N_embedding.
    - (* three bytes and more *)
      destruct (sextets_invert x y) as ((V1 & V2 & _) & _ & O1 & _).
      destruct (sextets_invert y z) as ((_ & _ & V3 & _) & (P3 & _) & _ & _ & _ & _ & O3).
      destruct (sextets_invert z z) as ((_ & _ & _ & V4) & (_ & P4) & _).
      pose proof (octet2_inverts x y z) as O2.
      cbn [b64encode b64decode]. rewrite P3, P4.
      rewrite V1, V2, V3, V4, O1, O2, O3, !ascii_N_embedding.
      rewrite IH by lia. reflexivity. }
  by apply (H (String.length s)).
Qed.

Lemma b64encode_length (s : string) :
  ∃ k, String.length (b64encode s) = (4 * k)%nat ∧ (s ≠ "" → (1 ≤ k)%nat).
Proof.
  assert (H : ∀ n s, (String.length s ≤ n)%nat →
              ∃ k, String.length (b64encode s) = (4 * k)%nat ∧ (s ≠ "" → (1 ≤ k)%nat)).
  { clear s. induction n as [|n IH]; intros [|x [|y [|z rest]]] Hlen; cbn in Hlen;
      try lia.
    1,2: exists 0%nat; split; [reflexivity | congruence].
    1,2: exists 1%nat; split; [reflexivity | lia].
    destruct (IH rest ltac:(lia)) as (k & Hk & _).
    exists (S k). cbn [b64encode String.length]. rewrite Hk. split; lia. }
  by apply (H (String.length s)).
Qed.

Lemma or_dash_not_empty (s : string) : or_dash s ≠ "".
Proof. by destruct s. Qed.

(** *** Bytes and code points *)

Lemma text_of_cons (c : ascii) (s : string) :
  text_of (String c s) = N_of_ascii c :: text_of s.
Proof. reflexivity. Qed.

Lemma latin1_text_of (s : string) : latin1 (text_of s) = Ok s.
Proof.
  unfold latin1.
  assert (forallb (λ c, (c <? 256)%N) (text_of s) = true) as ->.
  { induction s as [|c s IH]; [done|]. rewrite text_of_cons. cbn [forallb].
    rewrite IH, andb_true_r. apply N.ltb_lt, N_ascii_bounded. }
  f_equal. induction s as [|c s IH]; [done|].
  rewrite text_of_cons. cbn [map string_of_list_ascii].
  by rewrite ascii_N_embedding, IH.
Qed.

(** The bytes of an encoded string have its code points. *)
Lemma latin1_bytes (s : text) (b : string) : latin1 s = Ok b → text_of b = s.
Proof.
  unfold latin1. destruct (forallb _ s) eqn:Hs; [|done]. intros [= <-].
  induction s as [|c s IH]; [done|]. cbn [forallb] in Hs.
  apply andb_true_iff in Hs as [Hc%N.ltb_lt Hs].
  cbn [map string_of_list_ascii]. rewrite text_of_cons, IH by done.
  by rewrite N_ascii_embedding.
Qed.

Lemma latin1_returns (s : text) :
  latin1_ok s = true → ∃ b, latin1 s = Ok b ∧ text_of b = s.
Proof.
  intros Hs. unfold latin1, latin1_ok in *. rewrite Hs. eexists. split; [done|].
  apply latin1_bytes. unfold latin1. by rewrite Hs.
Qed.


Lemma latin1_ok_app (s t : text) :
  latin1_ok (s ++ t) = latin1_ok s && latin1_ok t.
Proof. apply forallb_app. Qed.

Lemma latin1_ok_join (l : list text) :
  latin1_ok (text_join (text_of " ") l) = forallb latin1_ok l.
Proof.
  destruct l as [|x l]; [done|]. cbn [text_join forallb]. rewrite latin1_ok_app.
  f_equal. induction l as [|y l IH]; [done|].
  cbn [flat_map forallb]. by rewrite !latin1_ok_app, IH.
Qed.

Lemma latin1_ok_or_dash (s : text) : latin1_ok (text_or_dash s) = latin1_ok s.
Proof. by destruct s. Qed.

Lemma latin1_ok_joined (l : list item) :
  latin1_ok (text_or_dash (text_join (text_of " ") (map str l)))
  = forallb (λ v, latin1_ok (str v)) l.
Proof.
  rewrite latin1_ok_or_dash, latin1_ok_join.
  induction l as [|v l IH]; [done|]. cbn [map forallb]. by rewrite IH.
Qed.

Lemma encode_list_returns (l : list item) :
  forallb (λ v, latin1_ok (str v)) l = true →
  ∃ b, encode_list l = Ok (b64encode b)
       ∧ text_of b = text_or_dash (text_join (text_of " ") (map str l)).
Proof.
  intros Hl. rewrite <- latin1_ok_joined in Hl.
  destruct (latin1_returns _ Hl) as (b & Hb & Hbytes).
  exists b. unfold encode_list. by rewrite Hb.
Qed.








End JobArgumentsProps.

(** ** BaseJobManager: status lines *)

Module StatusLineProps.
Import BaseJobManager.

Section WithEnvironment.
Variable colored : string -> style -> res string.
Variable strftime : string -> res string.

(** C3: on a fresh manager, [status_line([2, 0, 0, 0, 0], timestamp=False)]
    raises: [diffs] is bound only when [last_counts] is true, and the loop
    reads it for the first status already.  The stored counts stay as they
    were, so that a following call with [[0, 2, 0, 0, 0]] and
    [last_counts=True] reports differences to the initial zeros. *)
Theorem status_line_without_last_counts_raises (threads : Z) :
  let fresh := init None None threads in
  status_line colored strftime [2; 0; 0; 0; 0] LastNone None (TsFlag false)
    (AlignFlag false) false fresh
  = (Raise (UnboundLocalError "local variable 'diffs' referenced before assignment"),
     fresh)
  ∧ status_line colored strftime [0; 2; 0; 0; 0] (LastFlag true) None (TsFlag false)
      (AlignFlag false) false fresh
    = (Ok ("all: 2, pending: 0 (+0), running: 2 (+2), finished: 0 (+0), "
           +:+ "retry: 0 (+0), failed: 0 (+0)"),
       set_last_counts fresh [0; 2; 0; 0; 0]).
Proof. split; reflexivity. Qed.

(** With [last_counts=True] the two calls give the documented lines, the
    first one relative to the initial counts of zero. *)
Example status_line_with_last_counts (threads : Z) :
  let self := init None None threads in
  let '(first, self') :=
    status_line colored strftime [2; 0; 0; 0; 0] (LastFlag true) None (TsFlag false)
      (AlignFlag false) false self in
  first = Ok ("all: 2, pending: 2 (+2), running: 0 (+0), finished: 0 (+0), "
              +:+ "retry: 0 (+0), failed: 0 (+0)")
  ∧ fst (status_line colored strftime [0; 2; 0; 0; 0] (LastFlag true) None (TsFlag false)
           (AlignFlag false) false self')
    = Ok ("all: 2, pending: 0 (-2), running: 2 (+2), finished: 0 (+0), "
          +:+ "retry: 0 (+0), failed: 0 (+0)").
Proof. split; reflexivity. Qed.

Lemma resolve_last_counts_pure (arg : last_counts_arg) (self : t) :
  snd (resolve_last_counts arg self) = self
  ∧ ∃ l, fst (resolve_last_counts arg self) = Ok l
         ∧ (∀ l', arg = LastList l' → l = l').
Proof.
  destruct arg as [|[]|l']; cbn; split; try reflexivity; eexists; split;
    try reflexivity; congruence.
Qed.

Lemma status_entries_unbound styles align color i entries line :
  entries ≠ [] →
  ∃ e, status_entries colored styles None align color i entries line = Raise e.
Proof.
  destruct entries as [|[status count] rest]; [congruence|]. intros _.
  cbn [status_entries].
  destruct (if color then colored _ _ else Ok _); cbn [bind]; eauto.
Qed.

(** C10: a call whose [counts], or whose explicitly given list of last
    counts, has another length than [status_names] raises and leaves the
    instance as it was; whenever the method raises the instance is
    unchanged, and when it returns a line the only change is that
    [last_counts] holds the reported counts. *)
Theorem status_line_atomic (self : t) (counts : list Z) (last : last_counts_arg)
    (sum_counts : option Z) (timestamp : timestamp_arg) (align : align_arg)
    (color : bool) :
  let call :=
    status_line colored strftime counts last sum_counts timestamp align color self in
  (length counts ≠ length (status_names self)
   ∨ (∃ l, last = LastList l ∧ length l ≠ length (status_names self)) →
   ∃ e, call = (Raise e, self))
  ∧ (∀ e self', call = (Raise e, self') → self' = self)
  ∧ (∀ line self', call = (Ok line, self') → self' = set_last_counts self counts).
Proof.
  cbn zeta. unfold status_line, sbind, get.
  destruct (resolve_last_counts_pure last self) as [Hs (l & Hl & Hexp)].
  destruct (resolve_last_counts last self) as [r self0]. cbn in Hs, Hl. subst r self0.
  unfold raise, ret, lift, store_last_counts.
  destruct (nonempty l && negb (length l =? length (status_names self))%nat) eqn:Hlast.
  { split; [eauto|]. split; intros; congruence. }
  destruct (negb (length counts =? length (status_names self))%nat) eqn:Hcounts.
  { split; [eauto|]. split; intros; congruence. }
  apply negb_false_iff, Nat.eqb_eq in Hcounts.
  (* the timestamp *)
  destruct (match time_format timestamp with
            | Some time_format => bind (strftime time_format) _
            | None => Ok ""
            end) as [stamp|e]; [|split; [eauto|]; split; intros; congruence].
  match goal with |- context [status_entries ?c ?s ?d ?a ?col ?i ?en ?ln] =>
    remember (status_entries c s d a col i en ln) as body eqn:Hbody end.
  split; [|destruct body; split; intros; congruence].
  intros [Hne | (l' & -> & Hne)]; [congruence|].
  specialize (Hexp _ eq_refl). subst l'.
  destruct l as [|z l].
  - (* an empty list is false: [diffs] stays unbound and the loop raises *)
    cbn [nonempty] in Hbody.
    match type of Hbody with _ = status_entries _ ?s None ?a ?col ?i ?en ?ln =>
      destruct (status_entries_unbound s a col i en ln) as [e He] end.
    + cbn in Hne. destruct (status_names self), counts; cbn in *; congruence.
    + rewrite He in Hbody. subst body. eauto.
  - cbn [nonempty andb] in Hlast. apply negb_false_iff, Nat.eqb_eq in Hlast.
    congruence.
Qed.

End WithEnvironment.

(** The baseline survives a call with a wrong number of counts. *)
Lemma status_line_atomic_witness :
  ∃ e, status_line (λ msg _, Ok msg) (λ _, Ok "12:45:18") [0; 2; 0; 0] (LastFlag true) None
         (TsFlag false) (AlignFlag false) false (init None None 1)
       = (Raise e, init None None 1).
Proof.
  apply (status_line_atomic (λ msg _, Ok msg) (λ _, Ok "12:45:18") (init None None 1)
           [0; 2; 0; 0] (LastFlag true) None (TsFlag false) (AlignFlag false) false).
  left. cbn. lia.
Defined.

End StatusLineProps.

(** ** Helpers of law.util *)

Module UtilProps.
Import Util.

Section Chunks.
Context {A : Type}.
Implicit Types (l c : list A) (size fuel : nat).

Lemma iter_chunks_from_concat fuel l size :
  (0 < size)%nat → (length l ≤ fuel)%nat →
  concat (iter_chunks_from fuel l size) = l.
Proof.
  intros Hsize. revert l.
  induction fuel as [|fuel IH]; intros l Hlen.
  - destruct l; [reflexivity | cbn in Hlen; lia].
  - destruct l as [|x l]; [reflexivity|].
    cbn [iter_chunks_from concat].
    rewrite IH; [apply take_drop|].
    rewrite length_drop. cbn [length] in *. lia.
Qed.

(** Chunks are contiguous slices that cover the list in order. *)
Lemma iter_chunks_concat l size :
  (0 < size)%nat → concat (iter_chunks l size) = l.
Proof. intros. apply iter_chunks_from_concat; [done | lia]. Qed.

Lemma iter_chunks_from_sizes fuel l size c :
  (0 < size)%nat → c ∈ iter_chunks_from fuel l size →
  (0 < length c ≤ size)%nat.
Proof.
  intros Hsize. revert l.
  induction fuel as [|fuel IH]; intros l Hin; [by apply elem_of_nil in Hin|].
  destruct l as [|x l]; [by apply elem_of_nil in Hin|].
  cbn [iter_chunks_from] in Hin. apply elem_of_cons in Hin as [-> | Hin].
  - rewrite length_take. cbn [length]. lia.
  - by apply IH in Hin.
Qed.

(** No chunk is empty and none is longer than the chunk size. *)
Lemma iter_chunks_sizes l size c :
  (0 < size)%nat → c ∈ iter_chunks l size → (0 < length c ≤ size)%nat.
Proof. apply iter_chunks_from_sizes. Qed.

(** Where a chunk lies in the list. *)
Lemma chunk_position (chunks : list (list A)) i c :
  chunks !! i = Some c →
  concat chunks = concat (take i chunks) ++ c ++ concat (drop (S i) chunks).
Proof.
  intros Hi. rewrite <- (take_drop_middle chunks i c Hi) at 1.
  by rewrite concat_app.
Qed.

Lemma chunk_items (chunks : list (list A)) i c j x :
  chunks !! i = Some c → c !! j = Some x →
  concat chunks !! (length (concat (take i chunks)) + j)%nat = Some x.
Proof.
  intros Hi Hj. rewrite (chunk_position chunks i c Hi).
  rewrite lookup_app_r by lia.
  replace (length (concat (take i chunks)) + j - length (concat (take i chunks)))%nat
    with j by lia.
  by apply lookup_app_l_Some.
Qed.
End Chunks.

Lemma flatten_scalar (v : value) : scalar v → flatten v = [v].
Proof. destruct v; cbn; tauto. Qed.

Lemma flatten_scalars {B} (f : B → value) (l : list B) :
  (∀ x, scalar (f x)) → flat_map flatten (map f l) = map f l.
Proof.
  intros Hf. induction l as [|x l IH]; [reflexivity|].
  cbn. rewrite IH, (flatten_scalar (f x)) by done. reflexivity.
Qed.

End UtilProps.

(** ** BaseJobManager: batch operations *)

Module BatchProps.
Import Util UtilProps BaseJobManager.

Implicit Types (op : atomic) (u : work) (r : value) (out outputs : list value).
Implicit Types (self : t) (callback : callback_arg).

Lemma dispatch_unchunked op (items : list string) (size : Z) :
  dispatch op false items size
  = map (λ x, (Single x, get_async_result_silent (op (Single x)))) items.
Proof. unfold dispatch. by rewrite map_map. Qed.

Lemma dispatch_chunked op (items : list string) (size : Z) :
  dispatch op true items size
  = map (λ c, (Chunk c, get_async_result_silent (op (Chunk c))))
      (iter_chunks items (Z.to_nat size)).
Proof. unfold dispatch. by rewrite map_map. Qed.

Lemma dispatch_units op (items : list string) (size : Z) :
  dispatch op (0 <? size) items size
  = map (λ u, (u, get_async_result_silent (op u))) (units size items).
Proof. reflexivity. Qed.

(** *** The pool and the callbacks *)





Lemma returning_none : returning None.
Proof. by intros cb i v. Qed.

Lemma run_calls_returning (cb : nat → value → option exn) (cs : calls)
    (err : option exn) :
  (∀ i v, cb i v = None) → run_calls cb cs err = err.
Proof.
  intros Hcb. induction cs as [|[i v] cs IH]; [done|]. cbn. by rewrite Hcb.
Qed.

(** The pool is joined when no callback is passed, and when the callback
    returns and no wrapper fails. *)
Lemma joins_smooth callback (wrappers : list (calls * option exn)) :
  smooth callback wrappers → joins callback wrappers = true.
Proof.
  intros [-> | [Hret Hall]]; [done|]. destruct callback as [cb|]; [|done].
  cbn. apply forallb_forall. intros w Hw%list_elem_of_In.
  rewrite Forall_forall in Hall.
  rewrite run_calls_returning, (Hall w Hw); [done|].
  intros i v. by apply (Hret cb).
Qed.

(** It is not joined when a wrapper fails. *)
Lemma joins_failing (cb : nat → value → option exn) (wrappers : list (calls * option exn))
    (e : exn) :
  ([], Some e) ∈ wrappers → joins (Some cb) wrappers = false.
Proof.
  intros Hin. cbn. apply not_true_is_false. intros Hall.
  rewrite forallb_forall in Hall.
  by specialize (Hall _ (proj1 (list_elem_of_In _ _) Hin)).
Qed.

Lemma unchunked_wrappers
    (wrapper : list (list string) → nat → value → calls * option exn)
    op (items : list string) (size : Z) :
  Forall (λ w, snd w = None) (batch_callbacks wrapper op false items size).
Proof.
  apply Forall_forall. intros w Hw.
  apply elem_of_lookup_imap in Hw as (i & x & -> & _). by destruct (op _).
Qed.

Lemma broadcast_wrappers op (chunking : bool) (items : list string) (size : Z) :
  Forall (λ w, snd w = None) (batch_callbacks broadcast_wrapper op chunking items size).
Proof.
  destruct chunking; [|apply unchunked_wrappers].
  apply Forall_forall. intros w Hw.
  apply elem_of_lookup_imap in Hw as (i & c & -> & Hi).
  destruct (op _); [|done]. unfold broadcast_wrapper. by rewrite Hi.
Qed.

Lemma sum_lengths {A} (ls : list (list A)) :
  foldr Nat.add 0%nat (map length ls) = length (concat ls).
Proof.
  induction ls as [|c ls IH]; [done|]. cbn. by rewrite IH, length_app.
Qed.

Lemma chunk_offset_middle (pre rest : list (list string)) :
  chunk_offset (pre ++ rest) (length pre) = length (concat pre).
Proof. unfold chunk_offset. by rewrite take_app_length, sum_lengths. Qed.

Lemma indexed_loop_from (offset : nat) (pre rest : list value) :
  indexed_wrapper_loop offset (VList (pre ++ rest)) (seq (length pre) (length rest))
  = (imap (λ j v, ((offset + (length pre + j))%nat, v)) rest, None).
Proof.
  revert pre. induction rest as [|v rest IH]; intros pre; [reflexivity|].
  cbn [length seq indexed_wrapper_loop is_exception subscript].
  rewrite list_lookup_middle by done.
  replace (S (length pre)) with (length (pre ++ [v])) by (rewrite length_app; cbn; lia).
  rewrite (cons_middle v pre rest), (assoc_L (++)), IH.
  cbn [imap]. rewrite Nat.add_0_r. do 2 f_equal.
  apply imap_ext. intros j w _. cbn. rewrite length_app. cbn. do 2 f_equal. lia.
Qed.

Lemma indexed_loop_list (offset : nat) (vs : list value) :
  indexed_wrapper_loop offset (VList vs) (seq 0 (length vs))
  = (imap (λ j v, ((offset + j)%nat, v)) vs, None).
Proof. apply (indexed_loop_from offset [] vs). Qed.



(** A wrapper that looks up by position fails on an object that has no
    positions: a dictionary keyed by job id, [None], a number. *)
Lemma indexed_wrapper_fails (chunks : list (list string)) (i : nat)
    (c : list string) (v : value) :
  chunks !! i = Some c → c ≠ [] → is_exception v = false →
  (∀ l, v ≠ VList l) → (∀ s, v ≠ VStr s) →
  ∃ e, indexed_wrapper chunks i v = ([], Some e).
Proof.
  intros Hi Hc Hexc Hlist Hstr. unfold indexed_wrapper. rewrite Hi.
  destruct c as [|x c]; [done|]. cbn [length seq indexed_wrapper_loop].
  rewrite Hexc. destruct v; try (by eexists); [by destruct (Hstr s) | by destruct (Hlist l)].
Qed.

Lemma chunked_wrapper_fails op (items : list string) (size : Z)
    (cb : nat → value → option exn) (c : list string) (v : value) :
  c ∈ iter_chunks items (Z.to_nat size) → c ≠ [] → op (Chunk c) = Ok v →
  is_exception v = false → (∀ l, v ≠ VList l) → (∀ s, v ≠ VStr s) →
  joins (Some cb) (batch_callbacks indexed_wrapper op true items size) = false.
Proof.
  intros Hc Hne Hop Hexc Hlist Hstr.
  apply list_elem_of_lookup in Hc as [i Hi].
  destruct (indexed_wrapper_fails _ i c v Hi Hne Hexc Hlist Hstr) as [e He].
  apply (joins_failing cb _ e). unfold batch_callbacks.
  apply elem_of_lookup_imap. exists i, c. by rewrite Hop, He.
Qed.

(** *** Lists and dictionaries of results *)

Lemma flatten_list (l : list value) : flatten (VList l) = flat_map flatten l.
Proof. reflexivity. Qed.

Lemma flat_map_map {A B C} (g : B → list C) (h : A → B) (l : list A) :
  flat_map g (map h l) = flat_map (λ x, g (h x)) l.
Proof. induction l as [|x l IH]; cbn; [done | by rewrite IH]. Qed.

Lemma flat_map_concat {A B} (h : A → B) (ls : list (list A)) :
  flat_map (λ c, map h c) ls = map h (concat ls).
Proof.
  induction ls as [|c ls IH]; cbn; [done|]. by rewrite IH, map_app.
Qed.

Lemma store_outputs_per_item (f : string → value) (chunks : list (list string)) out :
  store_outputs out (map (λ c, (Chunk c, VList (map f c))) chunks)
  = Ok (out ++ map f (concat chunks)).
Proof.
  revert out. induction chunks as [|c chunks IH]; intros out; cbn.
  - by rewrite app_nil_r.
  - rewrite IH, map_app. by rewrite (assoc_L (++)).
Qed.


Lemma lookup_insert_all_fn (f : string → value) (xs : list string)
    (m : gmap string value) k :
  insert_all m (map (λ x, (x, f x)) xs) !! k
  = if decide (k ∈ xs) then Some (f k) else m !! k.
Proof.
  revert m. induction xs as [|x xs IH]; intros m; cbn.
  - case_decide as Hin; [by apply elem_of_nil in Hin | done].
  - rewrite IH. destruct (decide (k ∈ xs)) as [Hin|Hin].
    + rewrite decide_True; [done | by right].
    + destruct (decide (x = k)) as [->|Hne].
      * rewrite lookup_insert_eq. rewrite decide_True; [done | by left].
      * rewrite lookup_insert_ne by done.
        rewrite decide_False; [done|]. intros [?|?]%elem_of_cons; congruence.
Qed.

Lemma store_query_data_per_item (f : string → value) (chunks : list (list string))
    (m : gmap string value) :
  store_query_data m
    (map (λ c, (Chunk c, VDict (map (λ x, (x, f x)) c))) chunks)
  = Ok (insert_all m (map (λ x, (x, f x)) (concat chunks))).
Proof.
  revert m. induction chunks as [|c chunks IH]; intros m; cbn; [done|].
  rewrite IH, map_app. unfold insert_all. by rewrite foldl_app.
Qed.

Lemma unchunked_query_data (g : string → work * value) (l : list string)
    (m : gmap string value) :
  foldl (λ (query_data : gmap string value) jr, <[fst jr := snd (snd jr)]> query_data) m
    (zip l (map g l))
  = insert_all m (map (λ x, (x, snd (g x))) l).
Proof. revert m. induction l as [|x l IH]; intros m; cbn; [done | by rewrite IH]. Qed.

(** *** The chunk size in effect *)

Lemma effective_chunk_size_nonneg (configured : Z) (arg : option Z) :
  0 ≤ effective_chunk_size configured arg.
Proof. unfold effective_chunk_size. repeat case_match; lia. Qed.

Lemma errors_of_results op (l : list string) (size : Z) :
  filter (λ v, truthy v = true)
    (flatten (VList (map snd (dispatch op (0 <? size) l size))))
  = errors_of op (units size l).
Proof.
  rewrite dispatch_units, map_map. cbn [snd]. unfold errors_of.
  by rewrite <- flat_map_map.
Qed.

Lemma filter_all {A} (P : A → Prop) `{!∀ x, Decision (P x)} (xs : list A) :
  (∀ x, x ∈ xs → P x) → filter P xs = xs.
Proof.
  induction xs as [|x xs IH]; intros Hxs; [done|].
  rewrite filter_cons_True by (apply Hxs; by left).
  f_equal. apply IH. intros y Hy. apply Hxs. by right.
Qed.

Lemma tag_of_truthy (size : Z) (x : string) : truthy (tag_of size x) = true.
Proof. unfold tag_of. by destruct (0 <? size). Qed.

Lemma tag_of_scalar (size : Z) (x : string) : scalar (tag_of size x).
Proof. done. Qed.

Lemma tagging_results (l : list string) (size : Z) :
  flatten (VList (map snd (dispatch tagging (0 <? size) l size)))
  = map (tag_of size) l.
Proof.
  unfold tag_of. destruct (0 <? size) eqn:Hpos.
  - apply Z.ltb_lt in Hpos.
    rewrite dispatch_chunked, map_map, flatten_list, flat_map_map. cbn [snd].
    erewrite flat_map_ext; last first.
    { intros c. cbn [tagging get_async_result_silent]. rewrite flatten_list.
      apply (flatten_scalars (λ x, VStr ("chunk:" +:+ x))). done. }
    by rewrite flat_map_concat, iter_chunks_concat by lia.
  - rewrite dispatch_unchunked, map_map, flatten_list. cbn [snd].
    apply (flatten_scalars (λ x, VStr ("single:" +:+ x))). done.
Qed.

Lemma tagging_errors (l : list string) (size : Z) :
  filter (λ v, truthy v = true)
    (flatten (VList (map snd (dispatch tagging (0 <? size) l size))))
  = map (tag_of size) l.
Proof.
  rewrite tagging_results. apply filter_all.
  intros v (x & -> & _)%list_elem_of_fmap. apply tag_of_truthy.
Qed.

(** C4, as the code has it.  The size: without a configured default (zero)
    chunking is disabled whatever the argument; otherwise the size is the
    argument if one is given and not zero, else the configured default, and
    a negative size counts as zero.  The units of work: a size of zero gives
    every item on its own, a positive size contiguous, non-empty chunks of
    at most that many items which cover the list in order.  The operations:
    each of the four batch methods applies its operation to the units of
    work for the size that it gets from its own attribute,
    [chunk_size_submit], [chunk_size_cancel], [chunk_size_cleanup] or
    [chunk_size_query], and for an operation that tells how it was called
    the results show it, job by job. *)
Theorem chunk_size_in_effect self (arg : option Z) (l : list string) :
  let submit_size := effective_chunk_size (chunk_size_submit self) arg in
  let cancel_size := effective_chunk_size (chunk_size_cancel self) arg in
  let cleanup_size := effective_chunk_size (chunk_size_cleanup self) arg in
  let query_size := effective_chunk_size (chunk_size_query self) arg in
  let results op (size : Z) :=
    map (λ u, (u, get_async_result_silent (op u))) (units size l) in
  (∀ configured,
     let size := effective_chunk_size configured arg in
     (configured = 0 → size = 0)
     ∧ (configured ≠ 0 → ∀ c, arg = Some c → c ≠ 0 → size = Z.max c 0)
     ∧ (configured ≠ 0 → arg = None ∨ arg = Some 0 → size = Z.max configured 0))
  ∧ (∀ size,
       (size ≤ 0 → units size l = map Single l)
       ∧ (0 < size →
          ∃ chunks, units size l = map Chunk chunks ∧ concat chunks = l
                    ∧ ∀ c, c ∈ chunks → (0 < length c)%nat ∧ Z.of_nat (length c) ≤ size))
  ∧ (∀ op,
       submit_batch self op (Many l) arg None
       = Some (if 0 <? submit_size then store_outputs [] (results op submit_size)
               else Ok (flatten (VList (map snd (results op submit_size)))))
       ∧ cancel_batch self op (Many l) arg None = Some (errors_of op (units cancel_size l))
       ∧ cleanup_batch self op (Many l) arg None
         = Some (errors_of op (units cleanup_size l))
       ∧ query_batch self op (Many l) arg None
         = Some (if 0 <? query_size then store_query_data ∅ (results op query_size)
                 else Ok (foldl (λ (query_data : gmap string value) jr,
                                   <[fst jr := snd (snd jr)]> query_data) ∅
                            (zip l (results op query_size)))))
  ∧ submit_batch self tagging (Many l) arg None = Some (Ok (map (tag_of submit_size) l))
  ∧ cancel_batch self tagging (Many l) arg None = Some (map (tag_of cancel_size) l)
  ∧ cleanup_batch self tagging (Many l) arg None = Some (map (tag_of cleanup_size) l)
  ∧ ∃ m, query_batch self tagging_query (Many l) arg None = Some (Ok m)
         ∧ ∀ x, m !! x = if decide (x ∈ l) then Some (tag_of query_size x) else None.
Proof.
  cbn zeta. split; [|split; [|split; [|split; [|split; [|split]]]]].
  - intros configured. unfold effective_chunk_size. repeat split.
    + intros ->. reflexivity.
    + intros Hc c -> Hc0.
      destruct (Z.eqb_spec configured 0); [done|].
      by destruct (Z.eqb_spec c 0).
    + intros Hc Harg. destruct (Z.eqb_spec configured 0); [done|].
      by destruct Harg as [-> | ->].
  - intros size. unfold units. split.
    + intros Hsize. by destruct (Z.ltb_spec 0 size); [lia|].
    + intros Hpos. apply Z.ltb_lt in Hpos as Hpos'. rewrite Hpos'.
      eexists. split; [reflexivity|]. split.
      * apply iter_chunks_concat. lia.
      * intros c Hin. apply iter_chunks_sizes in Hin; lia.
  - intros op. unfold submit_batch, cancel_batch, cleanup_batch, query_batch.
    cbn [joins make_list]. rewrite !errors_of_results. by rewrite !dispatch_units.
  - unfold submit_batch. cbn [joins make_list].
    set (size := effective_chunk_size (chunk_size_submit self) arg).
    destruct (0 <? size) eqn:Hpos; [|by rewrite <- Hpos, tagging_results].
    rewrite dispatch_chunked. cbn [tagging get_async_result_silent].
    rewrite (store_outputs_per_item (λ x, VStr ("chunk:" +:+ x))).
    rewrite iter_chunks_concat by (apply Z.ltb_lt in Hpos; lia).
    unfold tag_of. by rewrite Hpos.
  - unfold cancel_batch. cbn [joins make_list]. by rewrite tagging_errors.
  - unfold cleanup_batch. cbn [joins make_list]. by rewrite tagging_errors.
  - unfold query_batch. cbn [joins make_list].
    set (size := effective_chunk_size (chunk_size_query self) arg).
    unfold tag_of. destruct (0 <? size) eqn:Hpos.
    + rewrite dispatch_chunked. cbn [tagging_query get_async_result_silent].
      rewrite (store_query_data_per_item (λ x, VStr ("chunk:" +:+ x))).
      rewrite iter_chunks_concat by (apply Z.ltb_lt in Hpos; lia).
      eexists. split; [reflexivity|]. intros x.
      by rewrite (lookup_insert_all_fn (λ x, VStr ("chunk:" +:+ x))).
    + rewrite dispatch_unchunked, unchunked_query_data. cbn [snd].
      eexists. split; [reflexivity|]. intros x.
      by rewrite (lookup_insert_all_fn (λ x, VStr ("single:" +:+ x))).
Qed.

(** C4 as stated fails: a manager without a configured default dispatches
    item by item although a chunk size of 2 is passed, and an explicit zero
    does not switch chunking off where a default is configured. *)
Lemma explicit_chunk_size_not_decisive :
  let self := init None None 1 in
  chunk_size_submit self = 0
  ∧ effective_chunk_size (chunk_size_submit self) (Some 2) ≠ 2
  ∧ submit_batch self tagging (Many ["a"; "b"; "c"]) (Some 2) None
    = Some (Ok [VStr "single:a"; VStr "single:b"; VStr "single:c"])
  ∧ effective_chunk_size 2 (Some 0) = 2
  ∧ submit_batch (with_chunk_sizes self 2) tagging (Many ["a"; "b"; "c"]) (Some 0) None
    = Some (Ok [VStr "chunk:a"; VStr "chunk:b"; VStr "chunk:c"]).
Proof. cbn. repeat split; done. Qed.

(** *** Results per item *)

Section PerItem.
Variable self : t.
Variable f : string → value.
Variable l : list string.
Variable chunk_size : option Z.




End PerItem.




(** *** A chunk for which the operation raises *)






Section RaisingChunk.
Variable self : t.
Variable op : atomic.
Variable l : list string.
Variable arg : option Z.
Variables (i : nat) (c : list string) (e : exn).



End RaisingChunk.




End BatchProps.

(** ** Strings *)

Module TextProps.
Import BaseJobFileFactory.

Lemma app_cons (c : ascii) (s t : string) : String c s +:+ t = String c (s +:+ t).
Proof. reflexivity. Qed.

Lemma app_nil_l (t : string) : "" +:+ t = t.
Proof. reflexivity. Qed.

Lemma app_assoc (s t u : string) : (s +:+ t) +:+ u = s +:+ t +:+ u.
Proof.
  induction s as [|c s IH]; [done|]. rewrite !app_cons. by f_equal.
Qed.

Lemma app_nil_r (s : string) : s +:+ "" = s.
Proof. induction s as [|c s IH]; [done|]. rewrite app_cons. by f_equal. Qed.

Lemma length_app (s t : string) :
  String.length (s +:+ t) = (String.length s + String.length t)%nat.
Proof.
  induction s as [|c s IH]; [done|]. rewrite app_cons. cbn [String.length].
  rewrite IH. reflexivity.
Qed.

Lemma prefix_app (s t : string) : String.prefix s (s +:+ t) = true.
Proof.
  induction s as [|c s IH]; [by destruct t|].
  rewrite app_cons. cbn [String.prefix].
  destruct (ascii_dec c c); [done | congruence].
Qed.

Lemma string_drop_app (s t : string) : string_drop (String.length s) (s +:+ t) = t.
Proof.
  induction s as [|c s IH]; [by destruct t|]. by rewrite app_cons.
Qed.

Lemma span_app (p : ascii → bool) (w rest : string) :
  string_forall p w = true → stops p rest = true → span p (w +:+ rest) = (w, rest).
Proof.
  intros Hw Hrest. induction w as [|c w IH].
  - rewrite app_nil_l. destruct rest as [|c rest]; [done|]. cbn in *.
    by destruct (p c).
  - cbn [string_forall] in Hw. apply andb_true_iff in Hw as [Hc Hw].
    rewrite app_cons. cbn [span]. by rewrite Hc, IH.
Qed.

End TextProps.

(** ** BaseJobFileFactory: rendering files *)

Module RenderFileProps.
Import BaseJobFileFactory TextProps.

Section WithEnvironment.
Variable create_hash : string → string.
Variable full_path : string → string.
Variable fnmatch : string → string → bool.
Variable open_w : string → gmap string node → option exn.

Local Abbreviation render_file := (render_file create_hash full_path fnmatch open_w).
Local Abbreviation render_items := (render_items create_hash full_path fnmatch).
Local Abbreviation sub_postfix := (sub_postfix create_hash full_path fnmatch).
Local Abbreviation sub_postfix_from := (sub_postfix_from create_hash full_path fnmatch).
Local Abbreviation postfix_input_file := (postfix_input_file create_hash full_path fnmatch).

(** C6, as the code has it: a source that is not a file makes [render_file]
    raise [IOError] whether [silent] is set or not; a source that cannot be
    decoded makes it return without a change of the file system, so without
    creating the destination, when [silent] is true, and raise
    [UnicodeDecodeError] when [silent] is false.  The file system is never
    changed in these cases. *)
Theorem render_file_unreadable (src dst : string) (render_variables : dict)
    (postfix : postfix_arg) (fs : gmap string node) :
  ((∀ content, fs !! src ≠ Some (File content)) →
   ∀ silent, ∃ msg,
     render_file src dst render_variables postfix silent fs = (Raise (IOError msg), fs))
  ∧ (fs !! src = Some (File Undecodable) →
     render_file src dst render_variables postfix true fs = (Ok tt, fs)
     ∧ ∃ msg, render_file src dst render_variables postfix false fs
              = (Raise (UnicodeDecodeError msg), fs)).
Proof.
  unfold BaseJobFileFactory.render_file. split.
  - intros Hmissing silent. destruct (fs !! src) as [[content|]|] eqn:Hsrc; eauto.
    by destruct (Hmissing content).
  - intros ->. eauto.
Qed.

Lemma sub_postfix_from_skip (postfix : postfix_arg) (x rest : string) :
  sub_postfix_from postfix (String.length x) (x +:+ rest) = sub_postfix_from postfix 0 rest.
Proof.
  induction x as [|c x IH]; [by destruct rest|]. by rewrite app_cons.
Qed.

Lemma sub_postfix_before (postfix : postfix_arg) (pre tail : string) :
  no_marker_within pre tail = true →
  sub_postfix postfix (pre +:+ tail) = pre +:+ sub_postfix postfix tail.
Proof.
  unfold BaseJobFileFactory.sub_postfix.
  induction pre as [|c pre IH]; intros Hpre; [done|].
  cbn [no_marker_within] in Hpre.
  destruct (match_marker (String c pre +:+ tail)) eqn:Hm; [done|].
  rewrite !app_cons in *. cbn [BaseJobFileFactory.sub_postfix_from].
  by rewrite Hm, IH.
Qed.

Lemma match_marker_here (path rest : string) :
  path ≠ "" → string_forall (λ c, negb (is_space c)) path = true →
  stops (λ c, negb (is_space c)) rest = true →
  match_marker (postfix_marker +:+ path +:+ rest) = Some path.
Proof.
  intros Hpath Hns Hrest. unfold match_marker.
  rewrite prefix_app, string_drop_app, span_app by done.
  by destruct path.
Qed.

Lemma sub_postfix_marker (postfix : postfix_arg) (path rest : string) :
  path ≠ "" → string_forall (λ c, negb (is_space c)) path = true →
  stops (λ c, negb (is_space c)) rest = true →
  sub_postfix postfix (postfix_marker +:+ path +:+ rest)
  = postfix_input_file path postfix +:+ sub_postfix postfix rest.
Proof.
  intros Hpath Hns Hrest. unfold BaseJobFileFactory.sub_postfix.
  pose proof (match_marker_here path rest Hpath Hns Hrest) as Hm.
  remember (postfix_marker +:+ path +:+ rest) as v eqn:Hv.
  destruct v as [|c v]; [discriminate|].
  cbn [BaseJobFileFactory.sub_postfix_from]. rewrite Hm. f_equal.
  assert (Heq : String c v = String "_" ("_law_job_postfix__:" +:+ path +:+ rest))
    by (rewrite Hv; reflexivity).
  injection Heq as _ ->.
  rewrite <- app_assoc.
  replace (String.length postfix_marker + String.length path - 1)%nat
    with (String.length ("_law_job_postfix__:" +:+ path)).
  - apply sub_postfix_from_skip.
  - rewrite length_app. cbn. lia.
Qed.

Lemma render_items_app (postfix : postfix_arg) (before after : dict) (content : string) :
  render_items postfix (before ++ after) content
  = bind (render_items postfix before content) (render_items postfix after).
Proof.
  revert content. induction before as [|[key v] before IH]; intros content; [done|].
  cbn [app BaseJobFileFactory.render_items]. by destruct v.
Qed.

(** C7, with the marker that the code uses, [__law_job_postfix__:<path>]:
    when a postfix is given, a value in which the marker and a path (the
    characters up to the next whitespace) follow a text without a match has
    the marker and the path replaced by [postfix_input_file(path, postfix)],
    and it is the value after this replacement that [render_string]
    substitutes into the content of the file, as the render variables
    before it have left it; the content goes on to the render variables
    after it and to the destination, if that can be opened. *)
Theorem marker_postfixed_before_rendering (src dst key pre path rest content : string)
    (before after : dict) (postfix : postfix_arg) (silent : bool)
    (fs : gmap string node) :
  postfix_given postfix = true →
  fs !! src = Some (File (Text content)) →
  no_marker_within pre (postfix_marker +:+ path +:+ rest) = true →
  path ≠ "" →
  string_forall (λ c, negb (is_space c)) path = true →
  stops (λ c, negb (is_space c)) rest = true →
  let value := pre +:+ postfix_marker +:+ path +:+ rest in
  let postfixed := pre +:+ postfix_input_file path postfix +:+ sub_postfix postfix rest in
  sub_postfix postfix value = postfixed
  ∧ render_file src dst (before ++ (key, VStr value) :: after) postfix silent fs
    = match
        bind (render_items postfix before content) (λ content,
          render_items postfix after (render_string content key postfixed))
      with
      | Ok rendered =>
          match open_w dst fs with
          | Some e => (Raise e, fs)
          | None => (Ok tt, <[dst := File (Text (strip_keys rendered))]> fs)
          end
      | Raise e => (Raise e, fs)
      end.
Proof.
  intros Hpostfix Hsrc Hpre Hpath Hns Hrest. cbn zeta.
  assert (Hsub : sub_postfix postfix (pre +:+ postfix_marker +:+ path +:+ rest)
                 = pre +:+ postfix_input_file path postfix +:+ sub_postfix postfix rest).
  { rewrite sub_postfix_before by done. by rewrite sub_postfix_marker. }
  split; [done|].
  unfold BaseJobFileFactory.render_file. rewrite Hsrc, render_items_app.
  destruct (render_items postfix before content) as [content'|e]; cbn [bind]; [|done].
  cbn [BaseJobFileFactory.render_items]. rewrite Hpostfix, Hsub. reflexivity.
Qed.

End WithEnvironment.

(** A source that does not exist, with [silent] set: C6 as stated has the
    call return, the code raises. *)
Lemma render_file_missing_source_raises :
  render_file example_hash example_full_path example_fnmatch example_open_w
    "job.sh" "dir/job.sh" [] PostfixNone true ∅
  = (Raise (IOError "source file for rendering does not exist: job.sh"), ∅).
Proof. reflexivity. Qed.

(** An undecodable source, silently skipped. *)
Lemma render_file_unreadable_witness :
  render_file example_hash example_full_path example_fnmatch example_open_w
    "job.sh" "dir/job.sh" [] PostfixNone true {[ "job.sh" := File Undecodable ]}
  = (Ok tt, {[ "job.sh" := File Undecodable ]}).
Proof.
  apply (proj2 (render_file_unreadable example_hash example_full_path example_fnmatch
                  example_open_w "job.sh" "dir/job.sh" [] PostfixNone
                  {[ "job.sh" := File Undecodable ]})).
  reflexivity.
Defined.

(** The documented use of a postfixed path in a command, as the second of
    two render variables, written into a directory that exists. *)
Lemma marker_postfixed_before_rendering_witness :
  render_file example_hash example_full_path example_fnmatch example_open_w
    "job.sh" "dir/job.sh"
    [("name", VStr "Tom"); ("my_command", VStr "echo __law_job_postfix__:some/path.txt")]
    (PostfixStr "_1") true
    {[ "job.sh" := File (Text "{{my_command}} {{name}}"); "dir" := Directory ]}
  = (Ok tt, <["dir/job.sh" := File (Text "echo some/path_dacc4374d3_1.txt Tom")]>
              {[ "job.sh" := File (Text "{{my_command}} {{name}}"); "dir" := Directory ]}).
Proof.
  refine (proj2 (marker_postfixed_before_rendering example_hash example_full_path
                   example_fnmatch example_open_w "job.sh" "dir/job.sh" "my_command"
                   "echo " "some/path.txt" "" "{{my_command}} {{name}}"
                   [("name", VStr "Tom")] [] (PostfixStr "_1") true
                   {[ "job.sh" := File (Text "{{my_command}} {{name}}");
                      "dir" := Directory ]} _ _ _ _ _ _));
    [reflexivity | reflexivity | reflexivity | discriminate | reflexivity | reflexivity].
Defined.

(** C7 as stated fails: a value with the marker [__job_postfix__:] is
    rendered as it is. *)
Lemma other_marker_not_postfixed :
  sub_postfix example_hash example_full_path example_fnmatch (PostfixStr "_1")
    "cat __job_postfix__:a.txt" = "cat __job_postfix__:a.txt"
  ∧ "cat " +:+ postfix_input_file example_hash example_full_path example_fnmatch
                 "a.txt" (PostfixStr "_1") = "cat a_dacc4374d3_1.txt"
  ∧ render_file example_hash example_full_path example_fnmatch example_open_w
      "job.sh" "dir/job.sh" [("cmd", VStr "cat __job_postfix__:a.txt")]
      (PostfixStr "_1") true {[ "job.sh" := File (Text "{{cmd}}"); "dir" := Directory ]}
    = (Ok tt, <["dir/job.sh" := File (Text "cat __job_postfix__:a.txt")]>
                {[ "job.sh" := File (Text "{{cmd}}"); "dir" := Directory ]}).
Proof. repeat split; reflexivity. Qed.

End RenderFileProps.

(** ** BaseJobFileFactory: linearizing render variables *)

Module LinearizeProps.
Import BaseJobFileFactory TextProps.

(** The documented example. *)
Example linearize_greeting :
  linearize_render_variables example_str 2 greeting_variables
  = Some (Ok [("variable_a", VStr "Tom"); ("variable_b", VStr "Hello, Tom!");
              ("render_variables",
               VStr ("eyJ2YXJpYWJsZV9hIjogIlRvbSIsICJ2YXJpYWJsZV9iIjogIkhlbGxvLCBU"
                     +:+ "b20hIn0="))]).
Proof. reflexivity. Qed.

(** *** Two variables that refer to each other *)

Lemma cyclic_value_loops (fuel : nat) :
  linearize_value fuel cyclic_variables "{{b}}" = None
  ∧ linearize_value fuel cyclic_variables "{{a}}" = None.
Proof.
  induction fuel as [|fuel [IHb IHa]]; [done|].
  split; cbn [linearize_value].
  - change (search_key "{{b}}") with (Some "b").
    change (default (VStr "") (dict_get cyclic_variables "b")) with (VStr "{{a}}").
    change (render_string "{{b}}" "b" "{{a}}") with "{{a}}". exact IHa.
  - change (search_key "{{a}}") with (Some "a").
    change (default (VStr "") (dict_get cyclic_variables "a")) with (VStr "{{b}}").
    change (render_string "{{a}}" "a" "{{b}}") with "{{b}}". exact IHb.
Qed.

(** C5 as stated fails: on the two variables that refer to each other the
    loop is not left, whatever the number of iterations granted. *)
Lemma linearize_cycle_diverges :
  ¬ ∃ fuel r, linearize_render_variables example_str fuel cyclic_variables = Some r.
Proof.
  intros (fuel & r & Hr). revert Hr.
  unfold linearize_render_variables, cyclic_variables.
  cbn [linearize_items]. fold cyclic_variables.
  by rewrite (proj1 (cyclic_value_loops fuel)).
Qed.

(** *** Searching and replacing in texts with references *)

Lemma is_word_not_open (c : ascii) : is_word c = true → not_open c = true.
Proof.
  intros Hc. unfold not_open. destruct (Ascii.eqb_spec c "{") as [->|]; [discriminate | done].
Qed.

Lemma is_word_not_close (c : ascii) : is_word c = true → c ≠ "}"%char.
Proof. intros Hc ->. discriminate. Qed.

Lemma string_forall_impl (p q : ascii → bool) (s : string) :
  (∀ c, p c = true → q c = true) → string_forall p s = true → string_forall q s = true.
Proof.
  intros Hpq. induction s as [|c s IH]; [done|]. cbn.
  intros [Hc Hs]%andb_true_iff. by rewrite (Hpq c Hc), IH.
Qed.

Lemma string_forall_app (p : ascii → bool) (s t : string) :
  string_forall p (s +:+ t) = string_forall p s && string_forall p t.
Proof.
  induction s as [|c s IH]; [done|]. rewrite app_cons. cbn. by rewrite IH, andb_assoc.
Qed.

Lemma name_ok_inv (name : string) :
  name_ok name = true → name ≠ "" ∧ string_forall is_word name = true.
Proof.
  unfold name_ok. intros [Hne Hw]%andb_true_iff. split; [|done].
  intros ->. discriminate.
Qed.

Lemma search_key_cons (c : ascii) (s : string) :
  search_key (String c s)
  = match match_key (String c s) with Some w => Some w | None => search_key s end.
Proof. reflexivity. Qed.

Lemma match_key_not_open (c : ascii) (s : string) :
  not_open c = true → match_key (String c s) = None.
Proof.
  unfold not_open. intros Hc.
  destruct c as [[] [] [] [] [] [] [] []]; try reflexivity; discriminate.
Qed.

Lemma match_key_ref (name rest : string) :
  name_ok name = true → match_key ("{{" +:+ name +:+ "}}" +:+ rest) = Some name.
Proof.
  intros [Hne Hw]%name_ok_inv.
  change ("{{" +:+ name +:+ "}}" +:+ rest)
    with (String "{" (String "{" (name +:+ "}}" +:+ rest))).
  unfold match_key. rewrite span_app by done.
  rewrite prefix_app. by destruct name.
Qed.

Lemma render_pieces_app (ps qs : list piece) :
  render_pieces (ps ++ qs) = render_pieces ps +:+ render_pieces qs.
Proof.
  induction ps as [|p ps IH]; [done|]. cbn [app render_pieces].
  by rewrite IH, app_assoc.
Qed.

Lemma render_lit (c : ascii) (ps : list piece) :
  render_pieces (Lit c :: ps) = String c (render_pieces ps).
Proof. reflexivity. Qed.

Lemma render_ref (name : string) (ps : list piece) :
  render_pieces (Ref name :: ps) = "{{" +:+ name +:+ "}}" +:+ render_pieces ps.
Proof. cbn [render_pieces render_piece]. by rewrite !app_assoc. Qed.

(** The leftmost match of the pattern is the first reference. *)
Lemma search_key_pieces (ps : list piece) :
  forallb piece_ok ps = true → search_key (render_pieces ps) = head (refs ps).
Proof.
  induction ps as [|[c|name] ps IH]; [done| |]; cbn [forallb refs head];
    intros [Hp Hps]%andb_true_iff.
  - rewrite render_lit, search_key_cons, match_key_not_open by done. auto.
  - rewrite render_ref.
    change ("{{" +:+ name +:+ "}}" +:+ render_pieces ps)
      with (String "{" ("{" +:+ name +:+ "}}" +:+ render_pieces ps)).
    rewrite search_key_cons.
    change (String "{" ("{" +:+ name +:+ "}}" +:+ render_pieces ps))
      with ("{{" +:+ name +:+ "}}" +:+ render_pieces ps).
    by rewrite match_key_ref.
Qed.

Lemma replace_from_cons (old new : string) (c : ascii) (s : string) :
  replace_from old new 0 (String c s)
  = if String.prefix old (String c s)
    then new +:+ replace_from old new (String.length old - 1) s
    else String c (replace_from old new 0 s).
Proof. reflexivity. Qed.

Lemma replace_from_skip (old new x rest : string) :
  replace_from old new (String.length x) (x +:+ rest) = replace_from old new 0 rest.
Proof.
  induction x as [|c x IH]; [by destruct rest|]. by rewrite app_cons.
Qed.

Lemma replace_from_match (c : ascii) (old new rest : string) :
  replace_from (String c old) new 0 (String c old +:+ rest)
  = new +:+ replace_from (String c old) new 0 rest.
Proof.
  rewrite app_cons, replace_from_cons, <- app_cons, prefix_app. f_equal.
  cbn [String.length]. replace (S (String.length old) - 1)%nat with (String.length old) by lia.
  apply replace_from_skip.
Qed.

Lemma prefix_not_open (old : string) (c : ascii) (s : string) :
  not_open c = true → String.prefix (String "{" old) (String c s) = false.
Proof.
  unfold not_open. intros Hc. cbn [String.prefix].
  destruct (ascii_dec "{" c) as [<-|]; [discriminate | done].
Qed.

Lemma replace_from_not_open (old new w s : string) :
  string_forall not_open w = true →
  replace_from (String "{" old) new 0 (w +:+ s)
  = w +:+ replace_from (String "{" old) new 0 s.
Proof.
  induction w as [|c w IH]; [done|]. cbn [string_forall].
  intros [Hc Hw]%andb_true_iff.
  rewrite !app_cons, replace_from_cons, prefix_not_open by done. by rewrite IH.
Qed.

Lemma prefix_names (key name rest : string) :
  string_forall is_word key = true → string_forall is_word name = true →
  String.prefix (key +:+ "}}") (name +:+ "}}" +:+ rest) = true → key = name.
Proof.
  revert name. induction key as [|c key IH]; intros [|d name]; cbn [string_forall].
  - done.
  - intros _ [Hd _]%andb_true_iff. rewrite app_nil_l, app_cons. cbn [String.prefix].
    destruct (ascii_dec "}" d) as [<-|]; [discriminate | done].
  - intros [Hc _]%andb_true_iff _. rewrite app_nil_l, app_cons.
    change ("}}" +:+ rest) with (String "}" (String "}" rest)). cbn [String.prefix].
    destruct (ascii_dec c "}") as [->|]; [discriminate | done].
  - intros [Hc Hk]%andb_true_iff [Hd Hn]%andb_true_iff.
    rewrite !app_cons. cbn [String.prefix].
    destruct (ascii_dec c d) as [->|]; [|done].
    intros Hp. f_equal. by apply IH.
Qed.

Lemma prefix_key_iff (key name rest : string) :
  name_ok key = true → name_ok name = true →
  String.prefix ("{{" +:+ key +:+ "}}") ("{{" +:+ name +:+ "}}" +:+ rest)
  = String.eqb name key.
Proof.
  intros [_ Hk]%name_ok_inv [_ Hn]%name_ok_inv.
  destruct (String.eqb_spec name key) as [->|Hne].
  - rewrite <- !app_assoc. apply prefix_app.
  - change ("{{" +:+ key +:+ "}}") with (String "{" (String "{" (key +:+ "}}"))).
    change ("{{" +:+ name +:+ "}}" +:+ rest)
      with (String "{" (String "{" (name +:+ "}}" +:+ rest))).
    cbn [String.prefix]. destruct (ascii_dec "{" "{"); [|done].
    destruct (String.prefix (key +:+ "}}") (name +:+ "}}" +:+ rest)) eqn:Hp; [|done].
    apply prefix_names in Hp; [congruence | done | done].
Qed.

(** Replacing [{{key}}] replaces the references to [key], and nothing else. *)
Lemma render_string_pieces (key : string) (qs ps : list piece) :
  name_ok key = true → forallb piece_ok ps = true →
  render_string (render_pieces ps) key (render_pieces qs)
  = render_pieces (subst_refs key qs ps).
Proof.
  intros Hkey. unfold render_string, replace.
  change ("{{" +:+ key +:+ "}}") with (String "{" ("{" +:+ key +:+ "}}")).
  cbn [String.eqb].
  change (String "{" ("{" +:+ key +:+ "}}")) with ("{{" +:+ key +:+ "}}").
  induction ps as [|[c|name] ps IH]; [done| |]; cbn [forallb subst_refs];
    intros [Hp Hps]%andb_true_iff.
  - rewrite !render_lit, replace_from_cons.
    change ("{{" +:+ key +:+ "}}") with (String "{" ("{" +:+ key +:+ "}}")) at 1.
    rewrite prefix_not_open by done. by rewrite IH.
  - cbn [piece_ok] in Hp. rewrite render_pieces_app.
    pose proof (prefix_key_iff key name (render_pieces ps) Hkey Hp) as Hprefix.
    destruct (String.eqb_spec name key) as [->|Hne].
    + cbn [render_pieces render_piece].
      change ("{{" +:+ key +:+ "}}") with (String "{" ("{" +:+ key +:+ "}}")).
      rewrite replace_from_match.
      change (String "{" ("{" +:+ key +:+ "}}")) with ("{{" +:+ key +:+ "}}").
      by rewrite IH.
    + rewrite render_ref.
      change ("{{" +:+ name +:+ "}}" +:+ render_pieces ps)
        with (String "{" ("{" +:+ name +:+ "}}" +:+ render_pieces ps)) at 1.
      rewrite replace_from_cons.
      change (String "{" ("{" +:+ name +:+ "}}" +:+ render_pieces ps))
        with ("{{" +:+ name +:+ "}}" +:+ render_pieces ps) at 1.
      rewrite Hprefix.
      change ("{" +:+ name +:+ "}}" +:+ render_pieces ps)
        with (String "{" (name +:+ "}}" +:+ render_pieces ps)).
      rewrite replace_from_cons.
      apply name_ok_inv in Hp as [Hne' Hw].
      assert (String.prefix ("{{" +:+ key +:+ "}}")
                (String "{" (name +:+ "}}" +:+ render_pieces ps)) = false) as ->.
      { destruct name as [|d name]; [done|]. cbn [string_forall] in Hw.
        apply andb_true_iff in Hw as [Hd _]. apply is_word_not_open in Hd.
        change ("{{" +:+ key +:+ "}}") with (String "{" (String "{" (key +:+ "}}"))).
        rewrite app_cons. cbn [String.prefix]. destruct (ascii_dec "{" "{"); [|done].
        unfold not_open in Hd. destruct (ascii_dec "{" d) as [<-|]; [discriminate | done]. }
      rewrite <- (app_assoc name "}}").
      change ("{{" +:+ key +:+ "}}") with (String "{" ("{" +:+ key +:+ "}}")).
      rewrite replace_from_not_open.
      * change (String "{" ("{" +:+ key +:+ "}}")) with ("{{" +:+ key +:+ "}}").
        rewrite IH by done. cbn [render_pieces render_piece].
        rewrite app_nil_r, (app_assoc "{{"). reflexivity.
      * rewrite string_forall_app. apply andb_true_iff. split; [|done].
        eapply string_forall_impl; [apply is_word_not_open | done].
Qed.

(** *** The measure that decreases with every iteration *)

Lemma refs_app (ps qs : list piece) : refs (ps ++ qs) = refs ps ++ refs qs.
Proof.
  induction ps as [|[c|name] ps IH]; cbn [app refs]; [done | done | by rewrite IH].
Qed.

Lemma weight_app (rank : string → nat) (ps qs : list piece) :
  weight rank (ps ++ qs) = (weight rank ps + weight rank qs)%nat.
Proof.
  unfold weight. rewrite refs_app, map_app, foldr_app.
  induction (map rank (refs ps)) as [|x l IH]; cbn; [done | rewrite IH; lia].
Qed.

Lemma weight_ref (rank : string → nat) (name : string) (ps : list piece) :
  weight rank (Ref name :: ps) = (rank name + weight rank ps)%nat.
Proof. reflexivity. Qed.

Lemma weight_subst_le (rank : string → nat) (key : string) (qs ps : list piece) :
  (weight rank qs ≤ rank key)%nat →
  (weight rank (subst_refs key qs ps) ≤ weight rank ps)%nat.
Proof.
  intros Hqs. induction ps as [|[c|name] ps IH]; cbn [subst_refs]; [done | done |].
  rewrite weight_app, weight_ref.
  destruct (String.eqb_spec name key) as [->|]; [lia|].
  rewrite weight_ref. unfold weight at 1. cbn. lia.
Qed.

Lemma weight_subst_lt (rank : string → nat) (key : string) (qs ps : list piece) :
  (weight rank qs < rank key)%nat → key ∈ refs ps →
  (weight rank (subst_refs key qs ps) < weight rank ps)%nat.
Proof.
  intros Hqs. induction ps as [|[c|name] ps IH]; cbn [subst_refs refs]; intros Hin.
  - by apply elem_of_nil in Hin.
  - by apply IH.
  - rewrite weight_app, weight_ref.
    pose proof (weight_subst_le rank key qs ps ltac:(lia)) as Hle.
    destruct (String.eqb_spec name key) as [->|Hne]; [lia|].
    apply elem_of_cons in Hin as [->|Hin]; [done|].
    rewrite weight_ref. unfold weight at 1. cbn. specialize (IH Hin). lia.
Qed.


Lemma refs_ok (ps : list piece) (name : string) :
  forallb piece_ok ps = true → name ∈ refs ps → name_ok name = true.
Proof.
  induction ps as [|[c|name'] ps IH]; cbn [forallb refs];
    [intros _ Hin; by apply elem_of_nil in Hin | |];
    intros [Hp Hps]%andb_true_iff Hin.
  - by apply IH.
  - apply elem_of_cons in Hin as [->|Hin]; [done | by apply IH].
Qed.

(** *** Texts with quiet braces *)

Lemma span_app_stop (p : ascii → bool) (u w rest t : string) (d : ascii) :
  span p u = (w, String d rest) → span p (u +:+ t) = (w, String d rest +:+ t).
Proof.
  revert w. induction u as [|c u IH]; intros w; [done|].
  rewrite app_cons. cbn [span]. destruct (p c).
  - destruct (span p u) as [w' rest'] eqn:Hu. intros [= <- ->].
    by rewrite (IH w' eq_refl).
  - by intros [= <- <- <-].
Qed.

Lemma match_key_cons_other (c : ascii) (s : string) :
  c ≠ "{"%char → match_key (String "{" (String c s)) = None.
Proof.
  intros Hc. destruct c as [[] [] [] [] [] [] [] []]; try reflexivity. done.
Qed.

(** Where the characters behind an opening brace rule out a reference,
    whatever follows them, there is no match. *)
Lemma match_key_dead (u t : string) :
  may_open u = false → match_key (String "{" (u +:+ t)) = None.
Proof.
  destruct u as [|c u]; [done|]. cbn [may_open]. rewrite app_cons.
  destruct (Ascii.eqb_spec c "{") as [->|Hc]; [|intros _; by apply match_key_cons_other].
  cbn [andb match_key].
  destruct (span is_word u) as [w rest] eqn:Hspan.
  destruct rest as [|d rest]; [done|].
  rewrite (span_app_stop _ _ _ _ t _ Hspan). rewrite app_cons.
  destruct (String.eqb w ""); cbn [negb andb]; [done|].
  destruct (Ascii.eqb_spec d "}") as [->|Hd]; cbn [andb].
  - destruct rest as [|d' rest]; [done|]. rewrite app_cons.
    destruct (Ascii.eqb_spec d' "}") as [->|Hd']; [done|]. intros _.
    cbn [String.prefix]. destruct (ascii_dec "}" "}"); [|done].
    by destruct (ascii_dec "}" d').
  - intros _. cbn [String.prefix]. by destruct (ascii_dec "}" d).
Qed.

Lemma may_open_app (u t : string) : may_open u = false → may_open (u +:+ t) = false.
Proof.
  destruct u as [|c u]; [done|]. rewrite app_cons. cbn [may_open].
  destruct (Ascii.eqb c "{"); [|done]. cbn [andb].
  destruct (span is_word u) as [w rest] eqn:Hspan.
  destruct rest as [|d rest]; [done|].
  rewrite (span_app_stop _ _ _ _ t _ Hspan). rewrite app_cons.
  destruct (Ascii.eqb d "}"); [|done]. destruct (negb (String.eqb w "")); [|done].
  cbn [andb]. destruct rest as [|d' rest]; [done|]. by rewrite app_cons.
Qed.

Lemma render_leading (ps : list piece) : ∃ t, render_pieces ps = leading ps +:+ t.
Proof.
  induction ps as [|[c|name] ps [t IH]]; [by exists "" | | by eexists].
  exists t. by rewrite render_lit, IH.
Qed.

Lemma leading_app (ps qs : list piece) : ∃ t, leading (ps ++ qs) = leading ps +:+ t.
Proof.
  induction ps as [|[c|name] ps [t IH]]; [by eexists | | by eexists].
  exists t. cbn [app leading]. by rewrite IH.
Qed.

Lemma leading_subst (key : string) (qs ps : list piece) :
  ∃ t, leading (subst_refs key qs ps) = leading ps +:+ t.
Proof.
  induction ps as [|[c|name] ps [t IH]]; [by eexists | | by eexists].
  exists t. cbn [subst_refs leading]. by rewrite IH.
Qed.

Lemma pieces_ok_quiet (ps : list piece) : forallb piece_ok ps = true → quiet ps = true.
Proof.
  induction ps as [|[c|name] ps IH]; [done|..]; cbn [forallb piece_ok quiet];
    intros [-> Hps]%andb_true_iff; by rewrite IH.
Qed.

Lemma match_key_quiet (c : ascii) (ps : list piece) :
  not_open c || negb (may_open (leading ps)) = true →
  match_key (String c (render_pieces ps)) = None.
Proof.
  intros [Hc | Hdead%negb_true_iff]%orb_true_iff; [by apply match_key_not_open|].
  destruct (Ascii.eqb_spec c "{") as [->|Hc].
  - destruct (render_leading ps) as [t ->]. by apply match_key_dead.
  - apply match_key_not_open. unfold not_open. by apply negb_true_iff, Ascii.eqb_neq.
Qed.

Lemma search_key_quiet (ps : list piece) :
  quiet ps = true → search_key (render_pieces ps) = head (refs ps).
Proof.
  induction ps as [|[c|name] ps IH]; [done| |]; cbn [quiet refs head];
    intros [Hp Hps]%andb_true_iff.
  - rewrite render_lit, search_key_cons, match_key_quiet by done. auto.
  - rewrite render_ref.
    change ("{{" +:+ name +:+ "}}" +:+ render_pieces ps)
      with (String "{" ("{" +:+ name +:+ "}}" +:+ render_pieces ps)).
    rewrite search_key_cons.
    change (String "{" ("{" +:+ name +:+ "}}" +:+ render_pieces ps))
      with ("{{" +:+ name +:+ "}}" +:+ render_pieces ps).
    by rewrite match_key_ref.
Qed.

Lemma prefix_split (a s : string) : String.prefix a s = true → ∃ t, s = a +:+ t.
Proof.
  revert s. induction a as [|c a IH]; intros s; [by exists s|].
  destruct s as [|d s]; [done|]. cbn [String.prefix].
  destruct (ascii_dec c d) as [->|]; [|done].
  intros [t ->]%IH. exists t. by rewrite app_cons.
Qed.

Lemma prefix_key_match (key s : string) :
  name_ok key = true → match_key s = None →
  String.prefix ("{{" +:+ key +:+ "}}") s = false.
Proof.
  intros Hkey Hs. destruct (String.prefix _ s) eqn:Hp; [|done].
  apply prefix_split in Hp as [t ->].
  rewrite !app_assoc in Hs. by rewrite match_key_ref in Hs.
Qed.

Lemma prefix_key_quiet (key : string) (c : ascii) (ps : list piece) :
  name_ok key = true → not_open c || negb (may_open (leading ps)) = true →
  String.prefix ("{{" +:+ key +:+ "}}") (String c (render_pieces ps)) = false.
Proof. intros Hkey Hc. by apply prefix_key_match, match_key_quiet. Qed.

Lemma render_string_quiet (key : string) (qs ps : list piece) :
  name_ok key = true → quiet ps = true →
  render_string (render_pieces ps) key (render_pieces qs)
  = render_pieces (subst_refs key qs ps).
Proof.
  intros Hkey. unfold render_string, replace.
  change ("{{" +:+ key +:+ "}}") with (String "{" ("{" +:+ key +:+ "}}")).
  cbn [String.eqb].
  change (String "{" ("{" +:+ key +:+ "}}")) with ("{{" +:+ key +:+ "}}").
  induction ps as [|[c|name] ps IH]; [done| |]; cbn [quiet subst_refs];
    intros [Hp Hps]%andb_true_iff.
  - rewrite !render_lit, replace_from_cons.
    rewrite prefix_key_quiet by done. by rewrite IH.
  - rewrite render_pieces_app.
    pose proof (prefix_key_iff key name (render_pieces ps) Hkey Hp) as Hprefix.
    destruct (String.eqb_spec name key) as [->|Hne].
    + cbn [render_pieces render_piece].
      change ("{{" +:+ key +:+ "}}") with (String "{" ("{" +:+ key +:+ "}}")).
      rewrite replace_from_match.
      change (String "{" ("{" +:+ key +:+ "}}")) with ("{{" +:+ key +:+ "}}").
      by rewrite IH.
    + rewrite render_ref.
      change ("{{" +:+ name +:+ "}}" +:+ render_pieces ps)
        with (String "{" ("{" +:+ name +:+ "}}" +:+ render_pieces ps)) at 1.
      rewrite replace_from_cons.
      change (String "{" ("{" +:+ name +:+ "}}" +:+ render_pieces ps))
        with ("{{" +:+ name +:+ "}}" +:+ render_pieces ps) at 1.
      rewrite Hprefix.
      change ("{" +:+ name +:+ "}}" +:+ render_pieces ps)
        with (String "{" (name +:+ "}}" +:+ render_pieces ps)).
      rewrite replace_from_cons.
      apply name_ok_inv in Hp as [Hne' Hw].
      assert (String.prefix ("{{" +:+ key +:+ "}}")
                (String "{" (name +:+ "}}" +:+ render_pieces ps)) = false) as ->.
      { destruct name as [|d name]; [done|]. cbn [string_forall] in Hw.
        apply andb_true_iff in Hw as [Hd _]. apply is_word_not_open in Hd.
        change ("{{" +:+ key +:+ "}}") with (String "{" (String "{" (key +:+ "}}"))).
        rewrite app_cons. cbn [String.prefix]. destruct (ascii_dec "{" "{"); [|done].
        unfold not_open in Hd. destruct (ascii_dec "{" d) as [<-|]; [discriminate | done]. }
      rewrite <- (app_assoc name "}}").
      change ("{{" +:+ key +:+ "}}") with (String "{" ("{" +:+ key +:+ "}}")).
      rewrite replace_from_not_open.
      * change (String "{" ("{" +:+ key +:+ "}}")) with ("{{" +:+ key +:+ "}}").
        rewrite IH by done. cbn [render_pieces render_piece].
        rewrite app_nil_r, (app_assoc "{{"). reflexivity.
      * rewrite string_forall_app. apply andb_true_iff. split; [|done].
        eapply string_forall_impl; [apply is_word_not_open | done].
Qed.

Lemma quiet_app (ps qs : list piece) :
  quiet ps = true → quiet qs = true → quiet (ps ++ qs) = true.
Proof.
  intros Hps Hqs. induction ps as [|[c|name] ps IH]; [done|..];
    cbn [app quiet] in *; apply andb_true_iff in Hps as [Hp Hps];
    rewrite IH by done; [|by rewrite Hp].
  rewrite andb_true_r. apply orb_true_iff in Hp as [-> | Hdead]; [done|].
  destruct (leading_app ps qs) as [t ->].
  apply negb_true_iff in Hdead. rewrite (may_open_app _ t Hdead). apply orb_true_r.
Qed.

Lemma quiet_subst (key : string) (qs ps : list piece) :
  quiet qs = true → quiet ps = true → quiet (subst_refs key qs ps) = true.
Proof.
  intros Hqs. induction ps as [|[c|name] ps IH]; cbn [subst_refs quiet]; [done| |];
    intros [Hp Hps]%andb_true_iff.
  - rewrite IH by done. rewrite andb_true_r.
    apply orb_true_iff in Hp as [-> | Hdead]; [done|].
    destruct (leading_subst key qs ps) as [t ->].
    apply negb_true_iff in Hdead. rewrite (may_open_app _ t Hdead). apply orb_true_r.
  - apply quiet_app; [|by apply IH].
    destruct (String.eqb name key); [done|]. cbn [quiet]. by rewrite Hp.
Qed.

Lemma refs_quiet (ps : list piece) (name : string) :
  quiet ps = true → name ∈ refs ps → name_ok name = true.
Proof.
  induction ps as [|[c|name'] ps IH]; cbn [quiet refs];
    [intros _ Hin; by apply elem_of_nil in Hin | |];
    intros [Hp Hps]%andb_true_iff Hin.
  - by apply IH.
  - apply elem_of_cons in Hin as [->|Hin]; [done | by apply IH].
Qed.

(** *** Termination for stratified render variables *)

Lemma string_or_not (v : value) : (∃ s, v = VStr s) ∨ (∀ s, v ≠ VStr s).
Proof. destruct v; eauto; right; congruence. Qed.

Lemma dict_get_elem (d : dict) (key : string) (v : value) :
  dict_get d key = Some v → (key, v) ∈ d.
Proof.
  induction d as [|[k' v'] d IH]; [done|]. cbn [dict_get].
  destruct (String.eqb_spec k' key) as [->|]; [intros [= ->]; by left|].
  intros H. right. by apply IH.
Qed.

Lemma elem_dict_get (d : dict) (key : string) (v : value) :
  NoDup (map fst d) → (key, v) ∈ d → dict_get d key = Some v.
Proof.
  induction d as [|[k' v'] d IH]; intros Hnodup Hin; [by apply elem_of_nil in Hin|].
  cbn [map fst] in Hnodup. apply NoDup_cons in Hnodup as [Hk' Hnodup].
  cbn [dict_get]. apply elem_of_cons in Hin as [[= -> ->]|Hin].
  - by rewrite String.eqb_refl.
  - destruct (String.eqb_spec k' key) as [->|]; [|by apply IH].
    destruct Hk'. apply list_elem_of_fmap. by exists (key, v).
Qed.

Section Stratified.
Variable str : value → string.
Variable render_variables : dict.
Variable rank : string → nat.
Hypothesis Hrank : stratified render_variables rank.

Lemma lookup_cases (key : string) :
  (∃ s, default (VStr "") (dict_get render_variables key) = VStr s
        ∧ text_of render_variables key = Some s)
  ∨ (∃ v, dict_get render_variables key = Some v ∧ (∀ s, v ≠ VStr s)).
Proof.
  unfold text_of. destruct (dict_get render_variables key) as [v|]; [|by left; eexists].
  destruct (string_or_not v) as [[s ->] | Hv]; [by left; eexists | right; eauto].
Qed.

(** One iteration: the loop is left, or a value that is not a string is
    looked up, or the references to the first name are replaced by pieces of
    smaller weight. *)
Lemma linearize_value_step (n : nat) (ps : list piece) :
  quiet ps = true →
  (refs ps = []
   ∧ linearize_value (S n) render_variables (render_pieces ps)
     = Some (Ok (render_pieces ps)))
  ∨ (∃ key v e, dict_get render_variables key = Some v ∧ (∀ s, v ≠ VStr s)
                ∧ linearize_value (S n) render_variables (render_pieces ps)
                  = Some (Raise e))
  ∨ (∃ key qs, key ∈ refs ps ∧ quiet qs = true
               ∧ (weight rank qs < rank key)%nat
               ∧ linearize_value (S n) render_variables (render_pieces ps)
                 = linearize_value n render_variables
                     (render_pieces (subst_refs key qs ps))).
Proof.
  intros Hok. cbn [linearize_value]. rewrite search_key_quiet by done.
  destruct (refs ps) as [|key names] eqn:Hrefs; cbn [head]; [by left|].
  right.
  assert (Hin : key ∈ refs ps) by (rewrite Hrefs; by left).
  pose proof (refs_quiet ps key Hok Hin) as Hkey. rewrite <- Hrefs.
  destruct (lookup_cases key) as [(s & -> & Htext) | (v & Hget & Hv)].
  - right. destruct (Hrank key s Htext) as (qs & Hqs & -> & Hlt).
    exists key, qs. by rewrite render_string_quiet.
  - left. rewrite Hget. cbn [default].
    destruct v; try (by destruct (Hv s)); by repeat eexists.
Qed.

Lemma linearize_value_terminates (n : nat) (ps : list piece) :
  quiet ps = true → (weight rank ps ≤ n)%nat →
  ∃ r, linearize_value (S n) render_variables (render_pieces ps) = Some r
       ∧ (all_strings render_variables → returns r).
Proof.
  revert ps. induction n as [|n IH]; intros ps Hok Hw.
  1: destruct (linearize_value_step 0 ps Hok)
       as [[_ ->] | [(key & v & e & Hget & Hv & ->) | (key & qs & Hin & Hqs & Hlt & ->)]].
  4: destruct (linearize_value_step (S n) ps Hok)
       as [[_ ->] | [(key & v & e & Hget & Hv & ->) | (key & qs & Hin & Hqs & Hlt & ->)]].
  all: try (eexists; split; [reflexivity | intros _; by eexists]).
  all: try (eexists; split; [reflexivity|]; intros Hall;
            apply dict_get_elem in Hget; apply Hall in Hget as [s' ->];
            by destruct (Hv s')).
  all: pose proof (weight_subst_lt rank key qs ps Hlt Hin) as Hdec.
  - lia.
  - apply IH; [by apply quiet_subst | lia].
Qed.

Lemma linearize_value_mono (n m : nat) (value : string) (r : res string) :
  linearize_value n render_variables value = Some r → (n ≤ m)%nat →
  linearize_value m render_variables value = Some r.
Proof.
  revert m value. induction n as [|n IH]; intros m value Hn Hle; [done|].
  destruct m as [|m]; [lia|]. cbn [linearize_value] in *.
  destruct (search_key value) as [sub_key|]; [|done].
  destruct (default (VStr "") (dict_get render_variables sub_key)); try done.
  apply IH; [done | lia].
Qed.

(** The loop over the items ends with one and the same result from some
    number of iterations on: it returns when every value is a string, and
    it has raised when it does not return, which it does unless every item
    is a string. *)
Lemma linearize_items_terminate (items : dict) :
  (∀ key v, (key, v) ∈ items → dict_get render_variables key = Some v) →
  ∃ fuel, ∀ linearized, ∃ r,
    (∀ fuel', (fuel ≤ fuel')%nat →
       linearize_items str fuel' render_variables items linearized = Some r)
    ∧ (all_strings render_variables → returns r)
    ∧ (returns r → ∀ key v, (key, v) ∈ items → ∃ s, v = VStr s).
Proof.
  induction items as [|[key v] items IH]; intros Hitems.
  - exists 0%nat. intros linearized. exists (Ok linearized).
    split; [done|]. split; [by eexists|].
    intros _ key v Hin. by apply elem_of_nil in Hin.
  - destruct IH as [fuel2 IH]; [intros k w Hin; apply Hitems; by right|].
    assert (Hget : dict_get render_variables key = Some v) by (apply Hitems; by left).
    destruct (string_or_not v) as [[s ->] | Hv].
    + destruct (Hrank key s) as (ps & Hps & -> & Hlt).
      { unfold text_of. by rewrite Hget. }
      destruct (linearize_value_terminates (weight rank ps) ps Hps ltac:(lia))
        as (r1 & Hr1 & Hok1).
      exists (S (weight rank ps) `max` fuel2)%nat. intros linearized.
      destruct r1 as [value|e].
      * destruct (IH (dict_set linearized key (VStr value))) as (r & Hr & Hret & Hstr).
        exists r. split; [|split; [done|]].
        -- intros fuel' Hfuel. cbn [linearize_items].
           rewrite (linearize_value_mono _ fuel' _ _ Hr1) by lia. apply Hr. lia.
        -- intros Hrr k w [[= -> ->] | Hin]%elem_of_cons; [by eexists|].
           by apply (Hstr Hrr k w).
      * exists (Raise e). split; [|split].
        -- intros fuel' Hfuel. cbn [linearize_items].
           by rewrite (linearize_value_mono _ fuel' _ _ Hr1) by lia.
        -- intros Hall. destruct (Hok1 Hall) as [a [=]].
        -- intros [a [=]].
    + exists 0%nat. intros linearized.
      destruct v; try (by destruct (Hv s)); cbn [linearize_items];
        (eexists; split; [intros fuel' _; reflexivity|]; split;
         [intros Hall; apply dict_get_elem in Hget; apply Hall in Hget as [s' [=]]
         | intros [a [=]]]).
Qed.

End Stratified.

(** C5, as the code has it: [linearize_render_variables] terminates on
    render variables (a dictionary, so with distinct keys) that are
    stratified by a rank: there is a number of iterations from which on the
    loops are left, always with the same result, which is a dictionary that
    is returned when every value is a string and a raised exception when
    some value is not.  Nothing of this kind holds for variables that refer
    to each other in a cycle. *)
Theorem linearize_terminates (str : value → string) (render_variables : dict)
    (rank : string → nat) :
  NoDup (map fst render_variables) →
  stratified render_variables rank →
  ∃ fuel r,
    (∀ fuel', (fuel ≤ fuel')%nat →
       linearize_render_variables str fuel' render_variables = Some r)
    ∧ (all_strings render_variables → returns r)
    ∧ (¬ all_strings render_variables → ∃ e, r = Raise e).
Proof.
  intros Hnodup Hrank.
  destruct (linearize_items_terminate str render_variables rank Hrank render_variables)
    as [fuel Hfuel].
  { intros key v. by apply elem_dict_get. }
  destruct (Hfuel []) as (r & Hr & Hret & Hstr).
  exists fuel. destruct r as [linearized|e].
  - eexists. split; [|split].
    + intros fuel' Hle. unfold linearize_render_variables. by rewrite (Hr fuel' Hle).
    + intros _. by eexists.
    + intros Hnot. destruct Hnot. intros key v Hin. apply (Hstr ltac:(by eexists) key v Hin).
  - exists (Raise e). split; [|split].
    + intros fuel' Hle. unfold linearize_render_variables. by rewrite (Hr fuel' Hle).
    + intros Hall. destruct (Hret Hall) as [a [=]].
    + intros _. by eexists.
Qed.

Lemma greeting_stratified : stratified greeting_variables greeting_rank.
Proof.
  intros name s. unfold text_of, greeting_variables. cbn [dict_get].
  destruct (String.eqb_spec "variable_a" name) as [<-|Ha].
  { intros [= <-]. exists (lits "Tom"). repeat split. cbn. lia. }
  destruct (String.eqb_spec "variable_b" name) as [<-|Hb].
  { intros [= <-]. exists (lits "Hello, " ++ [Ref "variable_a"] ++ lits "!").
    repeat split. cbn. lia. }
  intros [= <-]. exists []. repeat split. unfold greeting_rank.
  destruct (String.eqb name "variable_b"); cbn; lia.
Qed.

(** Braces of the shell do not stand in the way. *)
Lemma shell_stratified : stratified shell_variables shell_rank.
Proof.
  intros name s. unfold text_of, shell_variables. cbn [dict_get].
  destruct (String.eqb_spec "home" name) as [<-|Ha].
  { intros [= <-]. exists (lits "${HOME}/x"). repeat split. cbn. lia. }
  destruct (String.eqb_spec "list" name) as [<-|Hb].
  { intros [= <-].
    exists (lits "ls " ++ [Ref "home"] ++ lits "/{a,b} | awk '{print $1}'").
    repeat split. cbn. lia. }
  intros [= <-]. exists []. repeat split. unfold shell_rank.
  destruct (String.eqb name "list"); cbn; lia.
Qed.

Example linearize_shell :
  ∃ d, linearize_render_variables example_str 2 shell_variables = Some (Ok d)
       ∧ dict_get d "list" = Some (VStr "ls ${HOME}/x/{a,b} | awk '{print $1}'").
Proof. eexists. split; reflexivity. Qed.

(** The variables of the shell script are stratified: their linearization
    terminates and returns. *)
Lemma linearize_terminates_witness :
  ∃ fuel r,
    (∀ fuel', (fuel ≤ fuel')%nat →
       linearize_render_variables example_str fuel' shell_variables = Some r)
    ∧ (all_strings shell_variables → returns r)
    ∧ (¬ all_strings shell_variables → ∃ e, r = Raise e).
Proof.
  apply (linearize_terminates example_str shell_variables shell_rank).
  - apply (bool_decide_unpack _). vm_compute. reflexivity.
  - exact shell_stratified.
Defined.

End LinearizeProps.

(* ===================================================================== *)
(** * Further properties *)
(* ===================================================================== *)

(** ** JobInputFile: normalization of the flags *)

Module JobInputFileMore.
Import JobInputFile.

(** X1: a flag that is passed explicitly is stored as passed, whatever the
    other arguments are; [render] sets [render_local] (and clears
    [render_job]) when neither of the two is passed. *)
Theorem explicit_flags_kept (p : string) (fl : flags) :
  let f := fst (init (PathStr p) fl) in
  path f = p
  ∧ (∀ b, f_copy fl = Some b → copy f = b)
  ∧ (∀ b, f_share fl = Some b → share f = b)
  ∧ (∀ b, f_forward fl = Some b → forward f = b)
  ∧ (∀ b, f_postfix fl = Some b → postfix f = b)
  ∧ (∀ b, f_render_local fl = Some b → render_local f = b)
  ∧ (∀ b, f_render_job fl = Some b → render_job f = b)
  ∧ (∀ b, f_render fl = Some b → f_render_local fl = None → f_render_job fl = None →
       render_local f = b ∧ render_job f = false).
Proof.
  destruct fl as [[[]|] [[]|] [[]|] [[]|] [[]|] [[]|] [[]|]]; cbn;
    repeat split; intros; simplify_eq; reflexivity.
Qed.

(** X2: constructing from an existing instance copies its path and flags
    exactly; keyword arguments passed along are ignored, and the warnings
    are those of the copied flags. *)
Theorem copy_construction (f : t) (fl : flags) :
  fst (init (PathFile f) fl) = f
  ∧ init (PathFile f) fl = init (PathFile f) no_flags.
Proof.
  destruct f as [p [] [] [] [] [] []], fl as [c s fw pf [[]|] rl rj]; cbn;
    split; reflexivity.
Qed.

(** X3: a call that passes at most one flag never logs a warning: the
    defaults derived from a single flag are free of conflicts. *)
Theorem single_flag_no_warning (p : string) (f : flag) (b : bool) :
  snd (init (PathStr p) (single f b)) = []
  ∧ snd (init (PathStr p) no_flags) = []
  ∧ fst (init (PathStr p) no_flags)
    = {| path := p; copy := true; share := false; forward := false;
         postfix := true; render_local := true; render_job := false |}.
Proof. destruct f, b; repeat split; reflexivity. Qed.

End JobInputFileMore.

(** ** JobArguments: the encoded tokens *)

Module JobArgumentsMore.
Import JobArguments JobArgumentsProps.

(** X4: the three encoded tokens of [get_args], whenever they are produced,
    are never empty, have a length that is a multiple of four and hold
    characters of the base64 alphabet only (no whitespace), so that they
    cannot disturb the splitting of the joined arguments into positions.
    They are produced for all strings whose code points are below 256. *)
Theorem encoded_tokens_well_formed (self : JobArguments.t) (token : string) :
  encode_string (task_params self) = Ok token
  ∨ encode_list (branches self) = Ok token
  ∨ encode_list (dashboard_data self) = Ok token →
  (token ≠ ""
   ∧ BaseJobFileFactory.string_forall is_b64 token = true
   ∧ (String.length token `mod` 4 = 0)%nat)
  ∧ (∀ s : string, ∃ t, encode_string (ParamsStr (text_of s)) = Ok t)
  ∧ (∀ l, forallb (λ v, latin1_ok (str v)) l = true → ∃ t, encode_list l = Ok t).
Proof.
  assert (H : ∀ s b, latin1 (text_or_dash s) = Ok b →
                let t := b64encode b in
                t ≠ "" ∧ BaseJobFileFactory.string_forall is_b64 t = true
                ∧ (String.length t `mod` 4 = 0)%nat).
  { intros s b Hb. cbn zeta.
    destruct (b64encode_length b) as (k & Hk & Hpos).
    assert (Hne : b ≠ "").
    { intros ->. apply latin1_bytes in Hb. by destruct s. }
    specialize (Hpos Hne). repeat split.
    - intros Hempty. rewrite Hempty in Hk. cbn in Hk. lia.
    - apply b64encode_safe.
    - rewrite Hk. rewrite Nat.mul_comm. apply Nat.Div0.mod_mul. }
  assert (Hlist : ∀ l t, encode_list l = Ok t →
                    t ≠ "" ∧ BaseJobFileFactory.string_forall is_b64 t = true
                    ∧ (String.length t `mod` 4 = 0)%nat).
  { intros l t. unfold encode_list.
    destruct (latin1 _) as [b|e] eqn:Hb; [|done]. intros [= <-]. by eapply H. }
  intros Htoken. split; [|split].
  - destruct Htoken as [Hp | [Hb | Hd]]; [|by eapply Hlist..].
    destruct (task_params self) as [|s|[|x l]]; cbn [encode_string] in Hp; [| | |done].
    + injection Hp as <-. by apply (H [] "-").
    + destruct (latin1 _) as [b|e] eqn:Hb; [|done]. injection Hp as <-. by eapply H.
    + injection Hp as <-. by apply (H [] "-").
  - intros s. cbn [encode_string].
    destruct (latin1_returns (text_or_dash (text_of s))) as (b & -> & _); [|by eexists].
    rewrite latin1_ok_or_dash. unfold latin1_ok.
    pose proof (latin1_text_of s) as Hs. unfold latin1 in Hs.
    by destruct (forallb _ (text_of s)).
  - intros l Hl. destruct (encode_list_returns l Hl) as (b & -> & _). by eexists.
Qed.

Lemma encoded_tokens_well_formed_witness :
  ("MCAxIDI=" : string) ≠ ""
  ∧ BaseJobFileFactory.string_forall is_b64 "MCAxIDI=" = true
  ∧ (String.length "MCAxIDI=" `mod` 4 = 0)%nat.
Proof.
  apply (encoded_tokens_well_formed
           (init {| module__ := text_of "tasks"; name__ := text_of "MyTask" |}
              (ParamsStr (text_of "--x 1")) [IInt 0; IInt 1; IInt 2] false None)
           "MCAxIDI=").
  right. left. reflexivity.
Defined.

(** X5: the encoding loses nothing but the difference between the empty
    string and the placeholder: two parameter strings that are encoded have
    the same token exactly when they are equal after [s or "-"], and two
    lists exactly when their joined strings are; the token decodes to the
    bytes of the string. *)
Theorem encoding_injective (s1 s2 : text) (l1 l2 : list item) (t1 t2 u1 u2 : string) :
  (encode_string (ParamsStr s1) = Ok t1 → encode_string (ParamsStr s2) = Ok t2 →
   (t1 = t2 ↔ text_or_dash s1 = text_or_dash s2)
   ∧ text_of (b64decode t1) = text_or_dash s1)
  ∧ (encode_list l1 = Ok u1 → encode_list l2 = Ok u2 →
     (u1 = u2 ↔ text_or_dash (text_join (text_of " ") (map str l1))
                = text_or_dash (text_join (text_of " ") (map str l2)))
     ∧ text_of (b64decode u1) = text_or_dash (text_join (text_of " ") (map str l1))).
Proof.
  assert (H : ∀ x y t u,
            bind (latin1 x) (λ b, Ok (b64encode b)) = Ok t →
            bind (latin1 y) (λ b, Ok (b64encode b)) = Ok u →
            (t = u ↔ x = y) ∧ text_of (b64decode t) = x).
  { intros x y t u.
    destruct (latin1 x) as [a|e] eqn:Hx; [|done].
    destruct (latin1 y) as [b|e] eqn:Hy; [|done].
    cbn [bind]. intros [= <-] [= <-].
    apply latin1_bytes in Hx as Hx', Hy as Hy'. rewrite b64_round_trip.
    split; [|done]. split.
    - intros Heq. assert (a = b) as ->; [|congruence].
      by rewrite <- (b64_round_trip a), <- (b64_round_trip b), Heq.
    - intros ->. by rewrite Hy in Hx; injection Hx as ->. }
  split; [apply H | apply H].
Qed.

Lemma encoding_injective_witness :
  (("LQ==" : string) = "LQ==" ↔ text_or_dash [] = text_or_dash (text_of "-"))
  ∧ text_of (b64decode "LQ==") = text_or_dash [].
Proof.
  apply (proj1 (encoding_injective [] (text_of "-") [] [] "LQ==" "LQ==" "" ""));
    reflexivity.
Defined.

End JobArgumentsMore.

(** ** BaseJobManager: more on the batch operations *)

Module BatchMore.
Import Util UtilProps BaseJobManager BatchProps.

Implicit Types (op : atomic) (self : t) (l : list string) (callback : callback_arg).

(** An empty batch needs no call of the atomic operation or of the
    callback and gives an empty result, whatever the chunk sizes. *)
Theorem empty_batch self op (chunk_size : option Z) callback :
  submit_batch self op (Many []) chunk_size callback = Some (Ok [])
  ∧ cancel_batch self op (Many []) chunk_size callback = Some []
  ∧ cleanup_batch self op (Many []) chunk_size callback = Some []
  ∧ query_batch self op (Many []) chunk_size callback = Some (Ok ∅).
Proof.
  assert (Hjoins : ∀ wrapper chunking size,
            joins callback (batch_callbacks wrapper op chunking [] size) = true).
  { intros wrapper [] size; by destruct callback. }
  unfold submit_batch, cancel_batch, cleanup_batch, query_batch, dispatch.
  cbn [make_list]. rewrite !Hjoins. repeat split; by case_match.
Qed.

Lemma filter_none {A} (P : A → Prop) `{!∀ x, Decision (P x)} (xs : list A) :
  (∀ x, x ∈ xs → ¬ P x) → filter P xs = [].
Proof.
  induction xs as [|x xs IH]; intros Hxs; [done|].
  rewrite filter_cons_False by (apply Hxs; by left).
  apply IH. intros y Hy. apply Hxs. by right.
Qed.

Lemma flattened_results op (chunking : bool) l (size : Z) :
  flatten (VList (map snd (dispatch op chunking l size)))
  = flat_map (λ u, flatten (get_async_result_silent (op u)))
      (if chunking then map Chunk (iter_chunks l (Z.to_nat size)) else map Single l).
Proof.
  unfold dispatch. rewrite flatten_list, map_map. cbn [snd].
  by rewrite flat_map_map.
Qed.

Lemma broadcast_joins op (chunking : bool) l (size : Z) callback :
  returning callback →
  joins callback (batch_callbacks broadcast_wrapper op chunking l size) = true.
Proof.
  intros Hret. apply joins_smooth. right. split; [done | apply broadcast_wrappers].
Qed.

(** X6: the list that [cancel_batch] and [cleanup_batch] return never holds
    [None] or another object that is false in a condition, and it is empty
    when no unit of work leaves an object that is true in a condition.  The
    two methods return when no callback is passed, and when the callback
    returns whenever it is called. *)
Theorem errors_only self op l (chunk_size : option Z) callback :
  (∀ errors, cancel_batch self op (Many l) chunk_size callback = Some errors →
     Forall (λ v, truthy v = true) errors)
  ∧ (∀ errors, cleanup_batch self op (Many l) chunk_size callback = Some errors →
       Forall (λ v, truthy v = true) errors)
  ∧ (returning callback →
     (∃ errors, cancel_batch self op (Many l) chunk_size callback = Some errors)
     ∧ (∃ errors, cleanup_batch self op (Many l) chunk_size callback = Some errors)
     ∧ ((∀ u v, v ∈ flatten (get_async_result_silent (op u)) → truthy v = false) →
        cancel_batch self op (Many l) chunk_size callback = Some []
        ∧ cleanup_batch self op (Many l) chunk_size callback = Some [])).
Proof.
  unfold cancel_batch, cleanup_batch. cbn [make_list].
  split; [|split].
  - intros errors. destruct (joins _ _); [|done]. intros [= <-].
    apply Forall_forall. intros v Hv. by apply list_elem_of_filter in Hv as [? _].
  - intros errors. destruct (joins _ _); [|done]. intros [= <-].
    apply Forall_forall. intros v Hv. by apply list_elem_of_filter in Hv as [? _].
  - intros Hret. rewrite !broadcast_joins by done.
    split; [by eexists|]. split; [by eexists|].
    intros Hfalse.
    assert (Hnone : ∀ chunking size,
              filter (λ v, truthy v = true)
                (flatten (VList (map snd (dispatch op chunking l size)))) = []).
    { intros chunking size. rewrite flattened_results.
      apply filter_none. intros v Hv.
      apply list_elem_of_In, in_flat_map in Hv as (u & _ & Hv).
      apply list_elem_of_In, Hfalse in Hv. congruence. }
    by rewrite !Hnone.
Qed.

Lemma errors_only_witness :
  cancel_batch (with_chunk_sizes (init None None 1) 2) succeeding
    (Many ["j1"; "j2"; "j3"]) None None = Some []
  ∧ cleanup_batch (with_chunk_sizes (init None None 1) 2) succeeding
      (Many ["j1"; "j2"; "j3"]) None None = Some [].
Proof.
  apply (errors_only (with_chunk_sizes (init None None 1) 2) succeeding
           ["j1"; "j2"; "j3"] None None); [apply returning_none|].
  intros [x|xs] v Hv; cbn in Hv.
  - apply list_elem_of_singleton in Hv as ->. reflexivity.
  - induction xs as [|x xs IH]; cbn in Hv; [by apply elem_of_nil in Hv|].
    apply elem_of_cons in Hv as [->|Hv]; [reflexivity | by apply IH].
Defined.

(** X7: where chunking is not in effect no batch operation raises, and each
    returns when no callback is passed or the callback returns whenever it
    is called.  What an atomic operation raises for an item is returned as
    data: it is in the list that [submit_batch] returns and it is the entry
    of the job id in the dictionary that [query_batch] returns, whose keys
    are exactly the job ids passed. *)
Theorem unchunked_batch_returns self op l (chunk_size : option Z) callback :
  returning callback →
  (effective_chunk_size (chunk_size_submit self) chunk_size = 0 →
   submit_batch self op (Many l) chunk_size callback
   = Some (Ok (flat_map (λ x, flatten (get_async_result_silent (op (Single x)))) l))
   ∧ ∀ x e, x ∈ l → op (Single x) = Raise e →
       VExc e ∈ flat_map (λ x, flatten (get_async_result_silent (op (Single x)))) l)
  ∧ (effective_chunk_size (chunk_size_query self) chunk_size = 0 →
     ∃ m, query_batch self op (Many l) chunk_size callback = Some (Ok m)
          ∧ ∀ x, m !! x = if decide (x ∈ l)
                          then Some (get_async_result_silent (op (Single x)))
                          else None).
Proof.
  intros Hret.
  assert (Hjoins : ∀ wrapper size,
            joins callback (batch_callbacks wrapper op false l size) = true).
  { intros wrapper size. apply joins_smooth. right.
    split; [done | apply unchunked_wrappers]. }
  split.
  - intros Hsize. unfold submit_batch. cbn [make_list]. rewrite Hsize.
    change (0 <? 0) with false. rewrite Hjoins. cbn match.
    rewrite flattened_results, flat_map_map. split; [done|].
    intros x e Hx Hraise. apply list_elem_of_In, in_flat_map.
    exists x. split; [by apply list_elem_of_In|]. rewrite Hraise. by left.
  - intros Hsize. unfold query_batch. cbn [make_list]. rewrite Hsize.
    change (0 <? 0) with false. rewrite Hjoins. cbn match.
    rewrite dispatch_unchunked, unchunked_query_data. cbn [snd].
    eexists. split; [reflexivity|]. intros x.
    by rewrite (lookup_insert_all_fn (λ x, get_async_result_silent (op (Single x)))).
Qed.

Lemma unchunked_batch_returns_witness :
  submit_batch (init None None 1) failing_chunks (Many ["a"; "b"]) (Some 5)
    (Some (λ _ _, None))
  = Some (Ok [VNone; VNone]).
Proof.
  apply (proj1 (unchunked_batch_returns (init None None 1) failing_chunks
                  ["a"; "b"] (Some 5) (Some (λ _ _, None))
                  ltac:(by intros cb i v [= <-]))).
  reflexivity.
Defined.

Lemma store_outputs_type_error (results : list (work * value)) (out : list value) :
  (∃ u v, (u, v) ∈ results ∧ is_exception v = false ∧ iterate v = None) →
  ∃ msg, store_outputs out results = Raise (TypeError msg).
Proof.
  revert out. induction results as [|[u v] results IH]; intros out (u' & v' & Hin & Hexc & Hit).
  { by apply elem_of_nil in Hin. }
  cbn [store_outputs]. unfold extend at 1.
  destruct (is_exception v) eqn:Hv.
  - cbn [iterate bind]. apply IH. exists u', v'. split; [|done].
    apply elem_of_cons in Hin as [[= -> ->]|Hin]; [congruence | done].
  - destruct (iterate v) as [vs|] eqn:Hvs; cbn [bind]; [|by eexists].
    apply IH. exists u', v'. split; [|done].
    apply elem_of_cons in Hin as [[= -> ->]|Hin]; [congruence | done].
Qed.

(** X8: a chunked [submit_batch] does not return when the operation
    returns, for some chunk, an object that is neither an exception nor
    iterable ([None], a number).  Without a callback it raises: extending
    the outputs fails with a [TypeError].  With a callback it does not come
    to an end: the wrapper of the chunk fails on [job_ids[j]] in the result
    handler of the pool, which is then never joined. *)
Theorem chunked_submit_not_iterable self op l (chunk_size : option Z)
    (c : list string) (v : value) :
  let size := effective_chunk_size (chunk_size_submit self) chunk_size in
  0 < size →
  c ∈ iter_chunks l (Z.to_nat size) →
  op (Chunk c) = Ok v → is_exception v = false → iterate v = None →
  (∃ msg, submit_batch self op (Many l) chunk_size None = Some (Raise (TypeError msg)))
  ∧ ∀ callback, callback ≠ None → submit_batch self op (Many l) chunk_size callback = None.
Proof.
  cbn zeta. intros Hpos Hc Hop Hexc Hit.
  unfold submit_batch. cbn [make_list]. apply Z.ltb_lt in Hpos as Hpos'. rewrite Hpos'.
  split.
  - cbn [joins]. rewrite dispatch_chunked.
    destruct (store_outputs_type_error
                (map (λ c, (Chunk c, get_async_result_silent (op (Chunk c))))
                   (iter_chunks l (Z.to_nat
                      (effective_chunk_size (chunk_size_submit self) chunk_size)))) [])
      as [msg ->]; [|by eexists].
    exists (Chunk c), v. split; [|done].
    apply list_elem_of_fmap. exists c. by rewrite Hop.
  - intros [cb|] Hcb; [|done].
    assert (Hne : c ≠ []).
    { apply iter_chunks_sizes in Hc as Hlen; [|lia]. intros ->. cbn in Hlen. lia. }
    rewrite (chunked_wrapper_fails op l _ cb c v Hc Hne Hop Hexc); [done|..];
      intros x ->; discriminate.
Qed.

Lemma chunked_submit_not_iterable_witness :
  (∃ msg, submit_batch (with_chunk_sizes (init None None 1) 2)
            (λ _, Ok VNone) (Many ["a"; "b"; "c"]) None None
          = Some (Raise (TypeError msg)))
  ∧ ∀ callback, callback ≠ None →
      submit_batch (with_chunk_sizes (init None None 1) 2)
        (λ _, Ok VNone) (Many ["a"; "b"; "c"]) None callback = None.
Proof.
  apply (chunked_submit_not_iterable (with_chunk_sizes (init None None 1) 2)
           (λ _, Ok VNone) ["a"; "b"; "c"] None ["c"] VNone).
  - reflexivity.
  - cbn. set_solver.
  - reflexivity.
  - reflexivity.
  - reflexivity.
Defined.

End BatchMore.

(** ** BaseJobManager: callbacks *)

Module CallbackProps.
Import Util UtilProps BaseJobManager BatchProps.

Lemma single_calls (g : nat → string → nat * value) (l : list string) :
  concat (map fst (imap (λ i x, ([g i x], @None exn)) l)) = imap g l.
Proof.
  revert g. induction l as [|x l IH]; intros g; [done|].
  cbn [imap map fst concat app]. f_equal. exact (IH (g ∘ S)).
Qed.

Section Answers.
Variable op : atomic.
Variable f : string → value.
Hypothesis Hop : answers op f.

Lemma chunk_calls_from (pre rest : list (list string)) :
  imap (λ i chunk,
          match op (Chunk chunk) with
          | Ok v => indexed_wrapper (pre ++ rest) (length pre + i) v
          | Raise _ => ([], None)
          end) rest
  = imap (λ i chunk,
            (imap (λ j x, ((length (concat (pre ++ take i rest)) + j)%nat, f x)) chunk,
             None)) rest.
Proof.
  apply imap_ext. intros i chunk Hi. cbn beta.
  rewrite (proj2 Hop). unfold indexed_wrapper.
  rewrite lookup_app_r, Nat.add_comm, Nat.add_sub, Hi by lia.
  rewrite <- (length_map f chunk), indexed_loop_list, imap_fmap.
  f_equal. apply imap_ext. intros j x _. cbn. f_equal. f_equal.
  unfold chunk_offset. rewrite sum_lengths.
  replace (i + length pre)%nat with (length pre + i)%nat by lia.
  by rewrite take_app_add.
Qed.

Lemma concat_chunk_calls (pre rest : list (list string)) :
  concat (map fst
    (imap (λ i chunk,
             (imap (λ j x, ((length (concat (pre ++ take i rest)) + j)%nat, f x)) chunk,
              @None exn)) rest))
  = imap (λ j x, ((length (concat pre) + j)%nat, f x)) (concat rest).
Proof.
  revert pre. induction rest as [|c rest IH]; intros pre; [done|].
  cbn [imap map fst concat take]. rewrite app_nil_r, imap_app. f_equal.
  specialize (IH (pre ++ [c])).
  rewrite concat_app in IH. cbn [concat] in IH. rewrite app_nil_r, length_app in IH.
  erewrite imap_ext; [erewrite (imap_ext _ _ (concat rest)); [exact IH|]|].
  - intros j x _. cbn. f_equal. lia.
  - intros i chunk _. cbn. f_equal. apply imap_ext. intros j x _. cbn.
    rewrite <- (assoc_L (++)). reflexivity.
Qed.

Lemma chunk_calls (chunks : list (list string)) :
  concat (map fst
    (imap (λ i chunk,
             match op (Chunk chunk) with
             | Ok v => indexed_wrapper chunks i v
             | Raise _ => ([], None)
             end) chunks))
  = imap (λ j x, (j, f x)) (concat chunks)
  ∧ Forall (λ r : calls * option exn, snd r = None)
      (imap (λ i chunk,
               match op (Chunk chunk) with
               | Ok v => indexed_wrapper chunks i v
               | Raise _ => ([], None)
               end) chunks).
Proof.
  pose proof (chunk_calls_from [] chunks) as Hcalls.
  pose proof (concat_chunk_calls [] chunks) as Hconcat.
  cbn [app length Nat.add concat] in *.
  rewrite Hcalls. split; [exact Hconcat|].
  apply Forall_forall. intros r Hr.
  by apply elem_of_lookup_imap in Hr as (i & c & -> & _).
Qed.

(** X9: with an operation that returns one result per item, and for a
    chunk the list of these results, the callback of [submit_batch] is
    invoked once for every job file, with the position of the job file in
    the list that was passed and with its own result, whatever the chunk
    sizes; no invocation fails. *)
Theorem submit_callbacks_per_item (self : t) (l : list string) (chunk_size : option Z) :
  concat (map fst (submit_callbacks self op (Many l) chunk_size))
  = imap (λ i x, (i, f x)) l
  ∧ Forall (λ r, snd r = None) (submit_callbacks self op (Many l) chunk_size).
Proof.
  unfold submit_callbacks, batch_callbacks. cbn [make_list].
  destruct (0 <? effective_chunk_size (chunk_size_submit self) chunk_size) eqn:Hpos.
  - apply Z.ltb_lt in Hpos.
    destruct (chunk_calls (iter_chunks l
      (Z.to_nat (effective_chunk_size (chunk_size_submit self) chunk_size))))
      as [Hcalls Hnone].
    split; [|exact Hnone]. rewrite Hcalls. by rewrite iter_chunks_concat by lia.
  - split.
    + erewrite imap_ext; [|intros i x _; cbn beta; rewrite (proj1 Hop); reflexivity].
      apply (single_calls (λ i x, (i, f x))).
    + apply Forall_forall. intros r Hr.
      apply elem_of_lookup_imap in Hr as (i & x & -> & _).
      by rewrite (proj1 Hop).
Qed.

End Answers.

Lemma submit_callbacks_per_item_witness :
  concat (map fst (submit_callbacks (with_chunk_sizes (init None None 1) 2) numbering
                     (Many ["a"; "b"; "c"]) None))
  = [(0%nat, VStr "job:a"); (1%nat, VStr "job:b"); (2%nat, VStr "job:c")].
Proof.
  apply (proj1 (submit_callbacks_per_item numbering job_id_of
                  ltac:(split; reflexivity)
                  (with_chunk_sizes (init None None 1) 2) ["a"; "b"; "c"] None)).
Defined.

(** X10: the wrapper that [query_batch] builds for a chunk looks the data of
    the job up by position, [query_data[j]]; when the chunked query returns
    what the batch needs for its return value, a dictionary keyed by job id,
    the wrapper raises [KeyError] before the callback is invoked once. *)
Theorem query_wrapper_key_error (chunks : list (list string)) (i : nat)
    (c : list string) (d : list (string * value)) :
  chunks !! i = Some c → c ≠ [] →
  indexed_wrapper chunks i (VDict d) = ([], Some (KeyError "0")).
Proof.
  intros Hi Hc. unfold indexed_wrapper. rewrite Hi.
  destruct c as [|x c]; [done|]. reflexivity.
Qed.

Lemma query_wrapper_key_error_witness :
  indexed_wrapper [["a"; "c"]; ["b"]] 1
    (VDict [("b", job_status_dict (VStr "b") (VStr RUNNING) VNone VNone)])
  = ([], Some (KeyError "0")).
Proof.
  apply (query_wrapper_key_error [["a"; "c"]; ["b"]] 1 ["b"]); [reflexivity | discriminate].
Defined.

End CallbackProps.

(** ** BaseJobManager: more on status lines *)

Module StatusLineMore.
Import BaseJobManager.

Section WithEnvironment.
Variable colored : string -> style -> res string.
Variable strftime : string -> res string.

Lemma resolve_last_counts_value (last : last_counts_arg) (self : t) :
  resolve_last_counts last self
  = (Ok match last with
        | LastNone | LastFlag false => []
        | LastFlag true =>
            if nonempty (last_counts self) then last_counts self
            else replicate (length (status_names self)) 0
        | LastList l => l
        end, self).
Proof. by destruct last as [|[]|l]. Qed.

(** A call either raises and leaves the instance alone, or it has passed
    the check of the counts and stores them. *)
Lemma status_line_cases (self : t) (counts : list Z) (last : last_counts_arg)
    (sum_counts : option Z) (timestamp : timestamp_arg) (align : align_arg)
    (color : bool) :
  let call :=
    status_line colored strftime counts last sum_counts timestamp align color self in
  (∃ e, call = (Raise e, self))
  ∨ (∃ line, call = (Ok line, set_last_counts self counts)
             ∧ length counts = length (status_names self)).
Proof.
  cbn zeta. unfold status_line, sbind, get. rewrite resolve_last_counts_value.
  unfold raise, ret, lift, store_last_counts.
  destruct (nonempty _ && negb (_ =? _)%nat); [by left; eexists|].
  destruct (negb (length counts =? length (status_names self))%nat) eqn:Hcounts;
    [by left; eexists|].
  apply negb_false_iff, Nat.eqb_eq in Hcounts.
  destruct (match time_format timestamp with
            | Some time_format => bind (strftime time_format) _
            | None => Ok ""
            end); [|by left; eexists].
  destruct (status_entries _ _ _ _ _ _ _ _); [right | left]; eauto.
Qed.

(** X11: the stored counts have as many entries as there are status names
    after construction, and every call of [status_line] keeps it that way,
    whether it returns or raises. *)
Theorem last_counts_consistent (self : t) (counts : list Z) (last : last_counts_arg)
    (sum_counts : option Z) (timestamp : timestamp_arg) (align : align_arg)
    (color : bool) (names : option (list string))
    (styles : option (gmap string (style * style * style))) (threads : Z) :
  consistent (init names styles threads)
  ∧ (consistent self →
     consistent (snd (status_line colored strftime counts last sum_counts timestamp
                        align color self))).
Proof.
  split.
  - unfold consistent, init. cbn. apply length_replicate.
  - intros Hself.
    destruct (status_line_cases self counts last sum_counts timestamp align color)
      as [[e ->] | (line & -> & Hlen)]; [done|].
    exact Hlen.
Qed.

Lemma status_entries_ok (self : t) (ds : list Z) (align : Z) (color : bool)
    (entries : list (string * Z)) (i : nat) (line : string) :
  ds ≠ [] → (i + length entries ≤ length ds)%nat →
  (color = true → ∀ status, status ∈ map fst entries →
                   status ∈ status_names self
                   ∧ is_Some (status_diff_styles self !! status)) →
  (color = true → ∀ msg style, colors self style → ∃ s, colored msg style = Ok s) →
  ∃ line', status_entries colored (status_diff_styles self) (Some ds) align color i
             entries line = Ok line'.
Proof.
  intros Hds Hlen Hstyles Hcolored. revert i line Hlen Hstyles.
  induction entries as [|[status count] entries IH]; intros i line Hlen Hstyles.
  { by eexists. }
  cbn [status_entries]. cbn [length] in Hlen.
  assert (nonempty ds = true) as -> by (by destruct ds).
  destruct (lookup_lt_is_Some_2 ds i ltac:(lia)) as [d ->].
  destruct color.
  - destruct (Hcolored eq_refl (format_d false align count) [("style", "bright")])
      as [bright ->]; [by left|]. cbn [bind].
    destruct (Hstyles eq_refl status ltac:(by left)) as [Hin [[[dec same] inc] Hs]].
    rewrite Hs.
    destruct (Hcolored eq_refl (format_d true align d)
                (if 0 <? d then inc else if 0 <=? d then same else dec)) as [diff ->].
    { right. exists status, dec, same, inc. split; [done|]. split; [done|].
      destruct (0 <? d); [by right; right; left|].
      destruct (0 <=? d); [by right; left | by left]. }
    cbn [bind]. apply IH; [lia|].
    intros _ s Hin'. apply Hstyles; [done | by right].
  - cbn [bind]. apply IH; [lia | done].
Qed.

(** X12: [status_line] returns a line, and stores the counts, whenever there
    are as many counts as status names (at least one), the last counts are
    taken from the instance ([last_counts=True]) or passed as a list of that
    length, [strftime] accepts the format of the timestamp if one is asked
    for, and either no colors are asked for or every status name has its
    styles and [colored] accepts them and the style of the counts. *)
Theorem status_line_returns (self : t) (counts : list Z) (last : last_counts_arg)
    (sum_counts : option Z) (timestamp : timestamp_arg) (align : align_arg)
    (color : bool) :
  length counts = length (status_names self) →
  status_names self ≠ [] →
  (last = LastFlag true ∧ (last_counts self = [] ∨ consistent self))
  ∨ (∃ l, last = LastList l ∧ length l = length (status_names self)) →
  (∀ format, time_format timestamp = Some format → ∃ now, strftime format = Ok now) →
  (color = true → ∀ status, status ∈ status_names self →
                   is_Some (status_diff_styles self !! status)) →
  (color = true →
   (∀ msg, ∃ s, colored msg [("style", "bright")] = Ok s)
   ∧ ∀ status decreasing same increasing style msg,
       status ∈ status_names self →
       status_diff_styles self !! status = Some (decreasing, same, increasing) →
       style ∈ [decreasing; same; increasing] →
       ∃ s, colored msg style = Ok s) →
  ∃ line, status_line colored strftime counts last sum_counts timestamp align color self
          = (Ok line, set_last_counts self counts).
Proof.
  intros Hcounts Hnames Hlast Hstamp Hstyles Hcolored.
  unfold status_line, sbind, get. rewrite resolve_last_counts_value.
  unfold raise, ret, lift, store_last_counts.
  set (resolved := match last with
                   | LastNone | LastFlag false => []
                   | LastFlag true =>
                       if nonempty (last_counts self) then last_counts self
                       else replicate (length (status_names self)) 0
                   | LastList l => l
                   end).
  assert (Hres : length resolved = length (status_names self)).
  { subst resolved. destruct Hlast as [[-> Hl] | (l & -> & Hl)]; [|done].
    destruct Hl as [-> | Hl]; [apply length_replicate|].
    unfold consistent in Hl.
    destruct (last_counts self) eqn:E; [apply length_replicate | exact Hl]. }
  assert (Hne : nonempty resolved = true).
  { destruct resolved; [|done]. destruct (status_names self); [done | discriminate]. }
  rewrite Hne, Hres, Hcounts, Nat.eqb_refl. cbn [negb andb].
  assert (∃ stamp, match time_format timestamp with
                   | Some time_format =>
                       bind (strftime time_format) (λ now, Ok ("" +:+ now +:+ ": "))
                   | None => Ok ""
                   end = Ok stamp) as [stamp ->].
  { destruct (time_format timestamp) as [format|]; [|by eexists].
    destruct (Hstamp format eq_refl) as [now ->]. by eexists. }
  match goal with |- context [status_entries ?c ?s ?d ?a ?col ?i ?en ?ln] =>
    destruct (status_entries_ok self (zip_with Z.sub counts resolved) a col en i ln)
      as [line' ->] end.
  - intros Hnil. apply (f_equal length) in Hnil. rewrite length_zip_with in Hnil.
    cbn in Hnil. destruct (status_names self); [done|]. cbn in *. lia.
  - rewrite !length_zip_with. lia.
  - intros Hc status Hs.
    apply list_elem_of_fmap in Hs as ([s c] & -> & Hin).
    apply elem_of_zip_l in Hin. split; [done | by apply Hstyles].
  - intros Hc msg style [-> | (status & dec & same & inc & Hin & Hs & Hstyle)].
    + apply (Hcolored Hc).
    + by apply (proj2 (Hcolored Hc) status dec same inc).
  - by eexists.
Qed.

(** Taking the last counts from the instance is the same as passing
    the stored counts as a list, provided some are stored: the line and the
    new state agree. *)
Lemma implicit_last_counts (self : t) (counts : list Z)
    (sum_counts : option Z) (timestamp : timestamp_arg) (align : align_arg)
    (color : bool) :
  last_counts self ≠ [] →
  status_line colored strftime counts (LastFlag true) sum_counts timestamp align color self
  = status_line colored strftime counts (LastList (last_counts self)) sum_counts timestamp
      align color self.
Proof.
  intros Hne. unfold status_line, sbind, get. rewrite !resolve_last_counts_value.
  by destruct (last_counts self).
Qed.

End WithEnvironment.

Lemma last_counts_consistent_witness :
  consistent (snd (status_line (λ msg _, Ok msg) (λ _, Ok "12:45:18") [0; 2] LastNone
                     None (TsFlag false) (AlignFlag false) false (init None None 1))).
Proof.
  apply (proj2 (last_counts_consistent (λ msg _, Ok msg) (λ _, Ok "12:45:18")
                  (init None None 1) [0; 2] LastNone None (TsFlag false)
                  (AlignFlag false) false None None 1)).
  reflexivity.
Defined.

Lemma status_line_returns_witness :
  ∃ line, status_line (λ msg _, Ok msg) (λ _, Ok "12:45:18") [0; 2; 0; 0; 0]
            (LastFlag true) None (TsFlag true) (AlignFlag true) true (init None None 1)
          = (Ok line, set_last_counts (init None None 1) [0; 2; 0; 0; 0]).
Proof.
  apply (status_line_returns (λ msg _, Ok msg) (λ _, Ok "12:45:18") (init None None 1)).
  - reflexivity.
  - discriminate.
  - left. split; [reflexivity|]. right. reflexivity.
  - intros format _. by eexists.
  - intros _ status Hs. cbn in Hs.
    repeat (apply elem_of_cons in Hs as [->|Hs]; [by eexists|]).
    by apply elem_of_nil in Hs.
  - intros _. split; intros; by eexists.
Defined.

End StatusLineMore.

(** ** BaseJobFileFactory: what linearizing returns *)

Module LinearizeMore.
Import BaseJobFileFactory TextProps LinearizeProps.

Lemma search_key_not_open (s : string) :
  string_forall not_open s = true → search_key s = None.
Proof.
  induction s as [|c s IH]; [done|]. cbn [string_forall]. intros [Hc Hs]%andb_true_iff.
  rewrite search_key_cons, match_key_not_open by done. by apply IH.
Qed.

Lemma is_b64_not_open (c : ascii) : is_b64 c = true → not_open c = true.
Proof.
  unfold not_open. destruct (Ascii.eqb_spec c "{") as [-> | _]; [|done].
  vm_compute. discriminate.
Qed.

Lemma search_key_b64encode (s : string) : search_key (b64encode s) = None.
Proof.
  apply search_key_not_open.
  apply (string_forall_impl is_b64); [apply is_b64_not_open|].
  apply JobArgumentsProps.b64encode_safe.
Qed.

Lemma linearize_value_no_key (fuel : nat) (render_variables : dict) (value s : string) :
  linearize_value fuel render_variables value = Some (Ok s) → search_key s = None.
Proof.
  revert value. induction fuel as [|fuel IH]; intros value; cbn [linearize_value]; [done|].
  destruct (search_key value) as [sub_key|] eqn:Hkey.
  - destruct (default _ _); try done. apply IH.
  - by intros [= <-].
Qed.

Lemma dict_set_elem (d : dict) (k k' : string) (v v' : value) :
  (k, v) ∈ dict_set d k' v' → (k = k' ∧ v = v') ∨ (k, v) ∈ d.
Proof.
  induction d as [|[k0 v0] d IH]; cbn [dict_set].
  - intros [= -> ->]%list_elem_of_singleton. by left.
  - destruct (String.eqb_spec k0 k') as [-> | Hne].
    + intros [[= -> ->] | Hin]%elem_of_cons; [by left | right; by right].
    + intros [[= -> ->] | Hin]%elem_of_cons; [right; by left|].
      destruct (IH Hin) as [? | ?]; [by left | right; by right].
Qed.

Lemma no_key_left_set (d : dict) (key s : string) :
  no_key_left d → search_key s = None → no_key_left (dict_set d key (VStr s)).
Proof.
  intros Hd Hs k v [[-> ->] | Hin]%dict_set_elem; [by exists s | by apply (Hd k)].
Qed.

Lemma linearize_items_no_key (str : value → string) (fuel : nat)
    (render_variables items linearized d : dict) :
  no_key_left linearized →
  linearize_items str fuel render_variables items linearized = Some (Ok d) →
  no_key_left d.
Proof.
  revert linearized. induction items as [|[key v] items IH]; intros linearized Hlin.
  - by intros [= <-].
  - cbn [linearize_items]. destruct v; try done.
    destruct (linearize_value _ _ _) as [[value | e]|] eqn:Hvalue; try done.
    apply IH, no_key_left_set; [done|]. by apply linearize_value_no_key in Hvalue.
Qed.

(** X13: whatever [linearize_render_variables] returns holds strings only,
    and no render key is left in any of them: not in the linearized values,
    and not in the added entry of the encoded variables. *)
Theorem linearized_no_key_left (str : value → string) (fuel : nat)
    (render_variables d : dict) :
  linearize_render_variables str fuel render_variables = Some (Ok d) →
  ∀ key v, (key, v) ∈ d → ∃ s, v = VStr s ∧ search_key s = None.
Proof.
  unfold linearize_render_variables.
  destruct (linearize_items _ _ _ _) as [[linearized | e]|] eqn:Hitems; try done.
  intros Hd.
  assert (d = dict_set linearized "render_variables"
                (VStr (b64encode (or_dash (json_dumps linearized))))) as ->
    by congruence.
  apply no_key_left_set; [|apply search_key_b64encode].
  apply (linearize_items_no_key str fuel render_variables render_variables [] linearized);
    [|done].
  intros key v Hin. by apply elem_of_nil in Hin.
Qed.

Lemma linearized_no_key_left_witness :
  ∃ s, VStr "Hello, Tom!" = VStr s ∧ search_key s = None.
Proof.
  apply (linearized_no_key_left example_str 3 greeting_variables
           [("variable_a", VStr "Tom"); ("variable_b", VStr "Hello, Tom!");
            ("render_variables",
             VStr (b64encode (json_dumps [("variable_a", VStr "Tom");
                                          ("variable_b", VStr "Hello, Tom!")])))]
           eq_refl "variable_b").
  right. left.
Defined.

(** *** The keys of the result *)

Lemma keys_dict_set (d : dict) (key : string) (v : value) :
  map fst (dict_set d key v)
  = if bool_decide (key ∈ map fst d) then map fst d else map fst d ++ [key].
Proof.
  induction d as [|[k0 v0] d IH]; cbn [dict_set map fst]; [done|].
  destruct (String.eqb_spec k0 key) as [-> | Hne].
  - rewrite bool_decide_eq_true_2 by (by left). done.
  - cbn [map fst]. rewrite IH. case_bool_decide as Hin.
    + rewrite bool_decide_eq_true_2 by (by right). done.
    + rewrite bool_decide_eq_false_2; [done|].
      intros [? | ?]%elem_of_cons; congruence.
Qed.

Lemma linearize_items_keys (str : value → string) (fuel : nat)
    (render_variables items linearized d : dict) :
  NoDup (map fst linearized ++ map fst items) →
  linearize_items str fuel render_variables items linearized = Some (Ok d) →
  map fst d = map fst linearized ++ map fst items.
Proof.
  revert linearized. induction items as [|[key v] items IH]; intros linearized Hnodup.
  - intros [= <-]. by rewrite List.app_nil_r.
  - cbn [linearize_items]. destruct v; try done.
    destruct (linearize_value _ _ _) as [[value | e]|] eqn:Hvalue; try done.
    intros Hd. cbn [map fst] in *.
    assert (Hkeys : map fst (dict_set linearized key (VStr value))
                    = map fst linearized ++ [key]).
    { rewrite keys_dict_set, bool_decide_eq_false_2; [done|].
      apply NoDup_app in Hnodup as (_ & Hdisj & _). intros Hin.
      apply (Hdisj key Hin). by left. }
    apply IH in Hd; rewrite Hkeys in *.
    + by rewrite <- List.app_assoc in Hd.
    + by rewrite <- List.app_assoc.
Qed.

(** X14: the result has the keys of the render variables, in their order,
    and the key [render_variables], which comes last unless it is among
    them already. *)
Theorem linearized_keys (str : value → string) (fuel : nat)
    (render_variables d : dict) :
  NoDup (map fst render_variables) →
  linearize_render_variables str fuel render_variables = Some (Ok d) →
  map fst d
  = if bool_decide ("render_variables" ∈ map fst render_variables)
    then map fst render_variables
    else map fst render_variables ++ ["render_variables"].
Proof.
  intros Hnodup. unfold linearize_render_variables.
  destruct (linearize_items _ _ _ _) as [[linearized | e]|] eqn:Hitems; try done.
  intros Hd.
  assert (d = dict_set linearized "render_variables"
                (VStr (b64encode (or_dash (json_dumps linearized))))) as ->
    by congruence.
  apply linearize_items_keys in Hitems; [|done].
  cbn [map app] in Hitems. by rewrite keys_dict_set, Hitems.
Qed.

Lemma linearized_keys_witness :
  map fst [("variable_a", VStr "Tom"); ("variable_b", VStr "Hello, Tom!");
           ("render_variables",
            VStr (b64encode (json_dumps [("variable_a", VStr "Tom");
                                         ("variable_b", VStr "Hello, Tom!")])))]
  = if bool_decide ("render_variables" ∈ map fst greeting_variables)
    then map fst greeting_variables
    else map fst greeting_variables ++ ["render_variables"].
Proof.
  apply (linearized_keys example_str 3 greeting_variables).
  - apply (bool_decide_unpack _). vm_compute. reflexivity.
  - reflexivity.
Defined.

(** *** The encoded variables *)

Lemma json_dumps_not_empty (d : dict) : json_dumps d ≠ "".
Proof. unfold json_dumps. by rewrite app_cons. Qed.

(** X15: the entry [render_variables] is the base64 encoding of the JSON
    text of the linearized variables; decoding it gives that text back. *)
Theorem linearized_encoded_variables (str : value → string) (fuel : nat)
    (render_variables d : dict) :
  linearize_render_variables str fuel render_variables = Some (Ok d) →
  ∃ linearized,
    linearize_items str fuel render_variables render_variables [] = Some (Ok linearized)
    ∧ d = dict_set linearized "render_variables"
            (VStr (b64encode (json_dumps linearized)))
    ∧ b64decode (b64encode (json_dumps linearized)) = json_dumps linearized.
Proof.
  unfold linearize_render_variables.
  destruct (linearize_items _ _ _ _) as [[linearized | e]|] eqn:Hitems; try done.
  intros Hd.
  assert (d = dict_set linearized "render_variables"
                (VStr (b64encode (or_dash (json_dumps linearized))))) as ->
    by congruence.
  exists linearized.
  rewrite JobArgumentsProps.or_dash_nonempty by apply json_dumps_not_empty.
  split; [done|]. split; [done|]. apply JobArgumentsProps.b64_round_trip.
Qed.

Lemma linearized_encoded_variables_witness :
  ∃ linearized,
    linearize_items example_str 3 greeting_variables greeting_variables []
    = Some (Ok linearized)
    ∧ dict_set [("variable_a", VStr "Tom"); ("variable_b", VStr "Hello, Tom!")]
        "render_variables"
        (VStr (b64encode (json_dumps [("variable_a", VStr "Tom");
                                      ("variable_b", VStr "Hello, Tom!")])))
      = dict_set linearized "render_variables"
          (VStr (b64encode (json_dumps linearized)))
    ∧ b64decode (b64encode (json_dumps linearized)) = json_dumps linearized.
Proof.
  apply (linearized_encoded_variables example_str 3 greeting_variables). reflexivity.
Defined.

End LinearizeMore.

(** ** BaseJobFileFactory: what rendering writes *)

Module RenderMore.
Import BaseJobFileFactory TextProps LinearizeProps.



Lemma refs_lits (s : string) : refs (lits s) = [].
Proof. induction s as [|c s IH]; [done | exact IH]. Qed.

Lemma subst_refs_absent (key : string) (qs ps : list piece) :
  key ∉ refs ps → subst_refs key qs ps = ps.
Proof.
  induction ps as [|[c|name] ps IH]; cbn [refs subst_refs]; [done|..].
  - intros Hkey. by rewrite IH.
  - intros Hkey. apply not_elem_of_cons in Hkey as [Hne Hkey].
    destruct (String.eqb_spec name key) as [-> | _]; [done|]. by rewrite IH.
Qed.

Lemma refs_subst (key : string) (qs ps : list piece) :
  refs (subst_refs key qs ps)
  = flat_map (λ name, if String.eqb name key then refs qs else [name]) (refs ps).
Proof.
  induction ps as [|[c|name] ps IH]; cbn [refs subst_refs flat_map]; [done | done |].
  rewrite refs_app, IH. by destruct (String.eqb name key).
Qed.

(** X16: on a text with references, [render_string] replaces the references
    to [key] by the value and leaves every other piece of the text as it
    is; a text that does not refer to [key] is returned unchanged, and after
    rendering with a value without references none to [key] is left. *)
Theorem render_string_references (key : string) (qs ps : list piece) :
  name_ok key = true → forallb piece_ok ps = true →
  render_string (render_pieces ps) key (render_pieces qs)
  = render_pieces (subst_refs key qs ps)
  ∧ (key ∉ refs ps →
     render_string (render_pieces ps) key (render_pieces qs) = render_pieces ps)
  ∧ (refs qs = [] → key ∉ refs (subst_refs key qs ps)).
Proof.
  intros Hkey Hps. rewrite render_string_pieces by done. split; [done|]. split.
  - intros Habsent. by rewrite subst_refs_absent.
  - intros Hqs. rewrite refs_subst, Hqs. intros Hin.
    apply list_elem_of_In, in_flat_map in Hin as (name & _ & Hin).
    destruct (String.eqb_spec name key) as [Heq | Hne]; [by apply in_nil in Hin|].
    apply in_inv in Hin as [Heq | []]. by apply Hne.
Qed.

Lemma render_string_references_witness :
  render_string (render_pieces (lits "Hello, " ++ [Ref "variable_a"; Lit "!"]))
    "variable_a" (render_pieces (lits "Tom"))
  = render_pieces (subst_refs "variable_a" (lits "Tom")
                     (lits "Hello, " ++ [Ref "variable_a"; Lit "!"]))
  ∧ ("variable_a" ∉ refs (lits "Hello, " ++ [Ref "variable_a"; Lit "!"]) →
     render_string (render_pieces (lits "Hello, " ++ [Ref "variable_a"; Lit "!"]))
       "variable_a" (render_pieces (lits "Tom"))
     = render_pieces (lits "Hello, " ++ [Ref "variable_a"; Lit "!"]))
  ∧ (refs (lits "Tom") = [] →
     "variable_a" ∉ refs (subst_refs "variable_a" (lits "Tom")
                            (lits "Hello, " ++ [Ref "variable_a"; Lit "!"]))).
Proof.
  apply (render_string_references "variable_a" (lits "Tom")
           (lits "Hello, " ++ [Ref "variable_a"; Lit "!"])); reflexivity.
Defined.

(** *** Removing the keys that are left *)



(** *** Rendering with plain variables *)




Section WithEnvironment.
Variable create_hash : string → string.
Variable full_path : string → string.
Variable fnmatch : string → string → bool.
Variable open_w : string → gmap string node → option exn.



End WithEnvironment.


End RenderMore.

(** ** BaseJobFileFactory: where the postfix goes *)

Module PostfixMore.
Import BaseJobFileFactory TextProps.

(** No character of [s] is [c]. *)
Local Abbreviation without c s := (string_forall (λ x, negb (Ascii.eqb x c)) s).

Lemma split_basename (base : string) :
  without slash base = true → split_last_slash base = ("", base).
Proof.
  induction base as [|c base IH]; [done|]. cbn [string_forall split_last_slash].
  intros [Hc Hbase]%andb_true_iff. rewrite IH by done. cbn.
  by apply negb_true_iff in Hc as ->.
Qed.

Lemma split_last_slash_dir (d base : string) :
  without slash base = true →
  split_last_slash (d +:+ "/" +:+ base) = (d +:+ "/", base).
Proof.
  intros Hbase. induction d as [|c d IH].
  - rewrite !app_nil_l.
    change ("/" +:+ base) with (String "/" base). cbn [split_last_slash].
    by rewrite split_basename.
  - rewrite (app_cons c d ("/" +:+ base)), (app_cons c d "/").
    cbn [split_last_slash]. rewrite IH. by destruct d.
Qed.

Lemma ends_with_slash_cons (a : ascii) (d : string) :
  d ≠ "" → ends_with_slash (String a d) = ends_with_slash d.
Proof.
  destruct d as [|b d]; [done|]. intros _. unfold ends_with_slash.
  cbn [String.length]. rewrite !Nat.sub_succ, !Nat.sub_0_r. done.
Qed.

Lemma rstrip_dir (d : string) :
  d ≠ "" → ends_with_slash d = false →
  rstrip_slashes (d +:+ "/") = d ∧ all_slashes (d +:+ "/") = false.
Proof.
  induction d as [|a d IH]; [done|]. intros _ Hend. rewrite app_cons.
  cbn [rstrip_slashes all_slashes].
  destruct d as [|b d].
  - cbn in Hend. cbn. rewrite Hend. done.
  - rewrite ends_with_slash_cons in Hend by done.
    destruct IH as [-> ->]; [done..|]. by rewrite !andb_false_r.
Qed.

Lemma path_split_dir (d base : string) :
  without slash base = true → ends_with_slash d = false →
  path_split (d +:+ "/" +:+ base) = (if String.eqb d "" then "/" else d, base).
Proof.
  intros Hbase Hend. unfold path_split. rewrite split_last_slash_dir by done.
  destruct d as [|a d]; [done|].
  destruct (rstrip_dir (String a d)) as [-> ->]; done.
Qed.

Lemma path_join_dir (d b : string) :
  ends_with_slash d = false → String.prefix "/" b = false →
  path_join (if String.eqb d "" then "/" else d) b = d +:+ "/" +:+ b.
Proof.
  intros Hend Hb. unfold path_join. rewrite Hb.
  destruct d as [|a d]; [done|]. cbn [String.eqb orb]. by rewrite Hend.
Qed.

Lemma split_first_dot_stem (stem : string) (ext : option string) :
  without "."%char stem = true →
  split_first_dot (stem +:+ match ext with Some e => "." +:+ e | None => "" end)
  = (stem, ext).
Proof.
  induction stem as [|c stem IH].
  - intros _. rewrite app_nil_l. by destruct ext.
  - cbn [string_forall]. intros [Hc Hstem]%andb_true_iff. rewrite app_cons.
    cbn [split_first_dot]. apply negb_true_iff in Hc as ->. by rewrite IH.
Qed.

Lemma without_app (c : ascii) (s t : string) :
  without c s = true → without c t = true → without c (s +:+ t) = true.
Proof.
  induction s as [|a s IH]; [done|]. cbn [string_forall]. rewrite app_cons.
  intros [Ha Hs]%andb_true_iff Ht. cbn [string_forall]. rewrite Ha. by apply IH.
Qed.

Lemma prefix_slash_app (s t : string) :
  (s = "" → String.prefix "/" t = false) → without slash s = true →
  String.prefix "/" (s +:+ t) = false.
Proof.
  destruct s as [|a s]; [auto|]. intros _. cbn [string_forall].
  intros [Ha _]%andb_true_iff. rewrite app_cons. cbn [String.prefix].
  apply negb_true_iff in Ha. unfold slash in Ha.
  destruct (ascii_dec "/" a) as [<- | _]; [|done]. by rewrite Ascii.eqb_refl in Ha.
Qed.

Section WithEnvironment.
Variable create_hash : string → string.
Variable full_path : string → string.
Variable fnmatch : string → string → bool.

(** X18: [postfix_file] puts the postfix, after the hash if one is asked
    for, between the part of the base name before its first dot and the
    rest, and keeps the directory: for a path made of an optional directory
    without a slash at its end, a stem without dots and an optional
    extension, the result has the same directory, stem and extension.  The
    postfix of a dictionary is that of the first pattern matching the base
    name.  A base name that starts with the postfix must not make the new
    base name start with a slash. *)
Theorem postfix_file_shape (dir : option string) (stem : string) (ext : option string)
    (postfix : postfix_arg) (add_hash : bool) :
  let suffix := match ext with Some e => "." +:+ e | None => "" end in
  let dirpart := match dir with Some d => d +:+ "/" | None => "" end in
  let path := dirpart +:+ stem +:+ suffix in
  let given :=
    match postfix with
    | PostfixNone => ""
    | PostfixStr s => s
    | PostfixDict d => first_match fnmatch (stem +:+ suffix) d
    end in
  let effective :=
    if add_hash then "_" +:+ create_hash (full_path path) +:+ given else given in
  without slash stem = true → without "."%char stem = true →
  (∀ e, ext = Some e → without slash e = true) →
  (∀ d, dir = Some d → ends_with_slash d = false) →
  (stem = "" → String.prefix "/" effective = false) →
  postfix_file create_hash full_path fnmatch path postfix add_hash
  = dirpart +:+ stem +:+ effective +:+ suffix.
Proof.
  intros suffix dirpart path given effective Hstem Hdot Hext Hdir Hlead.
  assert (Hbase : without slash (stem +:+ suffix) = true).
  { apply without_app; [done|]. subst suffix. destruct ext as [e|]; [|done].
    change ("." +:+ e) with (String "." e). cbn [string_forall].
    apply andb_true_iff. split; [reflexivity | by apply Hext]. }
  assert (Hsplit : path_split path
                   = (match dir with
                      | Some d => if String.eqb d "" then "/" else d
                      | None => ""
                      end, stem +:+ suffix)).
  { subst path dirpart. destruct dir as [d|].
    - rewrite app_assoc. apply path_split_dir; [done | by apply Hdir].
    - rewrite app_nil_l. unfold path_split. by rewrite split_basename. }
  unfold postfix_file. rewrite Hsplit. fold given. fold path. fold effective.
  destruct (String.eqb_spec effective "") as [Hnone | Hsome]; cbn [negb].
  { rewrite Hnone, app_nil_l. done. }
  subst suffix. rewrite split_first_dot_stem by done.
  set (new := match ext with
              | Some e => (stem +:+ effective) +:+ "." +:+ e
              | None => stem +:+ effective
              end).
  assert (Hnew : new = stem +:+ effective
                       +:+ match ext with Some e => "." +:+ e | None => "" end).
  { subst new. destruct ext; [by rewrite app_assoc | by rewrite app_nil_r]. }
  assert (Hnoslash : String.prefix "/" new = false).
  { rewrite Hnew. apply prefix_slash_app; [|done]. intros Hempty.
    specialize (Hlead Hempty). destruct effective as [|a x]; [done|].
    rewrite app_cons. cbn [String.prefix] in *.
    by destruct (ascii_dec "/" a); [destruct x|]. }
  subst dirpart. destruct dir as [d|].
  - rewrite path_join_dir by auto. by rewrite Hnew, !app_assoc.
  - unfold path_join. rewrite Hnoslash. cbn. by rewrite Hnew.
Qed.

End WithEnvironment.

Lemma postfix_file_shape_witness :
  postfix_file example_hash example_full_path example_fnmatch
    "/path/to/file.tar.gz" (PostfixDict [("*.txt", "_0"); ("*", "_1")]) true
  = "/path/to/file_dacc4374d3_1.tar.gz".
Proof.
  apply (postfix_file_shape example_hash example_full_path example_fnmatch
           (Some "/path/to") "file" (Some "tar.gz")
           (PostfixDict [("*.txt", "_0"); ("*", "_1")]) true).
  - reflexivity.
  - reflexivity.
  - by intros e [= <-].
  - by intros d [= <-].
  - discriminate.
Defined.

End PostfixMore.

(** ** DeprecatedInputFiles: appending paths *)

Module DeprecatedInputFilesProps.
Import BaseJobFileFactory TextProps DeprecatedInputFiles.

Lemma length_underscored (key : string) (n : nat) :
  String.length (underscored key n) = (String.length key + n)%nat.
Proof.
  revert key. induction n as [|n IH]; intros key; cbn [underscored]; [lia|].
  rewrite IH, length_app. cbn. lia.
Qed.

Lemma longer_differs (key key' : string) :
  (String.length key < String.length key')%nat → key' ≠ key.
Proof. intros Hlt ->. lia. Qed.

(** The loop never tests the keys that are shorter than the one it starts
    with. *)
Lemma free_key_delete (fuel : nat) (self : t) (key key' : string) :
  (String.length key < String.length key')%nat →
  free_key fuel (delete key self) key' = free_key fuel self key'.
Proof.
  revert key'. induction fuel as [|fuel IH]; intros key' Hlt; [done|].
  cbn [free_key]. rewrite lookup_delete_ne by (symmetry; by apply longer_differs).
  rewrite IH; [done|]. rewrite length_app. cbn. lia.
Qed.

Lemma free_key_spec (fuel : nat) (self : t) (key : string) :
  (size self < fuel)%nat →
  ∃ n, free_key fuel self key = Some (underscored key n)
       ∧ self !! underscored key n = None
       ∧ (∀ m, (m < n)%nat → is_Some (self !! underscored key m))
       ∧ (n ≤ size self)%nat.
Proof.
  revert self key. induction fuel as [|fuel IH]; intros self key Hfuel; [lia|].
  cbn [free_key]. case_bool_decide as Hkey.
  - destruct Hkey as [path Hkey].
    assert (Hsize : size self = S (size (delete key self))).
    { rewrite <- (insert_delete_id self key path) at 1 by done.
      rewrite map_size_insert_None; [done | apply lookup_delete_eq]. }
    destruct (IH (delete key self) (key +:+ "_")) as (n & Hfree & Hnone & Hsome & Hn);
      [lia|].
    assert (Hlonger : ∀ m, (String.length key
                            < String.length (underscored (key +:+ "_") m))%nat).
    { intros m. rewrite length_underscored, length_app. cbn. lia. }
    exists (S n). cbn [underscored]. repeat split.
    + rewrite <- Hfree. symmetry. apply free_key_delete.
      rewrite length_app. cbn. lia.
    + by rewrite lookup_delete_ne in Hnone
        by (symmetry; apply longer_differs, Hlonger).
    + intros [|m] Hm; cbn [underscored]; [by exists path|].
      specialize (Hsome m ltac:(lia)).
      by rewrite lookup_delete_ne in Hsome
        by (symmetry; apply longer_differs, Hlonger).
    + lia.
  - exists 0%nat. cbn [underscored]. repeat split.
    + by apply eq_None_not_Some.
    + intros m Hm. lia.
    + lia.
Qed.

Lemma append_spec (fuel : nat) (path : string) (self : t) :
  (size self < fuel)%nat →
  ∃ n, _append fuel path self = Some (<[underscored (stem path) n := path]> self)
       ∧ self !! underscored (stem path) n = None
       ∧ (∀ m, (m < n)%nat → is_Some (self !! underscored (stem path) m))
       ∧ (n ≤ size self)%nat.
Proof.
  intros Hfuel. unfold _append.
  destruct (free_key_spec fuel self (stem path) Hfuel) as (n & -> & Hrest).
  by exists n.
Qed.

(** X19: [_append] ends after at most as many attempts as there are entries,
    plus one.  The key it takes is the base name of the path up to its first
    dot, followed by the least number of underscores that gives a key not in
    use; the path is stored under it, so no entry is overwritten and there
    is one entry more. *)
Theorem append_takes_free_key (fuel : nat) (path : string) (self : t) :
  (size self < fuel)%nat →
  ∃ n self',
    _append fuel path self = Some self'
    ∧ self' = <[underscored (stem path) n := path]> self
    ∧ self !! underscored (stem path) n = None
    ∧ (∀ m, (m < n)%nat → is_Some (self !! underscored (stem path) m))
    ∧ self ⊆ self'
    ∧ size self' = S (size self).
Proof.
  intros Hfuel.
  destruct (append_spec fuel path self Hfuel) as (n & Happend & Hnone & Hsome & _).
  exists n, (<[underscored (stem path) n := path]> self).
  split; [done|]. split; [done|]. split; [done|]. split; [done|]. split.
  - by apply insert_subseteq.
  - by apply map_size_insert_None.
Qed.

Lemma append_takes_free_key_witness :
  ∃ n self',
    _append 3 "other/job.tar.gz" {[ "job" := "dir/job.sh"; "job_" := "job_.txt" ]}
    = Some self'
    ∧ self' = <[underscored (stem "other/job.tar.gz") n := "other/job.tar.gz"]>
                {[ "job" := "dir/job.sh"; "job_" := "job_.txt" ]}
    ∧ ({[ "job" := "dir/job.sh"; "job_" := "job_.txt" ]} : t)
        !! underscored (stem "other/job.tar.gz") n = None
    ∧ (∀ m, (m < n)%nat →
         is_Some (({[ "job" := "dir/job.sh"; "job_" := "job_.txt" ]} : t)
                    !! underscored (stem "other/job.tar.gz") m))
    ∧ ({[ "job" := "dir/job.sh"; "job_" := "job_.txt" ]} : t) ⊆ self'
    ∧ size self' = S (size ({[ "job" := "dir/job.sh"; "job_" := "job_.txt" ]} : t)).
Proof.
  apply (append_takes_free_key 3 "other/job.tar.gz"
           {[ "job" := "dir/job.sh"; "job_" := "job_.txt" ]}).
  vm_compute. lia.
Defined.

(** X20: [extend] ends, keeps every entry that was there, and stores every
    path of the list under a key of its own, also when base names repeat:
    there are as many entries more as the list has paths. *)
Theorem extend_keeps_all (fuel : nat) (paths : list string) (self : t) :
  (size self + length paths ≤ fuel)%nat →
  ∃ self',
    extend fuel paths self = Some self'
    ∧ self ⊆ self'
    ∧ size self' = (size self + length paths)%nat
    ∧ ∀ path, path ∈ paths → ∃ key, self' !! key = Some path.
Proof.
  revert self. induction paths as [|path paths IH]; intros self Hfuel.
  - exists self. cbn [extend length].
    split; [done|]. split; [done|]. split; [by rewrite Nat.add_0_r|].
    intros path Hin. by apply elem_of_nil in Hin.
  - cbn [length] in Hfuel. cbn [extend].
    assert (Hlt : (size self < fuel)%nat) by lia.
    destruct (append_spec fuel path self Hlt) as (n & -> & Hnone & _).
    set (key := underscored (stem path) n) in *.
    destruct (IH (<[key := path]> self)) as (self' & -> & Hsub & Hsize & Hpaths).
    { rewrite map_size_insert_None by done. lia. }
    exists self'. split; [done|]. split; [|split].
    + etrans; [|exact Hsub]. by apply insert_subseteq.
    + rewrite Hsize, map_size_insert_None by done. cbn [length]. lia.
    + intros p [-> | Hin]%elem_of_cons; [|by apply Hpaths].
      exists key. eapply lookup_weaken; [|exact Hsub]. apply lookup_insert_eq.
Qed.

Lemma extend_keeps_all_witness :
  ∃ self',
    extend 3 ["a/job.sh"; "b/job.sh"] {[ "job" := "job.sh" ]} = Some self'
    ∧ ({[ "job" := "job.sh" ]} : t) ⊆ self'
    ∧ size self' = (size ({[ "job" := "job.sh" ]} : t)
                    + length ["a/job.sh"; "b/job.sh"])%nat
    ∧ ∀ path, path ∈ ["a/job.sh"; "b/job.sh"] → ∃ key, self' !! key = Some path.
Proof.
  apply (extend_keeps_all 3 ["a/job.sh"; "b/job.sh"] {[ "job" := "job.sh" ]}).
  vm_compute. lia.
Defined.

End DeprecatedInputFilesProps.

(** ** BaseJobFileFactory: providing input files, merging the configuration *)

Module ProvideMore.
Import BaseJobFileFactory.

Section WithEnvironment.
Variable create_hash : string → string.
Variable full_path : gmap string node → string → string.
Variable fnmatch : string → string → bool.
Variable open_w : string → gmap string node → option exn.
Variable realpath : gmap string node → string → string.
Variable copy2 : string → string → gmap string node → res unit * gmap string node.

(** X21: for a source whose content does not decode, [provide_input] with
    render variables returns the destination path although it has written
    nothing: [render_file] is called with its default [silent=True].  The
    file system is as it was, so a destination that did not exist still does
    not exist. *)
Theorem provide_input_undecodable (self_dir src : string) (postfix : postfix_arg)
    (dir : string) (render_variables : dict) (skip_existing : bool)
    (fs : gmap string node) :
  fs !! src = Some (File Undecodable) →
  render_variables ≠ [] →
  provide_input create_hash full_path fnmatch open_w realpath copy2 self_dir src postfix
    dir render_variables skip_existing fs
  = (Ok (destination create_hash full_path fnmatch realpath fs self_dir src postfix dir),
     fs).
Proof.
  intros Hsrc Hvars. unfold provide_input.
  fold (destination create_hash full_path fnmatch realpath fs self_dir src postfix dir).
  destruct render_variables as [|item render_variables]; [done|].
  unfold render_file. rewrite Hsrc. cbn [bind].
  by destruct (negb skip_existing || negb (path_exists fs _)).
Qed.

End WithEnvironment.

Lemma provide_input_undecodable_witness :
  provide_input example_hash (λ _ p, p) example_fnmatch example_open_w (λ _ p, p)
    (λ _ _ fs, (Ok tt, fs)) "/tmp/job" "data.bin" PostfixNone ""
    [("name", VStr "Tom")] false {[ "data.bin" := File Undecodable ]}
  = (Ok "/tmp/job/data_dacc4374d3.bin", {[ "data.bin" := File Undecodable ]}).
Proof.
  apply (provide_input_undecodable example_hash (λ _ p, p) example_fnmatch example_open_w
           (λ _ p, p) (λ _ _ fs, (Ok tt, fs)) "/tmp/job" "data.bin" PostfixNone ""
           [("name", VStr "Tom")] false {[ "data.bin" := File Undecodable ]}).
  - reflexivity.
  - discriminate.
Defined.

(** *** Merging the configuration *)

Lemma get_config_loop_ok (attributes kwargs : gmap string value)
    (config_attrs : list string) (cfg0 : gmap string value) :
  (∀ attr, attr ∈ config_attrs → is_Some (attributes !! attr)) →
  ∃ cfg, get_config_loop attributes kwargs config_attrs cfg0 = Config cfg
         ∧ ∀ attr, cfg !! attr
                   = if bool_decide (attr ∈ config_attrs)
                     then (kwargs ∪ attributes) !! attr
                     else cfg0 !! attr.
Proof.
  revert cfg0. induction config_attrs as [|attr rest IH]; intros cfg0 Hattrs.
  { exists cfg0. split; [done|]. intros attr.
    rewrite bool_decide_eq_false_2; [done | apply not_elem_of_nil]. }
  cbn [get_config_loop].
  destruct (Hattrs attr ltac:(by left)) as [dflt Hdflt]. rewrite Hdflt.
  destruct (IH (<[attr := default dflt (kwargs !! attr)]> cfg0)) as (cfg & -> & Hcfg).
  { intros a Ha. apply Hattrs. by right. }
  exists cfg. split; [done|]. intros a. rewrite Hcfg.
  destruct (decide (a = attr)) as [-> | Hne].
  - rewrite (bool_decide_eq_true_2 (attr ∈ attr :: rest)) by (by left).
    case_bool_decide; [done|]. rewrite lookup_insert_eq, lookup_union, Hdflt.
    by destruct (kwargs !! attr).
  - rewrite lookup_insert_ne by done.
    case_bool_decide as Hin.
    + rewrite bool_decide_eq_true_2; [done | by right].
    + rewrite bool_decide_eq_false_2; [done|].
      intros [? | ?]%elem_of_cons; congruence.
Qed.

Lemma get_config_loop_missing (attributes kwargs : gmap string value)
    (config_attrs : list string) (cfg0 : gmap string value) (attr : string) :
  attr ∈ config_attrs → attributes !! attr = None →
  ∃ missing, get_config_loop attributes kwargs config_attrs cfg0 = AttributeError missing
             ∧ missing ∈ config_attrs ∧ attributes !! missing = None.
Proof.
  revert cfg0. induction config_attrs as [|a rest IH]; intros cfg0 Hin Hnone.
  { by apply elem_of_nil in Hin. }
  cbn [get_config_loop]. destruct (attributes !! a) as [dflt|] eqn:Ha.
  - apply elem_of_cons in Hin as [-> | Hin]; [congruence|].
    destruct (IH (<[a := default dflt (kwargs !! a)]> cfg0) Hin Hnone)
      as (missing & -> & Hmissing & Hm).
    exists missing. split; [done|]. split; [by right | done].
  - exists a. split; [done|]. split; [by left | done].
Qed.

(** X23: [get_config] returns the values of the attributes in
    [config_attrs], and of no others: for each of them the value given in
    [kwargs], and the attribute of the instance where [kwargs] has none.
    The attribute is looked up in either case, so the call raises an
    [AttributeError] when the instance lacks one of them, whether [kwargs]
    gives a value or not. *)
Theorem get_config_merges (attributes kwargs : gmap string value)
    (config_attrs : list string) :
  ((∀ attr, attr ∈ config_attrs → is_Some (attributes !! attr)) →
   ∃ cfg, get_config attributes config_attrs kwargs = Config cfg
          ∧ ∀ attr, cfg !! attr
                    = if bool_decide (attr ∈ config_attrs)
                      then (kwargs ∪ attributes) !! attr
                      else None)
  ∧ (∀ attr, attr ∈ config_attrs → attributes !! attr = None →
     ∃ missing, get_config attributes config_attrs kwargs = AttributeError missing
                ∧ missing ∈ config_attrs ∧ attributes !! missing = None).
Proof.
  split.
  - intros Hattrs.
    destruct (get_config_loop_ok attributes kwargs config_attrs ∅ Hattrs)
      as (cfg & Hcfg & Hlookup).
    exists cfg. split; [done|]. intros attr. rewrite Hlookup.
    case_bool_decide; [done | apply lookup_empty].
  - intros attr. apply get_config_loop_missing.
Qed.

Lemma get_config_merges_witness :
  ∃ missing,
    get_config {[ "dir" := VStr "/tmp/job"; "custom_log_file" := VNone ]}
      ["dir"; "render_variables"; "custom_log_file"]
      {[ "render_variables" := VDict [] ]}
    = AttributeError missing
    ∧ missing ∈ ["dir"; "render_variables"; "custom_log_file"]
    ∧ ({[ "dir" := VStr "/tmp/job"; "custom_log_file" := VNone ]}
         : gmap string value) !! missing = None.
Proof.
  apply (proj2 (get_config_merges
                  {[ "dir" := VStr "/tmp/job"; "custom_log_file" := VNone ]}
                  {[ "render_variables" := VDict [] ]}
                  ["dir"; "render_variables"; "custom_log_file"])
           "render_variables"); [by right; left | reflexivity].
Defined.

End ProvideMore.

(** ** Config: option references *)

Module ConfigProps.
Import BaseJobFileFactory TextProps Config.

(** No character of [s] is [c]. *)
Local Abbreviation without c s := (string_forall (λ x, negb (Ascii.eqb x c)) s).

Lemma span_all (p : ascii → bool) (s : string) :
  string_forall p s = true → span p s = (s, "").
Proof.
  intros Hs. rewrite <- (app_nil_r s) at 1. by apply span_app.
Qed.

Lemma match_option_line (u : string) :
  u ≠ "" → without newline u = true → match_option u = Some u.
Proof.
  intros Hne Hu. unfold match_option. rewrite span_all by done.
  by destruct u.
Qed.

(** X24: a value [&::section::option] is a reference to that option of that
    section, and [&::option] one to the option of the section that is
    passed as the default, for a section name without colons and an option
    name on one line (without colons in the second form); a value that does
    not start with [&::] is no reference. *)
Theorem option_ref_syntax (section option_ default_section : string) :
  option_ ≠ "" → without newline option_ = true →
  (section ≠ "" → without ":"%char section = true →
   _parse_option_ref ("&::" +:+ section +:+ "::" +:+ option_) default_section
   = Some (section, option_))
  ∧ (without ":"%char option_ = true →
     _parse_option_ref ("&::" +:+ option_) default_section
     = Some (default_section, option_))
  ∧ (∀ value, String.prefix "&::" value = false →
       _parse_option_ref value default_section = None).
Proof.
  intros Hne Hline. split; [|split].
  - intros Hsection Hcolon.
    change ("&::" +:+ section +:+ "::" +:+ option_)
      with (String "&" (String ":" (String ":" (section +:+ "::" +:+ option_)))).
    cbn [_parse_option_ref]. rewrite span_app by done.
    destruct (String.eqb_spec section "") as [? | _]; [done|].
    change ("::" +:+ option_) with (String ":" (String ":" option_)).
    lazy beta iota. by rewrite (match_option_line option_).
  - intros Hcolon.
    change ("&::" +:+ option_) with (String "&" (String ":" (String ":" option_))).
    cbn [_parse_option_ref]. rewrite span_all by done.
    destruct (String.eqb_spec option_ "") as [? | _]; [done|].
    by rewrite (match_option_line option_).
  - intros value Hprefix. destruct value as [|a [|b [|c value]]]; try done.
    all: cbn [String.prefix] in Hprefix.
    all: destruct (ascii_dec "&" a) as [<- | ?];
      [|by destruct a as [[] [] [] [] [] [] [] []]].
    all: try done.
    all: destruct (ascii_dec ":" b) as [<- | ?];
      [|by destruct b as [[] [] [] [] [] [] [] []]].
    all: try done.
    destruct (ascii_dec ":" c) as [<- | ?];
      [|by destruct c as [[] [] [] [] [] [] [] []]].
    by destruct value.
Qed.

Lemma option_ref_syntax_witness :
  (("my_section" : string) ≠ "" → without ":"%char "my_section" = true →
   _parse_option_ref ("&::" +:+ "my_section" +:+ "::" +:+ "a") "bar_section"
   = Some ("my_section", "a"))
  ∧ (without ":"%char "a" = true →
     _parse_option_ref ("&::" +:+ "a") "bar_section" = Some ("bar_section", "a"))
  ∧ (∀ value, String.prefix "&::" value = false →
       _parse_option_ref value "bar_section" = None).
Proof.
  apply (option_ref_syntax "my_section" "a" "bar_section"); [discriminate | reflexivity].
Defined.

(** ** Config: following references *)

Section WithParser.
Variable has_section : string → bool.
Variable has_option : string → string → bool.
Variable get : string → string → res value.
Variable expandvars : string → string.
Variable expanduser : string → string.
Variable str_to_int : value → res value.
Variable float : value → res value.
Variable str : value → string.
Variable brace_expand : value → res (list string).

Local Abbreviation get_default := (Config.get_default has_section has_option get expandvars
  expanduser str_to_int float str brace_expand).
Local Abbreviation interpret := (Config.interpret str_to_int float str brace_expand).
Local Abbreviation expand := (Config.expand expandvars expanduser).
Local Abbreviation target := (Config.target has_section has_option get expandvars expanduser).

(** The option exists. *)
Local Abbreviation present ref := (has_section (fst ref) && has_option (fst ref) (snd ref)).

Lemma without_csv_idem (kw : kwargs) : without_csv (without_csv kw) = without_csv kw.
Proof. reflexivity. Qed.

Lemma without_csv_id (kw : kwargs) : split_csv kw = false → without_csv kw = kw.
Proof. destruct kw. cbn. by intros ->. Qed.

Lemma target_without_csv (kw : kwargs) (ref : string * string) :
  target (without_csv kw) ref = target kw ref.
Proof. reflexivity. Qed.

Lemma get_default_missing (fuel : nat) (ref : string * string) (kw : kwargs)
    (refs : option (list (string * string))) :
  present ref = false →
  get_default (S fuel) (fst ref) (snd ref) kw refs = Some (Ok Default).
Proof.
  intros Hmissing. cbn [Config.get_default].
  by rewrite <- negb_andb, Hmissing.
Qed.

Lemma target_missing (kw : kwargs) (ref : string * string) :
  present ref = false → target kw ref = None.
Proof. intros Hmissing. unfold Config.target. by rewrite Hmissing. Qed.

(** One call, in terms of the option that the value refers to. *)
Lemma get_default_step (fuel : nat) (ref : string * string) (kw : kwargs)
    (refs : option (list (string * string))) :
  present ref = true →
  get_default (S fuel) (fst ref) (snd ref) kw refs
  = match get (fst ref) (snd ref) with
    | Raise e => Some (Raise e)
    | Ok value =>
        match target kw ref with
        | Some ref' =>
            match refs with
            | None =>
                get_default fuel (fst ref') (snd ref') (without_csv kw) (Some [ref'])
            | Some refs =>
                if bool_decide (ref' ∈ refs) then Some (Ok Default)
                else get_default fuel (fst ref') (snd ref') (without_csv kw)
                       (Some (refs ++ [ref']))
            end
        | None => Some (interpret kw (expand kw value))
        end
    end.
Proof.
  intros Hpresent. cbn [Config.get_default]. unfold Config.target.
  rewrite <- negb_andb, Hpresent. cbn [negb].
  destruct (get (fst ref) (snd ref)) as [value | e]; [|done].
  by destruct (expand kw value).
Qed.

Lemma get_default_cases (fuel : nat) (ref : string * string) (kw : kwargs)
    (refs : option (list (string * string))) :
  (present ref = false
   ∧ get_default (S fuel) (fst ref) (snd ref) kw refs = Some (Ok Default))
  ∨ (present ref = true ∧ target kw ref = None
     ∧ ∃ r, get_default (S fuel) (fst ref) (snd ref) kw refs = Some r)
  ∨ (∃ ref', present ref = true ∧ target kw ref = Some ref'
     ∧ get_default (S fuel) (fst ref) (snd ref) kw refs
       = match refs with
         | None =>
             get_default fuel (fst ref') (snd ref') (without_csv kw) (Some [ref'])
         | Some refs =>
             if bool_decide (ref' ∈ refs) then Some (Ok Default)
             else get_default fuel (fst ref') (snd ref') (without_csv kw)
                    (Some (refs ++ [ref']))
         end).
Proof.
  destruct (present ref) eqn:Hpresent.
  - right. rewrite get_default_step by done.
    destruct (target kw ref) as [ref'|] eqn:Htarget.
    + right. exists ref'. split; [done|]. split; [done|].
      unfold Config.target in Htarget. rewrite Hpresent in Htarget.
      by destruct (get (fst ref) (snd ref)).
    + left. split; [done|]. split; [done|].
      destruct (get (fst ref) (snd ref)); by eexists.
  - left. split; [done|]. by apply get_default_missing.
Qed.

Lemma get_default_mono (n m : nat) (ref : string * string) (kw : kwargs)
    (refs : option (list (string * string))) (r : res outcome) :
  get_default n (fst ref) (snd ref) kw refs = Some r → (n ≤ m)%nat →
  get_default m (fst ref) (snd ref) kw refs = Some r.
Proof.
  revert m ref kw refs. induction n as [|n IH]; intros m ref kw refs; [done|].
  intros Hn Hle. destruct m as [|m]; [lia|].
  destruct (get_default_cases n ref kw refs)
    as [[Hmissing Hcall] | [(Hpresent & Htarget & _) | (ref' & Hpresent & Htarget & Hcall)]].
  - rewrite Hcall in Hn. by rewrite get_default_missing.
  - rewrite get_default_step in Hn |- * by done. by rewrite Htarget in Hn |- *.
  - rewrite Hcall in Hn. rewrite get_default_step by done. rewrite Htarget.
    destruct (get (fst ref) (snd ref)) as [value | e] eqn:Hget.
    + destruct refs as [refs|].
      * case_bool_decide; [done|]. apply IH; [done | lia].
      * apply IH; [done | lia].
    + rewrite get_default_step, Hget in Hcall by done.
      rewrite <- Hcall in Hn. done.
Qed.

Section Finite.
Variable universe : gset (string * string).
Hypothesis Huniverse : ∀ ref, present ref = true → ref ∈ universe.

Lemma get_default_ends (n : nat) :
  ∀ kw refs ref fuel,
    (size (universe ∖ list_to_set refs) ≤ n)%nat → (n + 2 ≤ fuel)%nat →
    is_Some (get_default fuel (fst ref) (snd ref) kw (Some refs)).
Proof.
  induction n as [|n IH]; intros kw refs ref fuel Hsize Hfuel.
  all: destruct fuel as [|[|fuel]]; [lia | lia |].
  all: destruct (get_default_cases (S fuel) ref kw (Some refs))
    as [[_ ->] | [(_ & _ & r & ->) | (ref' & _ & _ & ->)]]; [done | done |].
  all: case_bool_decide as Hin; [done|].
  all: destruct (present ref') eqn:Hpresent;
    [|by rewrite get_default_missing].
  all: assert (Hfresh : ref' ∈ universe ∖ list_to_set refs)
    by (apply elem_of_difference; split;
        [by apply Huniverse | by rewrite elem_of_list_to_set]).
  - apply size_empty_iff in Hfresh; [done | lia].
  - apply IH; [|lia].
    assert (universe ∖ list_to_set (refs ++ [ref']) ⊂ universe ∖ list_to_set refs)
      as Hless%subset_size; [|lia].
    rewrite list_to_set_app_L. set_solver.
Qed.

Lemma get_default_returns (kw : kwargs) (ref : string * string)
    (refs : option (list (string * string))) (fuel : nat) :
  (size universe + 2 ≤ fuel)%nat →
  is_Some (get_default fuel (fst ref) (snd ref) kw refs).
Proof.
  intros Hfuel. destruct refs as [refs|].
  { apply (get_default_ends (size universe)); [|done].
    apply subseteq_size. set_solver. }
  destruct fuel as [|fuel]; [lia|].
  destruct (get_default_cases fuel ref kw None)
    as [[_ ->] | [(_ & _ & r & ->) | (ref' & _ & _ & ->)]]; [done | done |].
  destruct (present ref') eqn:Hpresent.
  - destruct (size universe) as [|n] eqn:Hsize.
    + apply size_empty_iff in Hsize. specialize (Huniverse ref' Hpresent).
      set_solver.
    + apply (get_default_ends n); [|lia].
      assert (universe ∖ list_to_set [ref'] ⊂ universe) as Hless%subset_size; [|lia].
      specialize (Huniverse ref' Hpresent). set_solver.
  - destruct fuel as [|fuel]; [lia|]. by rewrite get_default_missing.
Qed.

End Finite.

(** X25: [get_default] ends, whatever the options refer to: with finitely
    many options, the depth of its recursion is at most their number plus
    two, also when references form a cycle. *)
Theorem get_default_terminates (universe : gset (string * string)) (section option_ : string)
    (kw : kwargs) (refs : option (list (string * string))) :
  (∀ s o, has_section s = true → has_option s o = true → (s, o) ∈ universe) →
  ∃ r, ∀ fuel, (size universe + 2 ≤ fuel)%nat →
         get_default fuel section option_ kw refs = Some r.
Proof.
  intros Huniverse.
  assert (Hpresent : ∀ ref, present ref = true → ref ∈ universe).
  { intros [s o] [Hs Ho]%andb_true_iff. by apply Huniverse. }
  destruct (get_default_returns universe Hpresent kw (section, option_) refs
              (size universe + 2)) as [r Hr]; [done|].
  exists r. intros fuel Hfuel.
  by apply (get_default_mono (size universe + 2) fuel (section, option_)).
Qed.

(** *** References that lead nowhere *)

Lemma get_default_closed (closed : string * string → Prop) (kw0 : kwargs) :
  (∀ ref, closed ref → present ref = true →
     ∃ value ref', get (fst ref) (snd ref) = Ok value
                   ∧ target kw0 ref = Some ref' ∧ closed ref') →
  ∀ fuel kw ref refs r,
    (∀ ref, target kw ref = target kw0 ref) →
    closed ref → get_default fuel (fst ref) (snd ref) kw refs = Some r →
    r = Ok Default.
Proof.
  intros Hclosed. induction fuel as [|fuel IH]; intros kw ref refs r Hkw Href; [done|].
  destruct (present ref) eqn:Hpresent.
  - destruct (Hclosed ref Href Hpresent) as (value & ref' & Hget & Htarget & Href').
    rewrite get_default_step, Hget, Hkw, Htarget by done.
    destruct refs as [refs|].
    + case_bool_decide; [congruence|]. by apply IH.
    + by apply IH.
  - rewrite get_default_missing by done. congruence.
Qed.

(** X26: where references lead in a circle, or on and on to another
    reference or to an option that does not exist, [get_default] returns the
    default: for a set of options each of which, where it exists, holds a
    reference to an option of the set, the call for any of them ends and
    returns the default. *)
Theorem circular_references_default (universe : gset (string * string))
    (closed : string * string → Prop) (section option_ : string) (kw : kwargs)
    (fuel : nat) :
  (∀ s o, has_section s = true → has_option s o = true → (s, o) ∈ universe) →
  (∀ ref, closed ref → has_section (fst ref) = true →
     has_option (fst ref) (snd ref) = true →
     ∃ value ref', get (fst ref) (snd ref) = Ok value
                   ∧ target kw ref = Some ref' ∧ closed ref') →
  closed (section, option_) →
  (size universe + 2 ≤ fuel)%nat →
  get_default fuel section option_ kw None = Some (Ok Default).
Proof.
  intros Huniverse Hclosed Href Hfuel.
  assert (Hpresent : ∀ ref, present ref = true → ref ∈ universe).
  { intros [s o] [Hs Ho]%andb_true_iff. by apply Huniverse. }
  destruct (get_default_returns universe Hpresent kw (section, option_) None fuel Hfuel)
    as [r Hr].
  cbn [fst snd] in Hr. rewrite Hr. f_equal.
  apply (get_default_closed closed kw) with (fuel := fuel) (kw := kw)
    (ref := (section, option_)) (refs := None); [|done..].
  intros ref Hin [Hs Ho]%andb_true_iff. by apply Hclosed.
Qed.

(** *** References are transparent *)

Lemma skipped_first (ref0 ref1 : string * string) :
  ∀ fuel fuel' kw ref refs x y,
    target kw ref0 = Some ref1 →
    ref1 ∈ refs →
    get_default fuel (fst ref) (snd ref) kw (Some (ref0 :: refs)) = Some x →
    get_default fuel' (fst ref) (snd ref) kw (Some refs) = Some y →
    x = y.
Proof.
  induction fuel as [|fuel IH]; intros fuel' kw ref refs x y Htarget Hin; [done|].
  destruct fuel' as [|fuel']; [done|].
  destruct (present ref) eqn:Hpresent.
  2: { rewrite !get_default_missing by done. congruence. }
  rewrite !get_default_step by done.
  destruct (get (fst ref) (snd ref)) as [value | e]; [|congruence].
  destruct (target kw ref) as [ref'|] eqn:Href'; [|congruence].
  destruct (decide (ref' ∈ refs)) as [Hskip | Hnew].
  { rewrite !bool_decide_eq_true_2 by (done || by right). congruence. }
  rewrite (bool_decide_eq_false_2 (ref' ∈ refs)) by done.
  destruct (decide (ref' = ref0)) as [-> | Hne].
  - rewrite bool_decide_eq_true_2 by (by left). intros [= <-].
    destruct fuel' as [|fuel']; [done|].
    assert (Hpresent0 : present ref0 = true).
    { destruct (present ref0) eqn:H0; [done|].
      by rewrite target_missing in Htarget. }
    rewrite get_default_step by done. rewrite target_without_csv, Htarget.
    destruct (get (fst ref0) (snd ref0)) as [value0 | e] eqn:Hget.
    + rewrite bool_decide_eq_true_2; [congruence|].
      apply elem_of_app. by left.
    + unfold Config.target in Htarget. by rewrite Hpresent0, Hget in Htarget.
  - rewrite bool_decide_eq_false_2.
    2: { intros [? | ?]%elem_of_cons; congruence. }
    intros Hx Hy.
    apply (IH fuel' (without_csv kw) ref' (refs ++ [ref']) x y); [done | | done..].
    apply elem_of_app. by left.
Qed.

(** X27: a reference is transparent, but for the splitting of lists: the
    call for an option that refers to another option returns what the call
    for that option returns without [split_csv], also where the references
    go on from there or come back.  With [split_csv=False], as by default,
    both calls have the same arguments. *)
Theorem reference_transparent (section option_ : string) (ref : string * string)
    (kw : kwargs) (fuel fuel' : nat) (x y : res outcome) :
  target kw (section, option_) = Some ref →
  get_default fuel section option_ kw None = Some x →
  get_default fuel' (fst ref) (snd ref) (without_csv kw) None = Some y →
  x = y ∧ (split_csv kw = false → without_csv kw = kw).
Proof.
  intros Htarget Hx Hy. split; [|apply without_csv_id]. revert Hx Hy.
  destruct fuel as [|fuel]; [done|].
  assert (Hpresent : present (section, option_) = true).
  { destruct (present (section, option_)) eqn:H0; [done|].
    by rewrite target_missing in Htarget. }
  pose proof (get_default_step fuel (section, option_) kw None Hpresent) as Hstep.
  cbn [fst snd] in Hstep. rewrite Hstep, Htarget.
  destruct (get section option_) as [value | e] eqn:Hget.
  2: { unfold Config.target in Htarget. cbn [fst snd] in Htarget, Hpresent.
       by rewrite Hpresent, Hget in Htarget. }
  clear Hstep. destruct fuel as [|fuel]; [done|]. destruct fuel' as [|fuel']; [done|].
  destruct (present ref) eqn:Href.
  2: { rewrite !get_default_missing by done. congruence. }
  rewrite !get_default_step by done.
  destruct (get (fst ref) (snd ref)) as [value' | e] eqn:Hget'; [|congruence].
  destruct (target (without_csv kw) ref) as [ref'|] eqn:Href'; [|congruence].
  case_bool_decide as Hself.
  - apply list_elem_of_singleton in Hself as ->. intros [= <-].
    destruct fuel' as [|fuel']; [done|].
    rewrite get_default_step by done. rewrite target_without_csv, Href', Hget'.
    rewrite bool_decide_eq_true_2 by (by left). congruence.
  - intros Hx Hy.
    apply (skipped_first ref ref' fuel fuel' (without_csv kw) ref' [ref'] x y);
      [done | by left | done | done].
Qed.

End WithParser.

Lemma get_default_terminates_witness :
  ∃ r, ∀ fuel, (size example_universe + 2 ≤ fuel)%nat →
         get_default example_has_section example_has_option example_get
           (λ s, s) (λ s, s) Ok Ok (λ _, "") (λ _, Ok []) fuel
           "my_section" "c" no_kwargs None = Some r.
Proof.
  apply (get_default_terminates example_has_section example_has_option example_get
           (λ s, s) (λ s, s) Ok Ok (λ _, "") (λ _, Ok []) example_universe
           "my_section" "c" no_kwargs None).
  intros s o _ Ho. apply bool_decide_eq_true in Ho.
  by apply elem_of_list_to_set.
Defined.

Lemma circular_references_default_witness :
  get_default example_has_section example_has_option example_get
    (λ s, s) (λ s, s) Ok Ok (λ _, "") (λ _, Ok []) 7
    "my_section" "c" no_kwargs None = Some (Ok Default).
Proof.
  apply (circular_references_default example_has_section example_has_option example_get
           (λ s, s) (λ s, s) Ok Ok (λ _, "") (λ _, Ok []) example_universe
           (λ ref, ref = ("my_section", "c") ∨ ref = ("my_section", "d"))
           "my_section" "c" no_kwargs 7).
  - intros s o _ Ho. apply bool_decide_eq_true in Ho.
    by apply elem_of_list_to_set.
  - intros ref [-> | ->] _ _.
    + exists (VStr "&::d"), ("my_section", "d").
      split; [reflexivity|]. split; [reflexivity | by right].
    + exists (VStr "&::c"), ("my_section", "c").
      split; [reflexivity|]. split; [reflexivity | by left].
  - by left.
  - vm_compute. lia.
Defined.

Lemma reference_transparent_witness :
  (Ok (Value (VStr "123")) : res outcome) = Ok (Value (VStr "123"))
  ∧ (split_csv no_kwargs = false → without_csv no_kwargs = no_kwargs).
Proof.
  apply (reference_transparent example_has_section example_has_option example_get
           (λ s, s) (λ s, s) Ok Ok (λ _, "") (λ _, Ok [])
           "bar_section" "a" ("my_section", "a") no_kwargs 3 2); reflexivity.
Defined.

End ConfigProps.

(** ** Config: updating the stored configuration *)

Module UpdateProps.
Import Config.

Lemma has_option_stored (self : parser) (section option_ : string) :
  has_option self section option_ = false → stored self section option_ = None.
Proof.
  unfold has_option, stored.
  destruct (String.eqb section "" || String.eqb section DEFAULTSECT).
  - intros Hnone%bool_decide_eq_false. by apply eq_None_not_Some.
  - destruct (_sections self !! section) as [options|]; [|done].
    intros [Hown%bool_decide_eq_false Hdefault%bool_decide_eq_false]%orb_false_iff.
    apply eq_None_not_Some in Hown, Hdefault. by rewrite Hown.
Qed.

Section WithEnvironment.
Variable valid_value : string → bool.
Variable str : value → string.

Local Abbreviation set := (Config.set valid_value).
Local Abbreviation update_options := (Config.update_options valid_value str).
Local Abbreviation update_sections := (Config.update_sections valid_value str).
Local Abbreviation update := (Config.update valid_value str).
Local Abbreviation storable := (Config.storable valid_value str).

Lemma keeps_refl (self : parser) : keeps self self.
Proof. by intros section option_ v. Qed.

Lemma keeps_trans (self self' self'' : parser) :
  keeps self self' → keeps self' self'' → keeps self self''.
Proof. intros H1 H2 section option_ v Hv. by apply H2, H1. Qed.

Lemma set_keeps (section option_ value : string) (self : parser) :
  has_option self section option_ = false →
  keeps self (snd (set section option_ value self)).
Proof.
  intros Hfresh s o v. unfold Config.set.
  destruct (negb (String.eqb value "") && negb (valid_value value)); [done|].
  unfold has_option in Hfresh. unfold stored.
  destruct (String.eqb section "" || String.eqb section DEFAULTSECT) eqn:Hsection.
  - apply bool_decide_eq_false, eq_None_not_Some in Hfresh. cbn.
    assert (Hdefaults : ∀ x, _defaults self !! o = Some x →
                          <[option_ := Some value]> (_defaults self) !! o = Some x).
    { intros x Hx. rewrite lookup_insert_ne; [done | congruence]. }
    destruct (String.eqb s "" || String.eqb s DEFAULTSECT); [by apply Hdefaults|].
    destruct (_sections self !! s) as [options|]; [|done].
    destruct (options !! o); [done | by apply Hdefaults].
  - destruct (_sections self !! section) as [options|] eqn:Hoptions; [|done].
    apply orb_false_iff in Hfresh
      as [Hown%bool_decide_eq_false Hdefault%bool_decide_eq_false].
    apply eq_None_not_Some in Hown, Hdefault. cbn.
    destruct (String.eqb s "" || String.eqb s DEFAULTSECT) eqn:Hs; [done|].
    destruct (decide (s = section)) as [-> | Hne].
    + rewrite lookup_insert_eq, Hoptions.
      destruct (decide (o = option_)) as [-> | Hne].
      * rewrite Hown, Hdefault. done.
      * by rewrite lookup_insert_ne.
    + by rewrite lookup_insert_ne.
Qed.

Lemma add_section_keeps (section : string) (self : parser) :
  has_section self section = false →
  keeps self (snd (add_section section self)).
Proof.
  intros Hnew%bool_decide_eq_false s o v. apply eq_None_not_Some in Hnew.
  unfold add_section.
  destruct (String.eqb section DEFAULTSECT); [done|].
  destruct (has_section self section); [done|]. unfold stored. cbn.
  destruct (String.eqb s "" || String.eqb s DEFAULTSECT); [done|].
  destruct (decide (s = section)) as [-> | Hne].
  - by rewrite Hnew.
  - by rewrite lookup_insert_ne.
Qed.

Lemma update_options_keeps (section : string) (_data : list (string * value))
    (self : parser) :
  keeps self (snd (update_options false section _data self)).
Proof.
  revert self. induction _data as [|[option_ value] _data IH]; intros self.
  { apply keeps_refl. }
  cbn [Config.update_options orb].
  destruct (has_option self section option_) eqn:Hhas; cbn [negb]; [apply IH|].
  pose proof (set_keeps section option_ (str value) self Hhas) as Hset.
  destruct (set section option_ (str value) self) as [[[]|e] self']; [|done].
  eapply keeps_trans; [exact Hset | apply IH].
Qed.

Lemma update_sections_keeps (overwrite_sections : bool)
    (data : list (string * list (string * value))) (self : parser) :
  keeps self (snd (update_sections overwrite_sections false data self)).
Proof.
  revert self. induction data as [|[section _data] data IH]; intros self.
  { apply keeps_refl. }
  cbn [Config.update_sections].
  destruct (has_section self section) eqn:Hhas; cbn [negb].
  - destruct overwrite_sections; cbn [negb]; [|apply IH].
    pose proof (update_options_keeps section _data self) as Hoptions.
    destruct (update_options false section _data self) as [[[]|e] self']; [|done].
    eapply keeps_trans; [exact Hoptions | apply IH].
  - pose proof (add_section_keeps section self Hhas) as Hadd.
    destruct (add_section section self) as [[[]|e] self1]; [|done].
    pose proof (update_options_keeps section _data self1) as Hoptions.
    destruct (update_options false section _data self1) as [[[]|e] self2].
    + eapply keeps_trans; [exact Hadd|]. eapply keeps_trans; [exact Hoptions | apply IH].
    + eapply keeps_trans; [exact Hadd | exact Hoptions].
Qed.

(** X28: [update] that does not overwrite options changes no option that is
    there: whatever a lookup found for a section and an option before, it
    finds afterwards, whether the call returns or raises, and whether
    sections are overwritten or not. *)
Theorem update_keeps_options (data : list (string * list (string * value)))
    (overwrite : bool) (overwrite_sections overwrite_options : option bool)
    (self : parser) (section option_ : string) (v : option string) :
  default overwrite overwrite_options = false →
  stored self section option_ = Some v →
  stored (snd (update data overwrite overwrite_sections overwrite_options self))
    section option_ = Some v.
Proof.
  intros Hkeep. unfold Config.update. rewrite Hkeep.
  apply update_sections_keeps.
Qed.

(** *** Overwriting *)

Lemma proper_eqb (section : string) :
  proper section → String.eqb section "" || String.eqb section DEFAULTSECT = false.
Proof.
  intros [H1 H2]. apply orb_false_iff.
  split; by apply String.eqb_neq.
Qed.

Lemma update_options_sets (section : string) (_data : list (string * value))
    (self : parser) (options : gmap string (option string)) :
  proper section → _sections self !! section = Some options →
  NoDup (map fst _data) → storable _data →
  ∃ options',
    update_options true section _data self
    = (Ok tt, {| _defaults := _defaults self;
                 _sections := <[section := options']> (_sections self) |})
    ∧ (∀ option_ value, (option_, value) ∈ _data →
         options' !! option_ = Some (Some (str value)))
    ∧ (∀ option_, option_ ∉ map fst _data → options' !! option_ = options !! option_).
Proof.
  intros Hproper. revert self options.
  induction _data as [|[option_ value] _data IH]; intros self options Hoptions Hnodup Hok.
  { exists options. split; [|split; [by intros ?? ?%elem_of_nil | done]].
    cbn. destruct self. cbn in *. by rewrite insert_id. }
  cbn [map fst] in Hnodup. apply NoDup_cons in Hnodup as [Hfirst Hnodup].
  cbn [Config.update_options orb]. unfold Config.set.
  assert (negb (String.eqb (str value) "") && negb (valid_value (str value)) = false)
    as ->.
  { destruct (Hok option_ value ltac:(by left)) as [-> | ->]; [done|].
    apply andb_false_r. }
  rewrite proper_eqb, Hoptions by done.
  destruct (IH {| _defaults := _defaults self;
                  _sections := <[section := <[option_ := Some (str value)]> options]>
                                 (_sections self) |}
              (<[option_ := Some (str value)]> options))
    as (options' & -> & Hset & Hframe).
  { apply lookup_insert_eq. }
  { done. }
  { intros o v Hin. apply (Hok o v). by right. }
  cbn [_defaults _sections]. rewrite insert_insert_eq.
  exists options'. split; [done|]. split.
  - intros o v [[= -> ->] | Hin]%elem_of_cons; [|by apply Hset].
    rewrite Hframe by done. apply lookup_insert_eq.
  - intros o [Hne Hnotin]%not_elem_of_cons. rewrite Hframe by done.
    by rewrite lookup_insert_ne.
Qed.

Lemma update_sections_sets (data : list (string * list (string * value)))
    (self : parser) :
  NoDup (map fst data) →
  (∀ section _data, (section, _data) ∈ data →
     proper section ∧ NoDup (map fst _data) ∧ storable _data) →
  ∃ self',
    update_sections true true data self = (Ok tt, self')
    ∧ _defaults self' = _defaults self
    ∧ (∀ section _data, (section, _data) ∈ data →
         ∃ options, _sections self' !! section = Some options
                    ∧ ∀ option_ value, (option_, value) ∈ _data →
                        options !! option_ = Some (Some (str value)))
    ∧ (∀ section, section ∉ map fst data →
         _sections self' !! section = _sections self !! section).
Proof.
  revert self. induction data as [|[section _data] data IH]; intros self Hnodup Hdata.
  { exists self. split; [done|]. split; [done|].
    split; [by intros ?? ?%elem_of_nil | done]. }
  cbn [map fst] in Hnodup. apply NoDup_cons in Hnodup as [Hfirst Hnodup].
  destruct (Hdata section _data ltac:(by left)) as (Hproper & Hkeys & Hok).
  assert (Htail : ∀ self2 options,
            _defaults self2 = _defaults self →
            _sections self2 !! section = Some options →
            (∀ option_ value, (option_, value) ∈ _data →
               options !! option_ = Some (Some (str value))) →
            (∀ s, s ≠ section → _sections self2 !! s = _sections self !! s) →
            ∃ self',
              update_sections true true data self2 = (Ok tt, self')
              ∧ _defaults self' = _defaults self
              ∧ (∀ s d, (s, d) ∈ (section, _data) :: data →
                   ∃ options, _sections self' !! s = Some options
                              ∧ ∀ option_ value, (option_, value) ∈ d →
                                  options !! option_ = Some (Some (str value)))
              ∧ (∀ s, s ∉ section :: map fst data →
                   _sections self' !! s = _sections self !! s)).
  { intros self2 options Hdefaults Hsection Hset Hframe.
    destruct (IH self2 Hnodup) as (self' & -> & Hdefaults' & Hsets & Hframe').
    { intros s d Hin. apply Hdata. by right. }
    exists self'. split; [done|]. split; [congruence|]. split.
    - intros s d [[= -> ->] | Hin]%elem_of_cons; [|by apply Hsets].
      exists options. by rewrite Hframe'.
    - intros s [Hne Hnotin]%not_elem_of_cons.
      rewrite Hframe' by done. by apply Hframe. }
  cbn [Config.update_sections].
  destruct (has_section self section) eqn:Hhas; cbn [negb].
  - apply bool_decide_eq_true in Hhas as [options Hoptions].
    destruct (update_options_sets section _data self options)
      as (options' & -> & Hset & _); [done..|].
    apply (Htail _ options'); cbn [_defaults _sections]; [done | | done |].
    + apply lookup_insert_eq.
    + intros s Hne. by rewrite lookup_insert_ne.
  - unfold add_section. rewrite Hhas.
    destruct Hproper as [Hempty Hdefault].
    apply String.eqb_neq in Hdefault as Hdefault'. rewrite Hdefault'.
    destruct (update_options_sets section _data
                {| _defaults := _defaults self;
                   _sections := <[section := ∅]> (_sections self) |} ∅)
      as (options' & -> & Hset & _); [done | apply lookup_insert_eq | done..|].
    cbn [_defaults _sections]. rewrite insert_insert_eq.
    apply (Htail _ options'); cbn [_defaults _sections]; [done | | done |].
    + apply lookup_insert_eq.
    + intros s Hne. by rewrite lookup_insert_ne.
Qed.

(** X29: [update] that overwrites returns and sets every option of the
    data: afterwards a lookup finds, for every section and option of the
    data, the string of the value given; the defaults are as before and so
    are the sections that the data do not name.  The sections of the data
    have names of their own, and the values pass the check of the
    interpolation. *)
Theorem update_sets_options (data : list (string * list (string * value)))
    (overwrite : bool) (overwrite_sections overwrite_options : option bool)
    (self : parser) :
  default overwrite overwrite_sections = true →
  default overwrite overwrite_options = true →
  NoDup (map fst data) →
  (∀ section _data, (section, _data) ∈ data →
     proper section ∧ NoDup (map fst _data) ∧ storable _data) →
  ∃ self',
    update data overwrite overwrite_sections overwrite_options self = (Ok tt, self')
    ∧ (∀ section _data option_ value,
         (section, _data) ∈ data → (option_, value) ∈ _data →
         stored self' section option_ = Some (Some (str value)))
    ∧ _defaults self' = _defaults self
    ∧ (∀ section, section ∉ map fst data →
         _sections self' !! section = _sections self !! section).
Proof.
  intros Hsections Hoptions Hnodup Hdata. unfold Config.update.
  rewrite Hsections, Hoptions.
  destruct (update_sections_sets data self Hnodup Hdata)
    as (self' & -> & Hdefaults & Hsets & Hframe).
  exists self'. split; [done|]. split; [|done].
  intros section _data option_ value Hsection Hoption.
  destruct (Hsets section _data Hsection) as (options & Hlookup & Hset).
  destruct (Hdata section _data Hsection) as (Hproper & _).
  unfold stored. rewrite proper_eqb, Hlookup by done.
  by rewrite (Hset option_ value).
Qed.

(** *** The section of the defaults *)

Lemma set_no_default (section option_ value : string) (self : parser) :
  _sections self !! DEFAULTSECT = None →
  _sections (snd (set section option_ value self)) !! DEFAULTSECT = None.
Proof.
  intros Hnone. unfold Config.set.
  destruct (negb (String.eqb value "") && negb (valid_value value)); [done|].
  destruct (String.eqb section "" || String.eqb section DEFAULTSECT); [done|].
  destruct (_sections self !! section) as [options|] eqn:Hoptions; [|done].
  cbn. rewrite lookup_insert_ne; [done | congruence].
Qed.

Lemma update_options_no_default (overwrite_options : bool) (section : string)
    (_data : list (string * value)) (self : parser) :
  _sections self !! DEFAULTSECT = None →
  _sections (snd (Config.update_options valid_value str overwrite_options section _data
                    self)) !! DEFAULTSECT = None.
Proof.
  revert self. induction _data as [|[option_ value] _data IH]; intros self Hnone; [done|].
  cbn [Config.update_options].
  destruct (overwrite_options || negb (has_option self section option_)); [|by apply IH].
  pose proof (set_no_default section option_ (str value) self Hnone) as Hset.
  destruct (set section option_ (str value) self) as [[[]|e] self']; [|done].
  by apply IH.
Qed.

(** X30: [update] cannot set the defaults under their name: data with a
    section [DEFAULT] make it raise, since [has_section] does not count that
    section and [add_section] refuses it. *)
Theorem update_default_section_raises (data : list (string * list (string * value)))
    (overwrite : bool) (overwrite_sections overwrite_options : option bool)
    (self : parser) (_data : list (string * value)) :
  (DEFAULTSECT, _data) ∈ data →
  _sections self !! DEFAULTSECT = None →
  ∃ e, fst (update data overwrite overwrite_sections overwrite_options self) = Raise e.
Proof.
  unfold Config.update.
  generalize (default overwrite overwrite_sections) as sections.
  generalize (default overwrite overwrite_options) as options.
  intros options sections. revert self.
  induction data as [|[section d] data IH]; intros self Hin Hnone.
  { by apply elem_of_nil in Hin. }
  cbn [Config.update_sections].
  destruct (String.eqb_spec section DEFAULTSECT) as [-> | Hne].
  { unfold has_section. rewrite bool_decide_eq_false_2
      by (rewrite Hnone; by intros [? ?]).
    cbn. by eexists. }
  apply elem_of_cons in Hin as [[= ? ?] | Hin]; [congruence|].
  destruct (has_section self section) eqn:Hhas; cbn [negb].
  - destruct sections; cbn [negb]; [|by apply IH].
    pose proof (update_options_no_default options section d self Hnone) as Hkeep.
    destruct (update_options options section d self) as [[[]|e] self']; [|by eexists].
    by apply IH.
  - unfold add_section. rewrite Hhas.
    rewrite (proj2 (String.eqb_neq _ _) Hne).
    pose proof (update_options_no_default options section d
                  {| _defaults := _defaults self;
                     _sections := <[section := ∅]> (_sections self) |}) as Hkeep.
    destruct (update_options options section d _) as [[[]|e] self']; [|by eexists].
    apply IH; [done|]. apply Hkeep. cbn.
    by rewrite lookup_insert_ne.
Qed.

End WithEnvironment.

Lemma update_keeps_options_witness :
  stored (snd (update (λ _, true) (λ v, match v with VStr s => s | _ => "" end)
                 [("my_section", [("a", VStr "456"); ("b", VStr "1")])]
                 false None None example_parser))
    "my_section" "a" = Some (Some "123").
Proof.
  apply (update_keeps_options (λ _, true) (λ v, match v with VStr s => s | _ => "" end)
           [("my_section", [("a", VStr "456"); ("b", VStr "1")])]
           false None None example_parser "my_section" "a" (Some "123"));
    reflexivity.
Defined.

Lemma update_sets_options_witness :
  ∃ self',
    update (λ _, true) (λ v, match v with VStr s => s | _ => "" end)
      [("my_section", [("a", VStr "456")])] true None None example_parser
    = (Ok tt, self')
    ∧ (∀ section _data option_ value,
         (section, _data) ∈ [("my_section", [("a", VStr "456")])] →
         (option_, value) ∈ _data →
         stored self' section option_
         = Some (Some (match value with VStr s => s | _ => "" end)))
    ∧ _defaults self' = _defaults example_parser
    ∧ (∀ section, section ∉ map fst [("my_section", [("a", VStr "456")])] →
         _sections self' !! section = _sections example_parser !! section).
Proof.
  apply (update_sets_options (λ _, true) (λ v, match v with VStr s => s | _ => "" end)
           [("my_section", [("a", VStr "456")])] true None None example_parser).
  - reflexivity.
  - reflexivity.
  - apply NoDup_singleton.
  - intros section _data Hin. apply list_elem_of_singleton in Hin as [= -> ->].
    split; [by split|]. split; [apply NoDup_singleton|].
    intros option_ value _. by right.
Defined.

Lemma update_default_section_raises_witness :
  ∃ e, fst (update (λ _, true) (λ v, match v with VStr s => s | _ => "" end)
              [("my_section", [("a", VStr "456")]); ("DEFAULT", [("b", VStr "1")])]
              true None None example_parser) = Raise e.
Proof.
  apply (update_default_section_raises (λ _, true)
           (λ v, match v with VStr s => s | _ => "" end)
           [("my_section", [("a", VStr "456")]); ("DEFAULT", [("b", VStr "1")])]
           true None None example_parser [("b", VStr "1")]).
  - right. left.
  - reflexivity.
Defined.

End UpdateProps.
